(** * Question sheet store: entity graph, validation and snapshot history

    A shallow embedding of the store of the question sheet manager
    ([store/useSheetStore.ts], [utils/validation.ts]) and the proofs of its
    undo/redo, cascade-delete, move and load-time properties.

    Conventions of the embedding.
    - A JavaScript object used as a dictionary ([Record<string, T>]) is a
      [gmap string T]: own enumerable string keys only, a missing key reads
      as [None] (JavaScript [undefined]).  The keys of the entity maps are
      the ids [generateId] returns and the ids of the data loaded; ids that
      name members of [Object.prototype] are outside the model of the
      operations.  At load time, where the value read comes from the
      storage, a value is a [JsValue] and reading a key follows the
      prototype ([get]).
    - A JavaScript string is a [string]: a sequence of code units below 256.
      [trim], [toLowerCase] and [length] follow ECMAScript on that range.
    - An optional field of an entity is an [option]: a field that is absent
      and a field that holds [undefined] are the same [None], as they are to
      the type, to JSON and to the code, which reads such a field by value.
    - An id array is a [list jsid]: the arrays are declared [string[]], but
      [splice] on an index out of range leaves [undefined] in them and a JSON
      copy turns that into [null], so both values are part of the model.
    - Array positions are integers ([Z]); [splice] truncates its arguments to
      integers itself.
    - [generateId()] is not a function of the store: the id it returns is an
      argument of the operation that calls it.
    - A property read on [undefined] raises a [TypeError]: operations return a
      [completion], which is [Normal] when they return. *)

From Stdlib Require Import ZArith Lia Ascii String DecimalString.
From stdpp Require Import base option list strings gmap fin_maps.

Open Scope Z_scope.

(** ** JavaScript strings *)

Module JsString.

(** White space and line terminators of ECMAScript with a code below 256:
    TAB, LF, VT, FF, CR, SP and NBSP. *)
Definition is_white_space (c : ascii) : bool :=
  let n := Ascii.nat_of_ascii c in
  bool_decide (n ∈ [9; 10; 11; 12; 13; 32; 160]%nat).

Fixpoint trimStart (s : string) : string :=
  match s with
  | EmptyString => EmptyString
  | String c r => if is_white_space c then trimStart r else s
  end.

Fixpoint trimEnd (s : string) : string :=
  match s with
  | EmptyString => EmptyString
  | String c r =>
      match trimEnd r with
      | EmptyString => if is_white_space c then EmptyString else String c EmptyString
      | r' => String c r'
      end
  end.

(** [String.prototype.trim] *)
Definition trim (s : string) : string := trimEnd (trimStart s).

(** Upper-case letters with a code below 256: A-Z, and the Latin-1 letters
    from 192 to 222 without the multiplication sign (215). Their lower-case
    forms are 32 further. *)
Definition lower_char (c : ascii) : ascii :=
  let n := Ascii.nat_of_ascii c in
  if bool_decide ((65 ≤ n ∧ n ≤ 90) ∨ (192 ≤ n ∧ n ≤ 222 ∧ n ≠ 215))%nat
  then Ascii.ascii_of_nat (n + 32) else c.

(** [String.prototype.toLowerCase] *)
Fixpoint toLowerCase (s : string) : string :=
  match s with
  | EmptyString => EmptyString
  | String c r => String (lower_char c) (toLowerCase r)
  end.

(** The [length] property. *)
Definition length (s : string) : Z := Z.of_nat (String.length s).

(** Truthiness of a string: only the empty string is falsy. *)
Definition truthy (s : string) : bool := negb (String.eqb s EmptyString).

End JsString.

(** ** Validation ([utils/validation.ts]) *)

Record ValidationResult := mkValidation {
  valid : bool;
  error : option string
}.

Definition ok : ValidationResult := mkValidation true None.
Definition invalid (msg : string) : ValidationResult := mkValidation false (Some msg).

(** [existingNames.some(existing => existing.toLowerCase() === normalizedName)] *)
Definition some_lower_equal (existing : list string) (normalized : string) : bool :=
  existsb (fun e => String.eqb (JsString.toLowerCase e) normalized) existing.

Definition validateName (name : string) (existingNames : list string)
    (fieldLabel : string) : ValidationResult :=
  let trimmed := JsString.trim name in
  if negb (JsString.truthy trimmed) then invalid (fieldLabel +:+ " is required")
  else if JsString.length trimmed <? 2
  then invalid (fieldLabel +:+ " must be at least 2 characters")
  else if JsString.length trimmed >? 100
  then invalid (fieldLabel +:+ " must be less than 100 characters")
  else
    let normalizedName := JsString.toLowerCase trimmed in
    let isDuplicate := some_lower_equal existingNames normalizedName in
    if isDuplicate then invalid (fieldLabel +:+ " already exists")
    else ok.

Definition validateQuestionTitle (title : string) (existingTitles : list string)
    : ValidationResult :=
  let trimmed := JsString.trim title in
  if negb (JsString.truthy trimmed) then invalid "Question title is required"
  else if JsString.length trimmed <? 3
  then invalid "Question title must be at least 3 characters"
  else if JsString.length trimmed >? 200
  then invalid "Question title must be less than 200 characters"
  else
    let normalizedTitle := JsString.toLowerCase trimmed in
    let isDuplicate := some_lower_equal existingTitles normalizedTitle in
    if isDuplicate then invalid "Question with this title already exists"
    else ok.

(** The [URL] constructor belongs to the platform.  [validateUrl] only looks
    at whether it throws and, when it does not, at the [protocol] of the
    result, so a constructor is given by a function from the input to
    [Some protocol], or [None] when it throws. *)
Definition UrlConstructor := string -> option string.

Definition validateUrl (newURL : UrlConstructor) (url : string) : ValidationResult :=
  let trimmed := JsString.trim url in
  if negb (JsString.truthy trimmed) then ok
  else
    match newURL trimmed with
    | Some protocol =>
        if negb (String.eqb protocol "http:") && negb (String.eqb protocol "https:")
        then invalid "URL must use http or https protocol"
        else ok
    | None => invalid "Invalid URL format"
    end.

Definition validateDifficulty (difficulty : string) : ValidationResult :=
  if negb (JsString.truthy difficulty) then ok
  else
    let validDifficulties := ["Easy"; "Medium"; "Hard"] in
    if negb (bool_decide (difficulty ∈ validDifficulties))
    then invalid "Invalid difficulty level"
    else ok.

(** ** JavaScript arrays *)

Module JsArray.

Section Generic.
Context {A : Type}.

(** The position [splice] and [slice] start from: a negative argument
    counts from the end, and the result is clamped to [0..len]. *)
Definition relative_index (len : nat) (i : Z) : nat :=
  if i <? 0 then Z.to_nat (Z.max (Z.of_nat len + i) 0)
  else Z.to_nat (Z.min i (Z.of_nat len)).

(** [const [removed] = arr.splice(start, 1)]: the element removed, if
    there is one at that position, and the array left. *)
Definition splice_out (l : list A) (start : Z) : option A * list A :=
  let k := relative_index (length l) start in
  (l !! k, delete k l).

(** [arr.splice(start, 0, x)] *)
Definition splice_in (l : list A) (start : Z) (x : A) : list A :=
  let k := relative_index (length l) start in
  take k l ++ x :: drop k l.

(** [arr.slice(start, end)] *)
Definition slice (l : list A) (start stop : Z) : list A :=
  let k := relative_index (length l) start in
  let e := relative_index (length l) stop in
  take (e - k) (drop k l).

(** [arr.slice(start)] *)
Definition slice_from (l : list A) (start : Z) : list A :=
  drop (relative_index (length l) start) l.

(** [arr[i]] for an integer [i]: [None] is [undefined]. *)
Definition at_index (l : list A) (i : Z) : option A :=
  if i <? 0 then None else l !! Z.to_nat i.
End Generic.

End JsArray.

(** ** Entities *)

(** What an id array can hold at run time. *)
Inductive jsid :=
  | IdStr (s : string)
  | IdUndefined
  | IdNull.

Global Instance jsid_eq_dec : EqDecision jsid.
Proof. solve_decision. Defined.

(** The property key an array element is converted to in [obj[id]]. *)
Definition key_of (v : jsid) : string :=
  match v with
  | IdStr s => s
  | IdUndefined => "undefined"
  | IdNull => "null"
  end.

(** [JSON.parse(JSON.stringify(ids))]: [undefined] in an array is written
    as [null]. *)
Definition json_id (v : jsid) : jsid :=
  match v with
  | IdUndefined => IdNull
  | _ => v
  end.

Record TopicEntity := mkTopic {
  topic_id : string;
  topic_name : string;
  subTopicIds : list jsid
}.

Record SubTopicEntity := mkSubTopic {
  subTopic_id : string;
  subTopic_name : string;
  topicId : string;
  questionIds : list jsid
}.

(** [difficulty] and [link] are optional; [None] is both an absent field
    and a field holding [undefined].  The cast
    [question.difficulty as Question['difficulty']] checks nothing, so the
    field holds whatever string passed the validation. *)
Record QuestionEntity := mkQuestion {
  question_id : string;
  title : string;
  difficulty : option string;
  link : option string
}.

(** Object spread with one field replaced: [{ ...entity, field: value }]. *)
Definition topic_with_name (n : string) (t : TopicEntity) : TopicEntity :=
  mkTopic (topic_id t) n (subTopicIds t).

Definition topic_with_subTopicIds (ids : list jsid) (t : TopicEntity) : TopicEntity :=
  mkTopic (topic_id t) (topic_name t) ids.

Definition subTopic_with_name (n : string) (st : SubTopicEntity) : SubTopicEntity :=
  mkSubTopic (subTopic_id st) n (topicId st) (questionIds st).

Definition subTopic_with_topicId (t : string) (st : SubTopicEntity) : SubTopicEntity :=
  mkSubTopic (subTopic_id st) (subTopic_name st) t (questionIds st).

Definition subTopic_with_questionIds (ids : list jsid) (st : SubTopicEntity)
    : SubTopicEntity :=
  mkSubTopic (subTopic_id st) (subTopic_name st) (topicId st) ids.

(** [JSON.parse(JSON.stringify(entity))] *)
Definition json_topic (t : TopicEntity) : TopicEntity :=
  mkTopic (topic_id t) (topic_name t) (json_id <$> subTopicIds t).

Definition json_subTopic (st : SubTopicEntity) : SubTopicEntity :=
  mkSubTopic (subTopic_id st) (subTopic_name st) (topicId st)
    (json_id <$> questionIds st).

Definition json_question (q : QuestionEntity) : QuestionEntity := q.

(** ** State *)

Record PersistedState := mkPersisted {
  topicsById : gmap string TopicEntity;
  subTopicsById : gmap string SubTopicEntity;
  questionsById : gmap string QuestionEntity;
  topicOrder : list jsid;
  expandedTopics : gmap string bool;
  expandedSubTopics : gmap string bool
}.

Definition HistorySnapshot := PersistedState.

(** [NormalizedState]: the persisted fields are kept together in [data]. *)
Record Store := mkStore {
  data : PersistedState;
  loading : bool;
  store_error : option string;
  _hasHydrated : bool;
  _history : list HistorySnapshot;
  _historyIndex : Z;
  _isUndoRedo : bool
}.

Definition MAX_HISTORY_SIZE : Z := 20.

(** [set] with a partial state over the persisted fields. *)
Definition set_data (d : PersistedState) (s : Store) : Store :=
  mkStore d (loading s) (store_error s) (_hasHydrated s)
    (_history s) (_historyIndex s) (_isUndoRedo s).

Definition set_history (h : list HistorySnapshot) (i : Z) (s : Store) : Store :=
  mkStore (data s) (loading s) (store_error s) (_hasHydrated s) h i (_isUndoRedo s).

Definition set_isUndoRedo (b : bool) (s : Store) : Store :=
  mkStore (data s) (loading s) (store_error s) (_hasHydrated s)
    (_history s) (_historyIndex s) b.

Definition with_topicsById (m : gmap string TopicEntity) (d : PersistedState) :=
  mkPersisted m (subTopicsById d) (questionsById d) (topicOrder d)
    (expandedTopics d) (expandedSubTopics d).

Definition with_subTopicsById (m : gmap string SubTopicEntity) (d : PersistedState) :=
  mkPersisted (topicsById d) m (questionsById d) (topicOrder d)
    (expandedTopics d) (expandedSubTopics d).

Definition with_questionsById (m : gmap string QuestionEntity) (d : PersistedState) :=
  mkPersisted (topicsById d) (subTopicsById d) m (topicOrder d)
    (expandedTopics d) (expandedSubTopics d).

Definition with_topicOrder (o : list jsid) (d : PersistedState) :=
  mkPersisted (topicsById d) (subTopicsById d) (questionsById d) o
    (expandedTopics d) (expandedSubTopics d).

Definition with_expandedTopics (m : gmap string bool) (d : PersistedState) :=
  mkPersisted (topicsById d) (subTopicsById d) (questionsById d) (topicOrder d)
    m (expandedSubTopics d).

Definition with_expandedSubTopics (m : gmap string bool) (d : PersistedState) :=
  mkPersisted (topicsById d) (subTopicsById d) (questionsById d) (topicOrder d)
    (expandedTopics d) m.

(** The initial state of [storeCreator]. *)
Definition empty_data : PersistedState := mkPersisted ∅ ∅ ∅ [] ∅ ∅.

Definition initial_store : Store :=
  mkStore empty_data false None false [] (-1) false.

(** [createSnapshot]: the three entity maps go through JSON, the order array
    and the two flag maps are copied. *)
Definition createSnapshot (s : Store) : HistorySnapshot :=
  mkPersisted
    (json_topic <$> topicsById (data s))
    (json_subTopic <$> subTopicsById (data s))
    (json_question <$> questionsById (data s))
    (topicOrder (data s))
    (expandedTopics (data s))
    (expandedSubTopics (data s)).

(** [applySnapshot] builds the same six fields from a snapshot. *)
Definition applySnapshot (snapshot : HistorySnapshot) : PersistedState :=
  mkPersisted
    (json_topic <$> topicsById snapshot)
    (json_subTopic <$> subTopicsById snapshot)
    (json_question <$> questionsById snapshot)
    (topicOrder snapshot)
    (expandedTopics snapshot)
    (expandedSubTopics snapshot).

(** ** History manager *)

Definition _recordHistory (state : Store) : Store :=
  if _isUndoRedo state then state
  else
    let snapshot := createSnapshot state in
    let newHistory :=
      if _historyIndex state >=? 0
      then JsArray.slice (_history state) 0 (_historyIndex state + 1)
      else _history state in
    let newHistory := newHistory ++ [snapshot] in
    let newHistory :=
      if Z.of_nat (length newHistory) >? MAX_HISTORY_SIZE
      then JsArray.slice_from newHistory (Z.of_nat (length newHistory) - MAX_HISTORY_SIZE)
      else newHistory in
    set_history newHistory (-1) state.

Definition canUndo (state : Store) : bool :=
  if _historyIndex state =? -1 then Z.of_nat (length (_history state)) >? 0
  else _historyIndex state >? 0.

Definition canRedo (state : Store) : bool :=
  (_historyIndex state >=? 0)
  && (_historyIndex state <? Z.of_nat (length (_history state)) - 1).

Definition undo (state : Store) : Store :=
  if negb (canUndo state) then state
  else
    let newState :=
      if _historyIndex state =? -1 then
        let currentSnapshot := createSnapshot state in
        set_isUndoRedo true
          (set_history (_history state ++ [currentSnapshot])
             (Z.of_nat (length (_history state)) - 1) state)
      else
        set_isUndoRedo true
          (set_history (_history state) (_historyIndex state - 1) state) in
    match JsArray.at_index (_history newState) (_historyIndex newState) with
    | Some snapshot => set_isUndoRedo false (set_data (applySnapshot snapshot) newState)
    | None => set_isUndoRedo false newState
    end.

Definition redo (state : Store) : Store :=
  if negb (canRedo state) then state
  else
    let newState :=
      set_isUndoRedo true
        (set_history (_history state) (_historyIndex state + 1) state) in
    match JsArray.at_index (_history newState) (_historyIndex newState) with
    | Some snapshot =>
        let atPresent :=
          _historyIndex newState =? Z.of_nat (length (_history newState)) - 1 in
        set_history
          (if atPresent then JsArray.slice (_history newState) 0 (-1)
           else _history newState)
          (if atPresent then -1 else _historyIndex newState)
          (set_isUndoRedo false (set_data (applySnapshot snapshot) newState))
    | None => set_isUndoRedo false newState
    end.

(** ** Outcomes of an operation *)

(** An operation returns, raises a [TypeError] (a property read on
    [undefined], a call of what is no function) or leaves the typed model:
    where it spreads [undefined] into an entity, it builds a record without
    the declared fields, which no entity type can hold. *)
Inductive completion (A : Type) :=
  | Normal (a : A)
  | TypeError
  | IllTyped.
Arguments Normal {A} a.
Arguments TypeError {A}.
Arguments IllTyped {A}.

(** [{ success: boolean; error?: string }] *)
Record OpResult := mkResult {
  success : bool;
  result_error : option string
}.

Definition succeeded : OpResult := mkResult true None.
Definition failed (e : option string) : OpResult := mkResult false e.

(** What a call gives back: a store and the returned value, [None] for an
    operation declared [void]. *)
Definition Outcome := completion (Store * option OpResult).

Definition returns (s : Store) (r : OpResult) : Outcome := Normal (s, Some r).
Definition returns_void (s : Store) : Outcome := Normal (s, None).

(** ** Selectors *)

(** An optional string argument compared with an array element by [!==]. *)
Definition arg_id (x : option string) : jsid :=
  match x with
  | Some s => IdStr s
  | None => IdUndefined
  end.

(** [Object.values(topicsById).filter(t => t.id !== excludeId).map(t => t.name)].
    The values come in the order of the map, which is not the insertion order
    of the object; the callers only ask whether some name matches. *)
Definition getTopicNames (s : Store) (excludeId : option string) : list string :=
  topic_name <$>
    filter (fun t => Some (topic_id t) ≠ excludeId)
      ((map_to_list (topicsById (data s))).*2).

(** [.filter(name => !!name)] over names read with [?.] *)
Definition truthy_names (l : list (option string)) : list string :=
  omap (fun o => match o with
                 | Some n => if JsString.truthy n then Some n else None
                 | None => None
                 end) l.

Definition getSubTopicNames (s : Store) (topicId : string)
    (excludeId : option string) : list string :=
  match topicsById (data s) !! topicId with
  | None => []
  | Some topic =>
      truthy_names
        ((fun id => subTopic_name <$> subTopicsById (data s) !! key_of id) <$>
           filter (fun id => id ≠ arg_id excludeId) (subTopicIds topic))
  end.

Definition getQuestionTitles (s : Store) (subTopicId : string)
    (excludeId : option string) : list string :=
  match subTopicsById (data s) !! subTopicId with
  | None => []
  | Some subTopic =>
      truthy_names
        ((fun id => title <$> questionsById (data s) !! key_of id) <$>
           filter (fun id => id ≠ arg_id excludeId) (questionIds subTopic))
  end.

(** [for (const k of ids) delete obj[k]] *)
Definition delete_all {V} (ids : list jsid) (m : gmap string V) : gmap string V :=
  foldl (fun acc id => delete (key_of id) acc) m ids.

(** The two [splice] calls of the reorder operations: the element taken out
    is [undefined] when nothing was at the source position. *)
Definition reorder (ids : list jsid) (sourceIndex destinationIndex : Z) : list jsid :=
  let '(removed, rest) := JsArray.splice_out ids sourceIndex in
  JsArray.splice_in rest destinationIndex (default IdUndefined removed).

(** [value?.trim() || undefined] *)
Definition trim_or_undefined (v : option string) : option string :=
  match v with
  | Some l => let t := JsString.trim l in if JsString.truthy t then Some t else None
  | None => None
  end.

Record QuestionInput := mkQuestionInput {
  input_title : string;
  input_difficulty : option string;
  input_link : option string
}.

Record QuestionUpdates := mkQuestionUpdates {
  updates_title : option string;
  updates_difficulty : option string;
  updates_link : option string
}.

(** ** Mutation API *)

Section Operations.

Variable newURL : UrlConstructor.

Definition addTopic (name : string) (generatedId : string) (s : Store) : Outcome :=
  let existingNames := getTopicNames s None in
  let validation := validateName name existingNames "Topic name" in
  if negb (valid validation) then returns s (failed (error validation))
  else
    let s1 := _recordHistory s in
    let id := generatedId in
    let newTopic := mkTopic id (JsString.trim name) [] in
    let state := data s1 in
    returns
      (set_data
         (with_expandedTopics (<[id := true]> (expandedTopics state))
            (with_topicOrder (topicOrder state ++ [IdStr id])
               (with_topicsById (<[id := newTopic]> (topicsById state)) state)))
         s1)
      succeeded.

Definition updateTopic (id name : string) (s : Store) : Outcome :=
  match topicsById (data s) !! id with
  | None => returns s (failed (Some "Topic not found"))
  | Some _ =>
      let existingNames := getTopicNames s (Some id) in
      let validation := validateName name existingNames "Topic name" in
      if negb (valid validation) then returns s (failed (error validation))
      else
        let s1 := _recordHistory s in
        let state := data s1 in
        match topicsById state !! id with
        | None => IllTyped
        | Some t =>
            returns
              (set_data
                 (with_topicsById
                    (<[id := topic_with_name (JsString.trim name) t]>
                       (topicsById state)) state)
                 s1)
              succeeded
        end
  end.

(** [questionIdsToDelete]: the question ids of the sub-topics found. *)
Definition questions_of (subTopics : gmap string SubTopicEntity)
    (ids : list jsid) : list jsid :=
  mbind (fun stId => match subTopics !! key_of stId with
                     | Some st => questionIds st
                     | None => []
                     end) ids.

Definition deleteTopic (id : string) (s : Store) : Outcome :=
  let captured := data s in
  match topicsById captured !! id with
  | None => returns_void s
  | Some topic =>
      let s1 := _recordHistory s in
      let subTopicIdsToDelete := subTopicIds topic in
      let questionIdsToDelete :=
        questions_of (subTopicsById captured) subTopicIdsToDelete in
      let newTopicsById := delete id (topicsById captured) in
      let newSubTopicsById := delete_all subTopicIdsToDelete (subTopicsById captured) in
      let newQuestionsById := delete_all questionIdsToDelete (questionsById captured) in
      let state := data s1 in
      let newExpandedTopics := delete id (expandedTopics state) in
      let newExpandedSubTopics := delete_all subTopicIdsToDelete (expandedSubTopics state) in
      returns_void
        (set_data
           (mkPersisted newTopicsById newSubTopicsById newQuestionsById
              (filter (fun tId => tId ≠ IdStr id) (topicOrder state))
              newExpandedTopics newExpandedSubTopics)
           s1)
  end.

Definition reorderTopics (sourceIndex destinationIndex : Z) (s : Store) : Outcome :=
  let s1 := _recordHistory s in
  let state := data s1 in
  returns_void
    (set_data
       (with_topicOrder (reorder (topicOrder state) sourceIndex destinationIndex) state)
       s1).

Definition addSubTopic (topicId name : string) (generatedId : string)
    (s : Store) : Outcome :=
  match topicsById (data s) !! topicId with
  | None => returns s (failed (Some "Topic not found"))
  | Some _ =>
      let existingNames := getSubTopicNames s topicId None in
      let validation := validateName name existingNames "Sub-topic name" in
      if negb (valid validation) then returns s (failed (error validation))
      else
        let s1 := _recordHistory s in
        let id := generatedId in
        let newSubTopic := mkSubTopic id (JsString.trim name) topicId [] in
        let state := data s1 in
        match topicsById state !! topicId with
        | None => TypeError
        | Some t =>
            returns
              (set_data
                 (with_expandedSubTopics (<[id := true]> (expandedSubTopics state))
                    (with_topicsById
                       (<[topicId := topic_with_subTopicIds
                                       (subTopicIds t ++ [IdStr id]) t]>
                          (topicsById state))
                       (with_subTopicsById
                          (<[id := newSubTopic]> (subTopicsById state)) state)))
                 s1)
              succeeded
        end
  end.

Definition updateSubTopic (topicId subTopicId name : string) (s : Store) : Outcome :=
  match subTopicsById (data s) !! subTopicId with
  | None => returns s (failed (Some "Sub-topic not found"))
  | Some _ =>
      let existingNames := getSubTopicNames s topicId (Some subTopicId) in
      let validation := validateName name existingNames "Sub-topic name" in
      if negb (valid validation) then returns s (failed (error validation))
      else
        let s1 := _recordHistory s in
        let state := data s1 in
        match subTopicsById state !! subTopicId with
        | None => IllTyped
        | Some st =>
            returns
              (set_data
                 (with_subTopicsById
                    (<[subTopicId := subTopic_with_name (JsString.trim name) st]>
                       (subTopicsById state)) state)
                 s1)
              succeeded
        end
  end.

Definition deleteSubTopic (topicId subTopicId : string) (s : Store) : Outcome :=
  let captured := data s in
  match topicsById captured !! topicId, subTopicsById captured !! subTopicId with
  | Some topic, Some subTopic =>
      let s1 := _recordHistory s in
      let newQuestionsById := delete_all (questionIds subTopic) (questionsById captured) in
      let newSubTopicsById := delete subTopicId (subTopicsById captured) in
      let state := data s1 in
      let newExpandedSubTopics := delete subTopicId (expandedSubTopics state) in
      match topicsById state !! topicId with
      | None => TypeError
      | Some t =>
          returns_void
            (set_data
               (mkPersisted
                  (<[topicId := topic_with_subTopicIds
                                  (filter (fun id => id ≠ IdStr subTopicId)
                                     (subTopicIds t)) t]>
                     (topicsById state))
                  newSubTopicsById newQuestionsById
                  (topicOrder state) (expandedTopics state) newExpandedSubTopics)
               s1)
      end
  | _, _ => returns_void s
  end.

Definition reorderSubTopics (topicId : string) (sourceIndex destinationIndex : Z)
    (s : Store) : Outcome :=
  let s1 := _recordHistory s in
  let state := data s1 in
  match topicsById state !! topicId with
  | None => returns_void s1
  | Some topic =>
      let newSubTopicIds := reorder (subTopicIds topic) sourceIndex destinationIndex in
      returns_void
        (set_data
           (with_topicsById
              (<[topicId := topic_with_subTopicIds newSubTopicIds topic]>
                 (topicsById state)) state)
           s1)
  end.

(** [if (link) { validateUrl(link) ... }]: a falsy link is not validated. *)
Definition check_link (l : option string) : ValidationResult :=
  match l with
  | Some x => if JsString.truthy x then validateUrl newURL x else ok
  | None => ok
  end.

Definition check_difficulty (d : option string) : ValidationResult :=
  match d with
  | Some x => if JsString.truthy x then validateDifficulty x else ok
  | None => ok
  end.

Definition addQuestion (_topicId subTopicId : string) (question : QuestionInput)
    (generatedId : string) (s : Store) : Outcome :=
  match subTopicsById (data s) !! subTopicId with
  | None => returns s (failed (Some "Sub-topic not found"))
  | Some _ =>
      let existingTitles := getQuestionTitles s subTopicId None in
      let titleValidation := validateQuestionTitle (input_title question) existingTitles in
      if negb (valid titleValidation) then returns s (failed (error titleValidation))
      else
        let urlValidation := check_link (input_link question) in
        if negb (valid urlValidation) then returns s (failed (error urlValidation))
        else
          let diffValidation := check_difficulty (input_difficulty question) in
          if negb (valid diffValidation) then returns s (failed (error diffValidation))
          else
            let id := generatedId in
            let newQuestion :=
              mkQuestion id (JsString.trim (input_title question))
                (input_difficulty question)
                (trim_or_undefined (input_link question)) in
            let s1 := _recordHistory s in
            let state := data s1 in
            match subTopicsById state !! subTopicId with
            | None => TypeError
            | Some st =>
                returns
                  (set_data
                     (with_subTopicsById
                        (<[subTopicId := subTopic_with_questionIds
                                           (questionIds st ++ [IdStr id]) st]>
                           (subTopicsById state))
                        (with_questionsById
                           (<[id := newQuestion]> (questionsById state)) state))
                     s1)
                  succeeded
            end
  end.

Definition updateQuestion (_topicId subTopicId questionId : string)
    (updates : QuestionUpdates) (s : Store) : Outcome :=
  match questionsById (data s) !! questionId with
  | None => returns s (failed (Some "Question not found"))
  | Some _ =>
      let titleValidation :=
        match updates_title updates with
        | Some t => validateQuestionTitle t (getQuestionTitles s subTopicId (Some questionId))
        | None => ok
        end in
      if negb (valid titleValidation) then returns s (failed (error titleValidation))
      else
        let urlValidation := check_link (updates_link updates) in
        if negb (valid urlValidation) then returns s (failed (error urlValidation))
        else
          let diffValidation := check_difficulty (updates_difficulty updates) in
          if negb (valid diffValidation) then returns s (failed (error diffValidation))
          else
            let s1 := _recordHistory s in
            let state := data s1 in
            match questionsById state !! questionId with
            | None =>
                match updates_title updates, updates_difficulty updates with
                | Some _, Some _ => IllTyped
                | _, _ => TypeError
                end
            | Some q =>
                returns
                  (set_data
                     (with_questionsById
                        (<[questionId :=
                             mkQuestion (question_id q)
                               (default (title q) (JsString.trim <$> updates_title updates))
                               (match updates_difficulty updates with
                                | Some d => Some d
                                | None => difficulty q
                                end)
                               (trim_or_undefined (updates_link updates))]>
                           (questionsById state)) state)
                     s1)
                  succeeded
            end
  end.

Definition deleteQuestion (_topicId subTopicId questionId : string)
    (s : Store) : Outcome :=
  let captured := data s in
  match questionsById captured !! questionId, subTopicsById captured !! subTopicId with
  | Some _, Some _ =>
      let s1 := _recordHistory s in
      let newQuestionsById := delete questionId (questionsById captured) in
      let state := data s1 in
      match subTopicsById state !! subTopicId with
      | None => TypeError
      | Some st =>
          returns_void
            (set_data
               (with_subTopicsById
                  (<[subTopicId := subTopic_with_questionIds
                                     (filter (fun id => id ≠ IdStr questionId)
                                        (questionIds st)) st]>
                     (subTopicsById state))
                  (with_questionsById newQuestionsById state))
               s1)
      end
  | _, _ => returns_void s
  end.

Definition reorderQuestions (_topicId subTopicId : string)
    (sourceIndex destinationIndex : Z) (s : Store) : Outcome :=
  let s1 := _recordHistory s in
  let state := data s1 in
  match subTopicsById state !! subTopicId with
  | None => returns_void s1
  | Some subTopic =>
      let newQuestionIds := reorder (questionIds subTopic) sourceIndex destinationIndex in
      returns_void
        (set_data
           (with_subTopicsById
              (<[subTopicId := subTopic_with_questionIds newQuestionIds subTopic]>
                 (subTopicsById state)) state)
           s1)
  end.

Definition moveSubTopicToTopic (subTopicId fromTopicId toTopicId : string)
    (destinationIndex : Z) (s : Store) : Outcome :=
  let captured := data s in
  match topicsById captured !! fromTopicId, topicsById captured !! toTopicId,
        subTopicsById captured !! subTopicId with
  | Some fromTopic, Some toTopic, Some subTopic =>
      if negb (String.eqb (topicId subTopic) fromTopicId) then returns_void s
      else
        let s1 := _recordHistory s in
        let state := data s1 in
        match topicsById state !! fromTopicId, topicsById state !! toTopicId with
        | Some stateFrom, Some stateTo =>
            let newFromSubTopicIds :=
              filter (fun id => id ≠ IdStr subTopicId) (subTopicIds stateFrom) in
            let newToSubTopicIds :=
              JsArray.splice_in (subTopicIds stateTo) destinationIndex (IdStr subTopicId) in
            match subTopicsById state !! subTopicId with
            | None => IllTyped
            | Some stateSub =>
                returns_void
                  (set_data
                     (with_subTopicsById
                        (<[subTopicId := subTopic_with_topicId toTopicId stateSub]>
                           (subTopicsById state))
                        (with_topicsById
                           (<[toTopicId := topic_with_subTopicIds newToSubTopicIds stateTo]>
                              (<[fromTopicId :=
                                   topic_with_subTopicIds newFromSubTopicIds stateFrom]>
                                 (topicsById state)))
                           state))
                     s1)
            end
        | _, _ => TypeError
        end
  | _, _, _ => returns_void s
  end.

Definition moveQuestionToSubTopic (questionId fromSubTopicId toSubTopicId : string)
    (destinationIndex : Z) (s : Store) : Outcome :=
  let captured := data s in
  match subTopicsById captured !! fromSubTopicId, subTopicsById captured !! toSubTopicId,
        questionsById captured !! questionId with
  | Some fromSubTopic, Some toSubTopic, Some question =>
      if negb (bool_decide (IdStr questionId ∈ questionIds fromSubTopic))
      then returns_void s
      else
        let s1 := _recordHistory s in
        let state := data s1 in
        match subTopicsById state !! fromSubTopicId, subTopicsById state !! toSubTopicId with
        | Some stateFrom, Some stateTo =>
            let newFromQuestionIds :=
              filter (fun id => id ≠ IdStr questionId) (questionIds stateFrom) in
            let newToQuestionIds :=
              JsArray.splice_in (questionIds stateTo) destinationIndex (IdStr questionId) in
            returns_void
              (set_data
                 (with_subTopicsById
                    (<[toSubTopicId := subTopic_with_questionIds newToQuestionIds stateTo]>
                       (<[fromSubTopicId :=
                            subTopic_with_questionIds newFromQuestionIds stateFrom]>
                          (subTopicsById state)))
                    state)
                 s1)
        | _, _ => TypeError
        end
  | _, _, _ => returns_void s
  end.

(** *** The write contract as one type *)

Inductive Mutation :=
  | AddTopic (name generatedId : string)
  | UpdateTopic (id name : string)
  | DeleteTopic (id : string)
  | ReorderTopics (sourceIndex destinationIndex : Z)
  | AddSubTopic (topicId name generatedId : string)
  | UpdateSubTopic (topicId subTopicId name : string)
  | DeleteSubTopic (topicId subTopicId : string)
  | ReorderSubTopics (topicId : string) (sourceIndex destinationIndex : Z)
  | MoveSubTopicToTopic (subTopicId fromTopicId toTopicId : string) (destinationIndex : Z)
  | AddQuestion (topicId subTopicId : string) (question : QuestionInput)
      (generatedId : string)
  | UpdateQuestion (topicId subTopicId questionId : string) (updates : QuestionUpdates)
  | DeleteQuestion (topicId subTopicId questionId : string)
  | ReorderQuestions (topicId subTopicId : string) (sourceIndex destinationIndex : Z)
  | MoveQuestionToSubTopic (questionId fromSubTopicId toSubTopicId : string)
      (destinationIndex : Z).

Definition apply (m : Mutation) (s : Store) : Outcome :=
  match m with
  | AddTopic name g => addTopic name g s
  | UpdateTopic id name => updateTopic id name s
  | DeleteTopic id => deleteTopic id s
  | ReorderTopics i j => reorderTopics i j s
  | AddSubTopic t name g => addSubTopic t name g s
  | UpdateSubTopic t st name => updateSubTopic t st name s
  | DeleteSubTopic t st => deleteSubTopic t st s
  | ReorderSubTopics t i j => reorderSubTopics t i j s
  | MoveSubTopicToTopic st from to i => moveSubTopicToTopic st from to i s
  | AddQuestion t st q g => addQuestion t st q g s
  | UpdateQuestion t st q u => updateQuestion t st q u s
  | DeleteQuestion t st q => deleteQuestion t st q s
  | ReorderQuestions t st i j => reorderQuestions t st i j s
  | MoveQuestionToSubTopic q from to i => moveQuestionToSubTopic q from to i s
  end.

End Operations.


(** ** Notions used by the properties *)

(** The eviction step of [_recordHistory]. *)
Definition evict (l : list HistorySnapshot) : list HistorySnapshot :=
  if Z.of_nat (length l) >? MAX_HISTORY_SIZE
  then JsArray.slice_from l (Z.of_nat (length l) - MAX_HISTORY_SIZE)
  else l.

(** The part of the list [_recordHistory] keeps before it appends. *)
Definition kept_history (s : Store) : list HistorySnapshot :=
  if _historyIndex s >=? 0
  then JsArray.slice (_history s) 0 (_historyIndex s + 1)
  else _history s.

Definition is_string_id (v : jsid) : Prop :=
  match v with
  | IdStr _ => True
  | _ => False
  end.

Global Instance is_string_id_dec v : Decision (is_string_id v).
Proof. destruct v; simpl; apply _. Defined.

(** The id arrays inside the entities hold what their type [string[]] says. *)
Definition ids_are_strings (d : PersistedState) : Prop :=
  map_Forall (fun _ t => Forall is_string_id (subTopicIds t)) (topicsById d)
  /\ map_Forall (fun _ st => Forall is_string_id (questionIds st)) (subTopicsById d).

Global Instance ids_are_strings_dec d : Decision (ids_are_strings d).
Proof. unfold ids_are_strings. apply _. Defined.

(** A snapshot taken and applied again: the state seen through JSON. *)
Definition json_data (d : PersistedState) : PersistedState :=
  mkPersisted (json_topic <$> topicsById d) (json_subTopic <$> subTopicsById d)
    (questionsById d) (topicOrder d) (expandedTopics d) (expandedSubTopics d).

(** A call took effect when it reported success or changed the persisted
    fields: the calls this holds for are the committed mutations. *)
Definition took_effect (s s' : Store) (r : option OpResult) : Prop :=
  r = Some succeeded \/ data s' <> data s.

(** The cursor and the list between two calls, when [_isUndoRedo] is down
    ([undo] and [redo] raise it and lower it again before they return, and
    nothing else writes it): at the present with at most
    [MAX_HISTORY_SIZE] snapshots, or on a snapshot that is not the last one of
    a list with one more snapshot at most, the one [undo] pushes. *)
Definition history_shape (s : Store) : Prop :=
  (_historyIndex s = -1 /\ Z.of_nat (length (_history s)) <= MAX_HISTORY_SIZE)
  \/ (0 <= _historyIndex s
      /\ _historyIndex s + 1 < Z.of_nat (length (_history s))
      /\ Z.of_nat (length (_history s)) <= MAX_HISTORY_SIZE + 1).

(** For the two reorder operations that work on an id array inside an
    entity: the source position is one of the array. *)
Definition source_in_range (m : Mutation) (s : Store) : Prop :=
  match m with
  | ReorderSubTopics t i _ =>
      forall topic, topicsById (data s) !! t = Some topic ->
        (JsArray.relative_index (length (subTopicIds topic)) i
         < length (subTopicIds topic))%nat
  | ReorderQuestions _ st i _ =>
      forall sub, subTopicsById (data s) !! st = Some sub ->
        (JsArray.relative_index (length (questionIds sub)) i
         < length (questionIds sub))%nat
  | _ => True
  end.

(** The stores a session goes through: the initial store, a whole graph put
    in place by [fetchData] or by the persist middleware, the calls of the
    write contract, [undo] and [redo]. *)
Inductive reachable (newURL : UrlConstructor) : Store -> Prop :=
  | reachable_initial : reachable newURL initial_store
  | reachable_load s d : reachable newURL s -> reachable newURL (set_data d s)
  | reachable_apply s m s' r :
      reachable newURL s ->
      apply newURL m s = Normal (s', r) ->
      reachable newURL s'
  | reachable_undo s : reachable newURL s -> reachable newURL (undo s)
  | reachable_redo s : reachable newURL s -> reachable newURL (redo s).

(** [n] calls of [undo] in a row. *)
Definition undo_times (n : nat) (s : Store) : Store := Nat.iter n undo s.

(** How often an id occurs in an id array. *)
Definition occurrences (x : jsid) (l : list jsid) : nat :=
  length (filter (fun y => y = x) l).

(** The keys a cascade delete of a topic works on: the sub-topics the topic
    lists and the questions those sub-topics list. *)
Definition listed_subTopic_key (topic : TopicEntity) (k : string) : Prop :=
  exists stId, stId ∈ subTopicIds topic /\ key_of stId = k.

Definition listed_question_key (d : PersistedState) (topic : TopicEntity)
    (k : string) : Prop :=
  exists stId st qId,
    stId ∈ subTopicIds topic
    /\ subTopicsById d !! key_of stId = Some st
    /\ qId ∈ questionIds st
    /\ key_of qId = k.

(** The back-reference of a sub-topic agrees with the lists of the topics:
    the topic a sub-topic names in [topicId] lists the sub-topic. *)
Definition back_references_listed (d : PersistedState) : Prop :=
  forall k sub t,
    subTopicsById d !! k = Some sub ->
    topicsById d !! topicId sub = Some t ->
    IdStr k ∈ subTopicIds t.

(** ** Values at load time *)

(** A value as [JSON.parse] gives it, [undefined], or a function: an action
    of the store or a method of the platform, given by the name of the
    property that holds it.  Numbers are integers: the code below asks
    whether a number is falsy and whether it is the schema version.  An
    object is the list of its own fields, where the first field of a name is
    the one read, and its prototype is [Object.prototype]. *)
#[local] Unset Elimination Schemes.
Inductive JsValue :=
  | VUndefined
  | VNull
  | VBool (b : bool)
  | VNumber (n : Z)
  | VString (s : string)
  | VArray (items : list JsValue)
  | VObject (fields : list (string * JsValue))
  | VFunction (name : string).
#[local] Set Elimination Schemes.

Definition truthy_value (v : JsValue) : bool :=
  match v with
  | VUndefined | VNull => false
  | VBool b => b
  | VNumber n => negb (n =? 0)
  | VString s => JsString.truthy s
  | VArray _ | VObject _ | VFunction _ => true
  end.

(** [typeof v === 'object'] *)
Definition typeof_object (v : JsValue) : bool :=
  match v with
  | VNull | VArray _ | VObject _ => true
  | _ => false
  end.

(** [typeof v === 'number'] *)
Definition typeof_number (v : JsValue) : bool :=
  match v with
  | VNumber _ => true
  | _ => false
  end.

(** [v === n] for a number [n] *)
Definition is_number (n : Z) (v : JsValue) : bool :=
  match v with
  | VNumber m => m =? n
  | _ => false
  end.

(** [v === null] *)
Definition is_null (v : JsValue) : bool :=
  match v with
  | VNull => true
  | _ => false
  end.

(** [Array.isArray(v)] *)
Definition isArray (v : JsValue) : bool :=
  match v with
  | VArray _ => true
  | _ => false
  end.

(** The own field of a name, if there is one. *)
Fixpoint own (fields : list (string * JsValue)) (key : string) : option JsValue :=
  match fields with
  | [] => None
  | (k, v) :: rest => if String.eqb k key then Some v else own rest key
  end.

(** The property key of an array index: its decimal numeral. *)
Definition index_key (i : nat) : string := NilZero.string_of_uint (Nat.to_uint i).

(** The elements of an array under their keys. *)
Definition indexed (items : list JsValue) : list (string * JsValue) :=
  imap (fun i x => (index_key i, x)) items.

(** The characters of a string, as the strings of length one its indices
    hold. *)
Fixpoint characters (s : string) : list JsValue :=
  match s with
  | EmptyString => []
  | String c rest => VString (String c EmptyString) :: characters rest
  end.

(** The own enumerable properties of a value, as [{ ...v }] copies them: the
    fields of an object, the elements of an array and the characters of a
    string under their indices, and nothing of any other value. *)
Definition own_properties (v : JsValue) : list (string * JsValue) :=
  match v with
  | VObject fields => fields
  | VArray items => indexed items
  | VString s => indexed (characters s)
  | _ => []
  end.

(** The methods of [Object.prototype].  Its twelfth member, [__proto__],
    reads as the prototype of the object it is read on. *)
Definition Object_prototype_methods : list string :=
  [ "constructor"; "__defineGetter__"; "__defineSetter__"; "hasOwnProperty";
    "__lookupGetter__"; "__lookupSetter__"; "isPrototypeOf";
    "propertyIsEnumerable"; "toString"; "valueOf"; "toLocaleString" ].

(** [Object.prototype] as a value: its own [__proto__] reads [null]. *)
Definition Object_prototype : JsValue :=
  VObject (((fun name => (name, VFunction name)) <$> Object_prototype_methods)
             ++ [("__proto__", VNull)]).

(** What an object reads under a key it has no own field for. *)
Definition inherited_from_Object (key : string) : JsValue :=
  if String.eqb key "__proto__" then Object_prototype
  else if bool_decide (key ∈ Object_prototype_methods) then VFunction key
  else VUndefined.

Section Platform.

(** The names of the methods of [Array.prototype], which depend on the
    edition of the language the platform implements. *)
Variable Array_prototype_methods : list string.

(** What an array reads under a key that is neither [length] nor one of its
    indices: [Array.prototype], an array without elements, for [__proto__],
    a method of [Array.prototype], or what [Object.prototype] gives. *)
Definition inherited_from_Array (key : string) : JsValue :=
  if String.eqb key "__proto__" then VArray []
  else if bool_decide (key ∈ Array_prototype_methods) then VFunction key
  else inherited_from_Object key.

(** [v[key]] on an object or an array.  Of a string, a number, a boolean or
    a function the code reads [state], [version] and [setHasHydrated] only,
    which none of them has; it reads nothing of [undefined] and [null]. *)
Definition get (v : JsValue) (key : string) : JsValue :=
  match v with
  | VObject fields => default (inherited_from_Object key) (own fields key)
  | VArray items =>
      if String.eqb key "length" then VNumber (Z.of_nat (length items))
      else default (inherited_from_Array key) (own (indexed items) key)
  | _ => VUndefined
  end.

(** [typeof v !== 'object' || v === null] *)
Definition not_an_object (v : JsValue) : bool :=
  negb (typeof_object v) || is_null v.

Definition isValidPersistedState (state : JsValue) : bool :=
  if negb (truthy_value state) || negb (typeof_object state) then false
  else
    let s := state in
    if not_an_object (get s "topicsById") then false
    else if not_an_object (get s "subTopicsById") then false
    else if not_an_object (get s "questionsById") then false
    else if negb (isArray (get s "topicOrder")) then false
    else if not_an_object (get s "expandedTopics") then false
    else if not_an_object (get s "expandedSubTopics") then false
    else
      let topicsById := get s "topicsById" in
      match get s "topicOrder" with
      | VArray ids =>
          forallb (fun id => match id with
                             | VString k => truthy_value (get topicsById k)
                             | _ => false
                             end) ids
      | _ => false
      end.

(** [partialize]: an object of the six persisted fields of the state. *)
Definition partialize (state : JsValue) : JsValue :=
  VObject
    [ ("topicsById", get state "topicsById");
      ("subTopicsById", get state "subTopicsById");
      ("questionsById", get state "questionsById");
      ("topicOrder", get state "topicOrder");
      ("expandedTopics", get state "expandedTopics");
      ("expandedSubTopics", get state "expandedSubTopics") ].

(** [migrate]: both branches give the persisted state back as it is. *)
Definition migrate (persistedState : JsValue) (version : JsValue) : JsValue :=
  persistedState.

End Platform.

(** An object or an array: what passes [typeof v === 'object'] without
    being [null]. *)
Definition is_container (v : JsValue) : Prop :=
  match v with
  | VArray _ | VObject _ => True
  | _ => False
  end.

Definition STORAGE_KEY : string := "codolio-sheet".
Definition SCHEMA_VERSION : Z := 1.

(** ** The store and its storage at load time *)

(** The actions of the store, in the order [storeCreator] declares them. *)
Definition store_actions : list string :=
  [ "setHasHydrated"; "_recordHistory"; "undo"; "redo"; "canUndo"; "canRedo";
    "getTopics"; "getTopic"; "getSubTopic"; "getTopicNames"; "getSubTopicNames";
    "getQuestionTitles"; "fetchData"; "clearError"; "addTopic"; "updateTopic";
    "deleteTopic"; "reorderTopics"; "addSubTopic"; "updateSubTopic";
    "deleteSubTopic"; "reorderSubTopics"; "addQuestion"; "updateQuestion";
    "deleteQuestion"; "reorderQuestions"; "moveSubTopicToTopic";
    "moveQuestionToSubTopic"; "toggleTopic"; "toggleSubTopic"; "expandAllTopics";
    "collapseAllTopics"; "isTopicExpanded"; "isSubTopicExpanded" ].

(** The object [storeCreator] returns: the initial state and the actions. *)
Definition initial_state : list (string * JsValue) :=
  [ ("topicsById", VObject []); ("subTopicsById", VObject []);
    ("questionsById", VObject []); ("topicOrder", VArray []);
    ("expandedTopics", VObject []); ("expandedSubTopics", VObject []);
    ("loading", VBool false); ("error", VNull); ("_hasHydrated", VBool false);
    ("_history", VArray []); ("_historyIndex", VNumber (-1));
    ("_isUndoRedo", VBool false) ]
  ++ ((fun name => (name, VFunction name)) <$> store_actions).

(** What the load works on: the own properties of the state object of the
    store, the local storage, and the warnings written to the console.  The
    storage holds texts; an entry is given by the value [JSON.parse] gives
    for its text, and texts that do not parse are outside the model. *)
Record World := mkWorld {
  store_state : list (string * JsValue);
  localStorage : gmap string JsValue;
  console : list string
}.

Definition with_store_state (fields : list (string * JsValue)) (w : World) : World :=
  mkWorld fields (localStorage w) (console w).

Definition with_localStorage (m : gmap string JsValue) (w : World) : World :=
  mkWorld (store_state w) m (console w).

(** [console.warn(message, ...)] *)
Definition warn (message : string) (w : World) : World :=
  mkWorld (store_state w) (localStorage w) (console w ++ [message]).

(** [localStorage.removeItem(key)] *)
Definition removeItem (key : string) (w : World) : World :=
  with_localStorage (delete key (localStorage w)) w.

(** [JSON.parse(JSON.stringify(v))] for an object or an array [v]: a field
    that holds [undefined] or a function is left out, such an element of an
    array is written as [null].  [seen] are the names of the fields met so
    far: a later field of such a name is not a field of the object. *)
Fixpoint json (v : JsValue) : JsValue :=
  let fix json_items (items : list JsValue) : list JsValue :=
    match items with
    | [] => []
    | x :: rest =>
        match x with
        | VUndefined | VFunction _ => VNull
        | _ => json x
        end :: json_items rest
    end in
  let fix json_fields (seen : list string) (fields : list (string * JsValue))
      : list (string * JsValue) :=
    match fields with
    | [] => []
    | (k, x) :: rest =>
        if bool_decide (k ∈ seen) then json_fields seen rest
        else
          match x with
          | VUndefined | VFunction _ => json_fields (k :: seen) rest
          | _ => (k, json x) :: json_fields (k :: seen) rest
          end
    end in
  match v with
  | VArray items => VArray (json_items items)
  | VObject fields => VObject (json_fields [] fields)
  | _ => v
  end.

(** The two loops of [json] by themselves. *)
Definition json_item (x : JsValue) : JsValue :=
  match x with
  | VUndefined | VFunction _ => VNull
  | _ => json x
  end.

Fixpoint json_fields (seen : list string) (fields : list (string * JsValue))
    : list (string * JsValue) :=
  match fields with
  | [] => []
  | (k, x) :: rest =>
      if bool_decide (k ∈ seen) then json_fields seen rest
      else
        match x with
        | VUndefined | VFunction _ => json_fields (k :: seen) rest
        | _ => (k, json x) :: json_fields (k :: seen) rest
        end
  end.

Section Persist.

Variable Array_prototype_methods : list string.

(** The persist middleware of version 4 writes the storage after every
    merge, that of version 5 after a migration only. *)
Variable always_saves : bool.

(** [setItem] of the middleware: the partial state of a copy of the state
    goes to the storage as JSON, with the version. *)
Definition setItem (w : World) : World :=
  with_localStorage
    (<[STORAGE_KEY :=
         json (VObject
                 [ ("state", partialize Array_prototype_methods (VObject (store_state w)));
                   ("version", VNumber SCHEMA_VERSION) ])]>
       (localStorage w))
    w.

(** [Object.assign({}, state, partial)]: the own properties of both, those
    of [partial] first.  A property [__proto__] is assigned, not defined, so
    that it is no own property of the result. *)
Definition assign (state partial : list (string * JsValue))
    : list (string * JsValue) :=
  filter (fun kv => kv.1 <> "__proto__") (partial ++ state).

(** [set] as the middleware hands it to [storeCreator]: the partial state is
    merged into the state, and the storage is written. *)
Definition set_state (partial : list (string * JsValue)) (w : World) : World :=
  setItem (with_store_state (assign (store_state w) partial) w).

Definition setHasHydrated (state : JsValue) (w : World) : World :=
  set_state [("_hasHydrated", state)] w.

(** The callback [onRehydrateStorage] returns.  [error] is [None] for
    [undefined].  The call [state?.setHasHydrated(true)] raises a [TypeError]
    when the property holds no function; the store has one function of that
    name, and a state that holds another function there is not typed as
    [SheetStore].  The world is the one the callback leaves, also when it
    raises. *)
Definition onRehydrateStorage (state : JsValue) (error : option string) (w : World)
    : World * completion unit :=
  let w :=
    if bool_decide (is_Some error)
    then warn "Failed to rehydrate from localStorage, starting fresh:" w
    else w in
  let w :=
    if truthy_value state && negb (isValidPersistedState Array_prototype_methods state)
    then removeItem STORAGE_KEY (warn "Corrupted localStorage data detected, clearing..." w)
    else w in
  match state with
  | VUndefined | VNull => (w, Normal tt)
  | _ =>
      match get Array_prototype_methods state "setHasHydrated" with
      | VFunction name =>
          if String.eqb name "setHasHydrated"
          then (setHasHydrated (VBool true) w, Normal tt)
          else (w, IllTyped)
      | _ => (w, TypeError)
      end
  end.

(** [merge] of the middleware, which the options leave as it is:
    [{ ...currentState, ...persistedState }]. *)
Definition merge_state (persistedState : JsValue) (currentState : list (string * JsValue))
    : list (string * JsValue) :=
  own_properties persistedState ++ currentState.

(** The hydration the middleware runs when the store is created, on a
    storage that answers at once.  The entry is read; a truthy entry with a
    version that is a number other than the schema version goes through
    [migrate]; the persisted state is merged over the state [storeCreator]
    returned and replaces the state of the store; then the callback is
    called with the merged state.  An exception of the callback is caught,
    and the callback called again with [undefined] and the exception. *)
Definition hydrate (w : World) : completion World :=
  let configResult := store_state w in
  let item := default VNull (localStorage w !! STORAGE_KEY) in
  let version := get Array_prototype_methods item "version" in
  let state := get Array_prototype_methods item "state" in
  let '(migrated, persistedState) :=
    if truthy_value item then
      if typeof_number version && negb (is_number SCHEMA_VERSION version)
      then (true, migrate state version)
      else (false, state)
    else (false, VUndefined) in
  let stateFromStorage := merge_state persistedState configResult in
  let w := with_store_state stateFromStorage w in
  let w := if always_saves || migrated then setItem w else w in
  match onRehydrateStorage (VObject stateFromStorage) None w with
  | (w, Normal _) => Normal w
  | (w, TypeError) => Normal (onRehydrateStorage VUndefined (Some "TypeError") w).1
  | (w, IllTyped) => IllTyped
  end.

End Persist.

(** The world in which the store is created. *)
Definition at_creation (storage : gmap string JsValue) : World :=
  mkWorld initial_state storage [].

(** The entry [setItem] writes for a partial state. *)
Definition stored (state : JsValue) : JsValue :=
  VObject [("state", state); ("version", VNumber SCHEMA_VERSION)].

(** The graph of the store as it is created: what an empty graph looks like
    at load time. *)
Definition empty_graph (state : list (string * JsValue)) : Prop :=
  own state "topicsById" = Some (VObject [])
  /\ own state "subTopicsById" = Some (VObject [])
  /\ own state "questionsById" = Some (VObject [])
  /\ own state "topicOrder" = Some (VArray []).

(** ** A URL constructor *)

Definition is_ascii_alpha (c : ascii) : bool :=
  let n := Ascii.nat_of_ascii c in
  bool_decide ((65 ≤ n ∧ n ≤ 90) ∨ (97 ≤ n ∧ n ≤ 122))%nat.

Definition is_ascii_digit (c : ascii) : bool :=
  let n := Ascii.nat_of_ascii c in
  bool_decide (48 ≤ n ∧ n ≤ 57)%nat.

(** The scheme state of the URL parser: letters, digits, [+], [-] and [.]
    up to the colon, in lower case. *)
Fixpoint scheme_state (buffer input : string) : option string :=
  match input with
  | EmptyString => None
  | String c rest =>
      if is_ascii_alpha c || is_ascii_digit c
         || bool_decide (c ∈ ["+"; "-"; "."]%char)
      then scheme_state (buffer +:+ String (JsString.lower_char c) EmptyString) rest
      else if bool_decide (c = ":"%char) then Some buffer
      else None
  end.

(** The scheme start state: a scheme begins with a letter.  There is no base
    URL, so an input without a scheme is a failure. *)
Definition scheme_start_state (input : string) : option string :=
  match input with
  | EmptyString => None
  | String c rest =>
      if is_ascii_alpha c
      then scheme_state (String (JsString.lower_char c) EmptyString) rest
      else None
  end.

(** A constructor that stops once the scheme is read: it throws on the
    inputs without a scheme and gives the protocol of the others.  The parser
    of the platform goes on with the authority, the host and the port and can
    still throw there; after a scheme that is not special and is not followed
    by a slash it reads an opaque path, which never fails, so that the two
    agree on such inputs.  The input is taken without leading or trailing
    control characters and without tabs or line breaks inside. *)
Definition scheme_only_URL : UrlConstructor :=
  fun input => (fun scheme => scheme +:+ ":") <$> scheme_start_state input.

(** What the specification says of [validateUrl], for a constructor and a
    candidate: an empty candidate is valid, another one is valid exactly when
    it parses with the scheme [http] or [https], and every other one fails
    with the one message. *)
Definition validateUrl_as_specified (newURL : UrlConstructor) (url : string) : Prop :=
  let r := validateUrl newURL url in
  let trimmed := JsString.trim url in
  (trimmed = EmptyString -> valid r = true)
  /\ (trimmed <> EmptyString ->
        (valid r = true <->
         exists protocol, newURL trimmed = Some protocol
                          /\ (protocol = "http:" \/ protocol = "https:")))
  /\ (trimmed <> EmptyString -> valid r = false ->
        error r = Some "Invalid URL format").

(** ** Sample stores *)

Definition store_of (d : PersistedState) : Store :=
  mkStore d false None true [] (-1) false.

(** One topic with two sub-topics of three and two questions. *)
Definition sample_question (id : string) : QuestionEntity :=
  mkQuestion id ("Question " +:+ id) (Some "Easy") None.

Definition sample_data : PersistedState :=
  mkPersisted
    {[ "t1" := mkTopic "t1" "Arrays" [IdStr "a"; IdStr "b"] ]}
    {[ "a" := mkSubTopic "a" "Basics" "t1" [IdStr "q1"; IdStr "q2"; IdStr "q3"];
       "b" := mkSubTopic "b" "Hashing" "t1" [IdStr "q4"; IdStr "q5"] ]}
    {[ "q1" := sample_question "q1"; "q2" := sample_question "q2";
       "q3" := sample_question "q3"; "q4" := sample_question "q4";
       "q5" := sample_question "q5" ]}
    [IdStr "t1"]
    {[ "t1" := true ]}
    {[ "a" := true; "b" := true ]}.

Definition sample_store : Store := store_of sample_data.

(** The topic of [sample_data] beside a second topic with one sub-topic of
    one question, and what is left of the two once the first is deleted. *)
Definition two_topics_data : PersistedState :=
  mkPersisted
    {[ "t1" := mkTopic "t1" "Arrays" [IdStr "a"; IdStr "b"];
       "t2" := mkTopic "t2" "Graphs" [IdStr "c"] ]}
    {[ "a" := mkSubTopic "a" "Basics" "t1" [IdStr "q1"; IdStr "q2"; IdStr "q3"];
       "b" := mkSubTopic "b" "Hashing" "t1" [IdStr "q4"; IdStr "q5"];
       "c" := mkSubTopic "c" "Traversal" "t2" [IdStr "q6"] ]}
    {[ "q1" := sample_question "q1"; "q2" := sample_question "q2";
       "q3" := sample_question "q3"; "q4" := sample_question "q4";
       "q5" := sample_question "q5"; "q6" := sample_question "q6" ]}
    [IdStr "t1"; IdStr "t2"]
    {[ "t1" := true; "t2" := false ]}
    {[ "a" := true; "b" := false; "c" := true ]}.

Definition second_topic_data : PersistedState :=
  mkPersisted
    {[ "t2" := mkTopic "t2" "Graphs" [IdStr "c"] ]}
    {[ "c" := mkSubTopic "c" "Traversal" "t2" [IdStr "q6"] ]}
    {[ "q6" := sample_question "q6" ]}
    [IdStr "t2"]
    {[ "t2" := false ]}
    {[ "c" := true ]}.

Definition two_topics_store : Store := store_of two_topics_data.

(** Sub-topic [A] holding [q1, q2] and sub-topic [B] holding [q3]. *)
Definition move_data : PersistedState :=
  mkPersisted
    {[ "t1" := mkTopic "t1" "Arrays" [IdStr "A"; IdStr "B"] ]}
    {[ "A" := mkSubTopic "A" "Basics" "t1" [IdStr "q1"; IdStr "q2"];
       "B" := mkSubTopic "B" "Hashing" "t1" [IdStr "q3"] ]}
    {[ "q1" := sample_question "q1"; "q2" := sample_question "q2";
       "q3" := sample_question "q3" ]}
    [IdStr "t1"]
    {[ "t1" := true ]}
    {[ "A" := true; "B" := true ]}.

Definition move_store : Store := store_of move_data.

(** A store at the present whose history is full: twenty snapshots, the
    oldest of them the empty graph. *)
Definition full_history_store : Store :=
  mkStore sample_data false None true (empty_data :: replicate 19 move_data) (-1) false.

(** A persisted shape without the [questionsById] key, and the shape with
    the six keys that has an empty object there. *)
Definition shape_without_questions : JsValue :=
  VObject
    [ ("topicsById",
        VObject [("t1", VObject [("id", VString "t1"); ("name", VString "Arrays");
                                 ("subTopicIds", VArray [])])]);
      ("subTopicsById", VObject []);
      ("topicOrder", VArray [VString "t1"]);
      ("expandedTopics", VObject [("t1", VBool true)]);
      ("expandedSubTopics", VObject []) ].

Definition shape_with_empty_questions : JsValue :=
  VObject
    [ ("topicsById",
        VObject [("t1", VObject [("id", VString "t1"); ("name", VString "Arrays");
                                 ("subTopicIds", VArray [])])]);
      ("subTopicsById", VObject []);
      ("questionsById", VObject []);
      ("topicOrder", VArray [VString "t1"]);
      ("expandedTopics", VObject [("t1", VBool true)]);
      ("expandedSubTopics", VObject []) ].

(** A persisted shape with the six keys whose [topicOrder] names a topic
    that [topicsById] does not have. *)
Definition shape_dangling_order : JsValue :=
  VObject
    [ ("topicsById",
        VObject [("t1", VObject [("id", VString "t1"); ("name", VString "Arrays");
                                 ("subTopicIds", VArray [])])]);
      ("subTopicsById", VObject []);
      ("questionsById", VObject []);
      ("topicOrder", VArray [VString "t1"; VString "t9"]);
      ("expandedTopics", VObject [("t1", VBool true)]);
      ("expandedSubTopics", VObject []) ].

(** A persisted shape with the six keys and no topic, whose [topicOrder]
    holds the name of a method every object inherits. *)
Definition shape_inherited_order : JsValue :=
  VObject
    [ ("topicsById", VObject []);
      ("subTopicsById", VObject []);
      ("questionsById", VObject []);
      ("topicOrder", VArray [VString "toString"]);
      ("expandedTopics", VObject []);
      ("expandedSubTopics", VObject []) ].

(** * Further notions *)

(** ** History sessions *)

(** [n] calls of [redo] in a row. *)
Definition redo_times (n : nat) (s : Store) : Store := Nat.iter n redo s.

(** A call made on a store, for the sample sessions: the store after it. *)
Definition after (m : Mutation) (s : Store) : Store :=
  match apply scheme_only_URL m s with
  | Normal (s', _) => s'
  | _ => s
  end.

(** The sample store after a topic was added and the first topic deleted. *)
Definition two_edits_store : Store :=
  after (DeleteTopic "t1") (after (AddTopic "Graphs" "t2") sample_store).

(** A string that does not begin with white space. *)
Definition head_not_space (s : string) : Prop :=
  match s with
  | EmptyString => True
  | String c _ => JsString.is_white_space c = false
  end.

(** The length a name or a title may have, bounds included. *)
Definition length_within (lo hi : Z) (s : string) : Prop :=
  lo <= JsString.length s <= hi.

(** What the store holds has passed the validators: names and titles are
    trimmed and of an accepted length, a difficulty is one the validator
    accepts, and a link is trimmed, not empty and accepted by the URL
    constructor with the protocol [http:] or [https:]. *)
Definition valid_name (n : string) : Prop :=
  JsString.trim n = n /\ length_within 2 100 n.

Definition valid_title (t : string) : Prop :=
  JsString.trim t = t /\ length_within 3 200 t.

Definition valid_stored_difficulty (d : option string) : Prop :=
  match d with
  | Some x => valid (validateDifficulty x) = true
  | None => True
  end.

Definition valid_stored_link (newURL : UrlConstructor) (l : option string) : Prop :=
  match l with
  | Some x => x <> EmptyString /\ valid (validateUrl newURL x) = true
  | None => True
  end.

Definition fields_valid (newURL : UrlConstructor) (d : PersistedState) : Prop :=
  map_Forall (fun _ t => valid_name (topic_name t)) (topicsById d)
  /\ map_Forall (fun _ st => valid_name (subTopic_name st)) (subTopicsById d)
  /\ map_Forall (fun _ q => valid_title (title q)
                            /\ valid_stored_difficulty (difficulty q)
                            /\ valid_stored_link newURL (link q))
       (questionsById d).

Global Instance valid_name_dec n : Decision (valid_name n).
Proof. unfold valid_name, length_within. apply _. Defined.

Global Instance valid_title_dec t : Decision (valid_title t).
Proof. unfold valid_title, length_within. apply _. Defined.

Global Instance valid_stored_difficulty_dec d : Decision (valid_stored_difficulty d).
Proof. destruct d; simpl; apply _. Defined.

Global Instance valid_stored_link_dec newURL l : Decision (valid_stored_link newURL l).
Proof. destruct l; simpl; apply _. Defined.

Global Instance fields_valid_dec newURL d : Decision (fields_valid newURL d).
Proof. unfold fields_valid. apply _. Defined.

(** ** The entity graph as the data model wants it *)

(** Every id of the top-level order is a string that names a topic. *)
Definition order_resolves (d : PersistedState) : Prop :=
  forall v, v ∈ topicOrder d ->
    exists k, v = IdStr k /\ is_Some (topicsById d !! k).

(** Every id a topic lists is a string that names a sub-topic, and that
    sub-topic names the topic in [topicId]. *)
Definition sub_topics_resolve (d : PersistedState) : Prop :=
  forall t topic v,
    topicsById d !! t = Some topic ->
    v ∈ subTopicIds topic ->
    exists k st, v = IdStr k /\ subTopicsById d !! k = Some st /\ topicId st = t.

(** Every id a sub-topic lists is a string that names a question. *)
Definition questions_resolve (d : PersistedState) : Prop :=
  forall s st v,
    subTopicsById d !! s = Some st ->
    v ∈ questionIds st ->
    exists q, v = IdStr q /\ is_Some (questionsById d !! q).

(** No id is listed by two sub-topics. *)
Definition questions_exclusive (d : PersistedState) : Prop :=
  forall s1 s2 st1 st2 v,
    subTopicsById d !! s1 = Some st1 ->
    subTopicsById d !! s2 = Some st2 ->
    v ∈ questionIds st1 ->
    v ∈ questionIds st2 ->
    s1 = s2.

(** Every topic is in the top-level order. *)
Definition topics_ordered (d : PersistedState) : Prop :=
  forall t, is_Some (topicsById d !! t) -> IdStr t ∈ topicOrder d.

(** Every sub-topic is listed by the topic it names in [topicId]. *)
Definition sub_topics_owned (d : PersistedState) : Prop :=
  forall k st,
    subTopicsById d !! k = Some st ->
    exists topic, topicsById d !! topicId st = Some topic /\ IdStr k ∈ subTopicIds topic.

(** Every question is listed by a sub-topic. *)
Definition questions_owned (d : PersistedState) : Prop :=
  forall q, is_Some (questionsById d !! q) ->
    exists s st, subTopicsById d !! s = Some st /\ IdStr q ∈ questionIds st.

(** Referential integrity and ownership, as one invariant. *)
Definition well_formed (d : PersistedState) : Prop :=
  order_resolves d
  /\ sub_topics_resolve d
  /\ questions_resolve d
  /\ questions_exclusive d
  /\ topics_ordered d
  /\ sub_topics_owned d
  /\ questions_owned d.

(** What a call has to respect for the invariant to be kept: a generated id
    is new to its map, a sub-topic or a question is deleted through the
    container that holds it, and the source position of a reorder is one of
    the array. *)
Definition valid_call (m : Mutation) (s : Store) : Prop :=
  match m with
  | AddTopic _ g => topicsById (data s) !! g = None
  | AddSubTopic _ _ g => subTopicsById (data s) !! g = None
  | AddQuestion _ _ _ g => questionsById (data s) !! g = None
  | DeleteSubTopic t st =>
      forall sub, subTopicsById (data s) !! st = Some sub -> topicId sub = t
  | DeleteQuestion _ st q =>
      forall sub, subTopicsById (data s) !! st = Some sub ->
        IdStr q ∈ questionIds sub
  | ReorderTopics i _ =>
      (JsArray.relative_index (length (topicOrder (data s))) i
       < length (topicOrder (data s)))%nat
  | ReorderSubTopics _ _ _ | ReorderQuestions _ _ _ _ => source_in_range m s
  | _ => True
  end.

(** The graph in the store and the graph in every snapshot of the history. *)
Definition store_well_formed (s : Store) : Prop :=
  well_formed (data s) /\ Forall well_formed (_history s).

(** *** The invariant as a check over the entries *)

(** An id that is a string and a key of [m]. *)
Definition names {V} (m : gmap string V) (v : jsid) : Prop :=
  match v with
  | IdStr k => is_Some (m !! k)
  | _ => False
  end.

Global Instance names_dec {V} (m : gmap string V) v : Decision (names m v).
Proof. destruct v; simpl; apply _. Defined.

(** An id that names a sub-topic of topic [t]. *)
Definition names_sub_topic_of (d : PersistedState) (t : string) (v : jsid) : Prop :=
  match v with
  | IdStr k => topicId <$> subTopicsById d !! k = Some t
  | _ => False
  end.

Global Instance names_sub_topic_of_dec d t v : Decision (names_sub_topic_of d t v).
Proof. destruct v; simpl; apply _. Defined.

(** The topic a sub-topic names lists it. *)
Definition listed_by_topic (d : PersistedState) (k : string) (st : SubTopicEntity)
    : Prop :=
  match topicsById d !! topicId st with
  | Some topic => IdStr k ∈ subTopicIds topic
  | None => False
  end.

Global Instance listed_by_topic_dec d k st : Decision (listed_by_topic d k st).
Proof. unfold listed_by_topic. destruct (topicsById d !! topicId st); apply _. Defined.

Definition well_formed_entries (d : PersistedState) : Prop :=
  Forall (names (topicsById d)) (topicOrder d)
  /\ map_Forall (fun t topic => Forall (names_sub_topic_of d t) (subTopicIds topic))
       (topicsById d)
  /\ map_Forall (fun _ st => Forall (names (questionsById d)) (questionIds st))
       (subTopicsById d)
  /\ map_Forall (fun s1 st1 =>
       map_Forall (fun s2 st2 =>
         Forall (fun v => v ∈ questionIds st2 -> s1 = s2) (questionIds st1))
         (subTopicsById d))
       (subTopicsById d)
  /\ map_Forall (fun t _ => IdStr t ∈ topicOrder d) (topicsById d)
  /\ map_Forall (listed_by_topic d) (subTopicsById d)
  /\ map_Forall (fun q _ =>
       map_Exists (fun _ st => IdStr q ∈ questionIds st) (subTopicsById d))
       (questionsById d).

Global Instance well_formed_entries_dec d : Decision (well_formed_entries d).
Proof. unfold well_formed_entries. apply _. Defined.

(** No id is listed twice in an id array. *)
Definition no_duplicates (d : PersistedState) : Prop :=
  NoDup (topicOrder d)
  /\ map_Forall (fun _ t => NoDup (subTopicIds t)) (topicsById d)
  /\ map_Forall (fun _ st => NoDup (questionIds st)) (subTopicsById d).

Global Instance no_duplicates_dec d : Decision (no_duplicates d).
Proof. unfold no_duplicates. apply _. Defined.

(** A well-formed graph without duplicates, in the store and in the
    history. *)
Definition graph_sound (d : PersistedState) : Prop :=
  well_formed d /\ no_duplicates d.

Definition store_sound (s : Store) : Prop :=
  graph_sound (data s) /\ Forall graph_sound (_history s).

Definition graph_sound_entries (d : PersistedState) : Prop :=
  well_formed_entries d /\ no_duplicates d.

Global Instance graph_sound_entries_dec d : Decision (graph_sound_entries d).
Proof. unfold graph_sound_entries. apply _. Defined.

(** The sample store after its first question was moved to the second
    sub-topic. *)
Definition moved_store : Store :=
  after (MoveQuestionToSubTopic "q1" "a" "b" 0) sample_store.

(** ** Drag and drop *)

(** [arr.indexOf(x)]: the position of the first element strictly equal to
    [x], or [-1]. *)
Fixpoint indexOf_from (l : list jsid) (x : jsid) (i : Z) : Z :=
  match l with
  | [] => -1
  | y :: rest => if decide (y = x) then i else indexOf_from rest x (i + 1)
  end.

Definition indexOf (l : list jsid) (x : jsid) : Z := indexOf_from l x 0.

Inductive DragKind := DragTopic | DragSubTopic | DragQuestion.

Global Instance DragKind_eq_dec : EqDecision DragKind.
Proof. solve_decision. Defined.

(** [DragState]: [None] is [null]. *)
Record DragState := mkDragState {
  drag_type : option DragKind;
  drag_id : option string;
  sourceContainerId : option string
}.

Section GlobalDndProvider.

(** [Object.values(subTopicsById)], in the order the object enumerates its
    keys. *)
Variable values : list SubTopicEntity.

(** The three collections the component has read from the store. *)
Variable state : PersistedState.

(** A question is found through the first sub-topic of the enumeration that
    lists it, and its container is the [id] field of that sub-topic. *)
Definition determineDragType (id : string) : DragState :=
  if bool_decide (is_Some (topicsById state !! id))
  then mkDragState (Some DragTopic) (Some id) None
  else
    match subTopicsById state !! id with
    | Some st => mkDragState (Some DragSubTopic) (Some id) (Some (topicId st))
    | None =>
        match list_find (fun st => IdStr id ∈ questionIds st) values with
        | Some (_, subTopic) =>
            mkDragState (Some DragQuestion) (Some id) (Some (subTopic_id subTopic))
        | None => mkDragState None None None
        end
    end.

(** [type === kind && sourceContainerId]: the container when it is a
    non-empty string. *)
Definition container_of (kind : DragKind) (d : DragState) : option string :=
  match drag_type d, sourceContainerId d with
  | Some k, Some c =>
      if bool_decide (k = kind) && JsString.truthy c then Some c else None
  | _, _ => None
  end.

Definition is_kind (kind : DragKind) (d : DragState) : bool :=
  bool_decide (drag_type d = Some kind).

(** [handleDragEnd]: the call it makes on the store, if it makes one.
    [over] is [None] when the item is dropped outside every target;
    [onTopicReorder] is the [reorderTopics] the application passes. *)
Definition handleDragEnd (active : string) (over : option string) : option Mutation :=
  match over with
  | None => None
  | Some overId =>
      if String.eqb active overId then None
      else
        let activeId := active in
        let activeType := determineDragType activeId in
        if is_kind DragTopic activeType then
          let oldIndex := indexOf (topicOrder state) (IdStr activeId) in
          let newIndex := indexOf (topicOrder state) (IdStr overId) in
          if negb (oldIndex =? -1) && negb (newIndex =? -1)
          then Some (ReorderTopics oldIndex newIndex)
          else None
        else
          match container_of DragSubTopic activeType with
          | Some source =>
              let overType := determineDragType overId in
              match container_of DragSubTopic overType with
              | Some overSource =>
                  if String.eqb source overSource then
                    match topicsById state !! source with
                    | Some topic =>
                        let oldIndex := indexOf (subTopicIds topic) (IdStr activeId) in
                        let newIndex := indexOf (subTopicIds topic) (IdStr overId) in
                        if negb (oldIndex =? -1) && negb (newIndex =? -1)
                        then Some (ReorderSubTopics source oldIndex newIndex)
                        else None
                    | None => None
                    end
                  else
                    match topicsById state !! overSource with
                    | Some destTopic =>
                        let destIndex := indexOf (subTopicIds destTopic) (IdStr overId) in
                        Some (MoveSubTopicToTopic activeId source overSource destIndex)
                    | None => None
                    end
              | None =>
                  if is_kind DragTopic overType then
                    match topicsById state !! overId with
                    | Some destTopic =>
                        if negb (String.eqb source overId)
                        then Some (MoveSubTopicToTopic activeId source overId
                                     (Z.of_nat (length (subTopicIds destTopic))))
                        else None
                    | None => None
                    end
                  else None
              end
          | None =>
              match container_of DragQuestion activeType with
              | Some source =>
                  let overType := determineDragType overId in
                  match container_of DragQuestion overType with
                  | Some overSource =>
                      if String.eqb source overSource then
                        match subTopicsById state !! source with
                        | Some subTopic =>
                            let oldIndex :=
                              indexOf (questionIds subTopic) (IdStr activeId) in
                            let newIndex :=
                              indexOf (questionIds subTopic) (IdStr overId) in
                            if negb (oldIndex =? -1) && negb (newIndex =? -1)
                            then Some (ReorderQuestions (topicId subTopic) source
                                         oldIndex newIndex)
                            else None
                        | None => None
                        end
                      else
                        match subTopicsById state !! overSource with
                        | Some destSubTopic =>
                            let destIndex :=
                              indexOf (questionIds destSubTopic) (IdStr overId) in
                            Some (MoveQuestionToSubTopic activeId source overSource
                                    destIndex)
                        | None => None
                        end
                  | None =>
                      if is_kind DragSubTopic overType then
                        if negb (String.eqb source overId) then
                          match subTopicsById state !! overId with
                          | Some destSubTopic =>
                              Some (MoveQuestionToSubTopic activeId source overId
                                      (Z.of_nat (length (questionIds destSubTopic))))
                          | None => None
                          end
                        else None
                      else None
                  end
              | None => None
              end
          end
  end.

End GlobalDndProvider.

(** A call that moves an entity from a container to the same container. *)
Definition self_move (m : Mutation) : Prop :=
  match m with
  | MoveSubTopicToTopic _ a b _ | MoveQuestionToSubTopic _ a b _ => a = b
  | _ => False
  end.

(** What a reorder call says about the array it works on: the dragged id is
    at the source position and the id dropped on at the destination. *)
Definition reorder_positions (d : PersistedState) (active over : string)
    (m : Mutation) : Prop :=
  let at_positions l i j :=
    JsArray.at_index l i = Some (IdStr active)
    /\ JsArray.at_index l j = Some (IdStr over) in
  match m with
  | ReorderTopics i j => at_positions (topicOrder d) i j
  | ReorderSubTopics t i j =>
      exists topic, topicsById d !! t = Some topic
                    /\ at_positions (subTopicIds topic) i j
  | ReorderQuestions _ st i j =>
      exists sub, subTopicsById d !! st = Some sub
                  /\ at_positions (questionIds sub) i j
  | MoveSubTopicToTopic x _ _ _ | MoveQuestionToSubTopic x _ _ _ => x = active
  | _ => False
  end.

(** ** The nested view *)

(** The nested types of the components.  [order] is a JavaScript number; the
    code below only writes array positions into it. *)
Record Question := mkNestedQuestion {
  nested_question_id : string;
  nested_title : string;
  question_order : Z;
  nested_difficulty : option string;
  nested_link : option string
}.

Record SubTopic := mkNestedSubTopic {
  nested_subTopic_id : string;
  nested_subTopic_name : string;
  subTopic_order : Z;
  questions : list Question
}.

Record Topic := mkNestedTopic {
  nested_topic_id : string;
  nested_topic_name : string;
  topic_order : Z;
  subTopics : list SubTopic
}.

(** *** [normalizeData] *)

(** The body of the loop over the questions of a sub-topic: one write into
    [questionsById]; the ids pushed are collected below. *)
Definition normalize_question (questionsById : gmap string QuestionEntity)
    (question : Question) : gmap string QuestionEntity :=
  <[nested_question_id question :=
      mkQuestion (nested_question_id question) (nested_title question)
        (nested_difficulty question) (nested_link question)]> questionsById.

(** The body of the loop over the sub-topics of a topic. *)
Definition normalize_subTopic (topic_id : string) (acc : PersistedState)
    (subTopic : SubTopic) : PersistedState :=
  let questionIds := (fun q => IdStr (nested_question_id q)) <$> questions subTopic in
  mkPersisted
    (topicsById acc)
    (<[nested_subTopic_id subTopic :=
         mkSubTopic (nested_subTopic_id subTopic) (nested_subTopic_name subTopic)
           topic_id questionIds]>
       (subTopicsById acc))
    (foldl normalize_question (questionsById acc) (questions subTopic))
    (topicOrder acc)
    (expandedTopics acc)
    (<[nested_subTopic_id subTopic := true]> (expandedSubTopics acc)).

(** The body of the loop over the topics. *)
Definition normalize_topic (acc : PersistedState) (topic : Topic) : PersistedState :=
  let subTopicIds := (fun st => IdStr (nested_subTopic_id st)) <$> subTopics topic in
  let acc := foldl (normalize_subTopic (nested_topic_id topic)) acc (subTopics topic) in
  mkPersisted
    (<[nested_topic_id topic :=
         mkTopic (nested_topic_id topic) (nested_topic_name topic) subTopicIds]>
       (topicsById acc))
    (subTopicsById acc)
    (questionsById acc)
    (topicOrder acc ++ [IdStr (nested_topic_id topic)])
    (<[nested_topic_id topic := true]> (expandedTopics acc))
    (expandedSubTopics acc).

Definition normalizeData (nestedTopics : list Topic) : PersistedState :=
  foldl normalize_topic empty_data nestedTopics.

(** *** [denormalizeTopic] and the selectors built on it *)

(** [ids.map((qId, index) => ...).filter(q => q !== null)]: the questions
    found, each with its position in the id array as [order]. *)
Definition denormalize_questions (questionsById : gmap string QuestionEntity)
    (ids : list jsid) : list Question :=
  omap id
    (imap (fun index qId =>
             (fun q => mkNestedQuestion (question_id q) (title q) (Z.of_nat index)
                         (difficulty q) (link q))
               <$> questionsById !! key_of qId) ids).

Definition denormalize_subTopic (questionsById : gmap string QuestionEntity)
    (order : Z) (st : SubTopicEntity) : SubTopic :=
  mkNestedSubTopic (subTopic_id st) (subTopic_name st) order
    (denormalize_questions questionsById (questionIds st)).

Definition denormalizeTopic (topicId : jsid)
    (topicsById : gmap string TopicEntity)
    (subTopicsById : gmap string SubTopicEntity)
    (questionsById : gmap string QuestionEntity) : option Topic :=
  match topicsById !! key_of topicId with
  | None => None
  | Some topic =>
      let subTopics :=
        omap (fun stId =>
                denormalize_subTopic questionsById (indexOf (subTopicIds topic) stId)
                  <$> subTopicsById !! key_of stId)
          (subTopicIds topic) in
      Some (mkNestedTopic (topic_id topic) (topic_name topic) 0 subTopics)
  end.

(** [topic.order = index] *)
Definition with_order (index : Z) (topic : Topic) : Topic :=
  mkNestedTopic (nested_topic_id topic) (nested_topic_name topic) index
    (subTopics topic).

Definition getTopics (s : Store) : list Topic :=
  let d := data s in
  omap id
    (imap (fun index id =>
             with_order (Z.of_nat index)
               <$> denormalizeTopic id (topicsById d) (subTopicsById d)
                     (questionsById d))
       (topicOrder d)).

Definition getTopic (s : Store) (id : string) : option Topic :=
  let d := data s in
  with_order (indexOf (topicOrder d) (IdStr id))
    <$> denormalizeTopic (IdStr id) (topicsById d) (subTopicsById d) (questionsById d).

Definition getSubTopic (s : Store) (topicId subTopicId : string) : option SubTopic :=
  let d := data s in
  match topicsById d !! topicId, subTopicsById d !! subTopicId with
  | Some topic, Some subTopic =>
      Some (denormalize_subTopic (questionsById d)
              (indexOf (subTopicIds topic) (IdStr subTopicId)) subTopic)
  | _, _ => None
  end.

(** *** What the properties compare with *)

(** A nested list with every [order] field set to the position of its
    element. *)
Definition positioned_questions (qs : list Question) : list Question :=
  imap (fun k q =>
          mkNestedQuestion (nested_question_id q) (nested_title q) (Z.of_nat k)
            (nested_difficulty q) (nested_link q)) qs.

Definition positioned_subTopics (sts : list SubTopic) : list SubTopic :=
  imap (fun j st =>
          mkNestedSubTopic (nested_subTopic_id st) (nested_subTopic_name st)
            (Z.of_nat j) (positioned_questions (questions st))) sts.

Definition positioned (ts : list Topic) : list Topic :=
  imap (fun i t =>
          mkNestedTopic (nested_topic_id t) (nested_topic_name t) (Z.of_nat i)
            (positioned_subTopics (subTopics t))) ts.

(** The sub-topics and the questions of a nested list, in the order the loops
    of [normalizeData] meet them. *)
Definition all_subTopics (ts : list Topic) : list SubTopic := ts ≫= subTopics.

Definition all_questions (ts : list Topic) : list Question :=
  all_subTopics ts ≫= questions.

(** The entity a topic, a sub-topic and a question is stored as. *)
Definition stored_topic (t : Topic) : TopicEntity :=
  mkTopic (nested_topic_id t) (nested_topic_name t)
    ((fun st => IdStr (nested_subTopic_id st)) <$> subTopics t).

Definition stored_subTopic (topic_id : string) (st : SubTopic) : SubTopicEntity :=
  mkSubTopic (nested_subTopic_id st) (nested_subTopic_name st) topic_id
    ((fun q => IdStr (nested_question_id q)) <$> questions st).

Definition stored_question (q : Question) : QuestionEntity :=
  mkQuestion (nested_question_id q) (nested_title q) (nested_difficulty q)
    (nested_link q).

(** The sub-topics of a nested list, each with the id of its topic. *)
Definition owned_subTopics (ts : list Topic) : list (string * SubTopic) :=
  ts ≫= (fun t => (fun st => (nested_topic_id t, st)) <$> subTopics t).

(** No id is used twice for entities of one kind. *)
Definition distinct_ids (ts : list Topic) : Prop :=
  NoDup (nested_topic_id <$> ts)
  /\ NoDup (nested_subTopic_id <$> all_subTopics ts)
  /\ NoDup (nested_question_id <$> all_questions ts).

Global Instance distinct_ids_dec ts : Decision (distinct_ids ts).
Proof. unfold distinct_ids. apply _. Defined.

(** A nested list of two topics for the sample round trip. *)
Definition sample_topics : list Topic :=
  [ mkNestedTopic "t1" "Arrays" 7
      [ mkNestedSubTopic "a" "Basics" 3
          [ mkNestedQuestion "q1" "Two Sum" 5 (Some "Easy") None;
            mkNestedQuestion "q2" "Rotate" 5 None (Some "https://example.com/r") ];
        mkNestedSubTopic "b" "Hashing" 3 [] ];
    mkNestedTopic "t2" "Graphs" 7
      [ mkNestedSubTopic "c" "Traversal" 0
          [ mkNestedQuestion "q3" "Islands" 1 (Some "Medium") None ] ] ].

(** The first topic of the sample store and its first sub-topic, as the
    selectors give them. *)
Definition sample_topic_view : Topic :=
  default (mkNestedTopic "" "" 0 []) (getTopic sample_store "t1").

Definition sample_subTopic_view : SubTopic :=
  default (mkNestedSubTopic "" "" 0 []) (getSubTopic sample_store "t1" "b").

(** [i] is the first position of [x] in [l]: what [indexOf] answers for an
    element of the array. *)
Definition first_position (l : list jsid) (x : jsid) (i : Z) : Prop :=
  0 <= i
  /\ JsArray.at_index l i = Some x
  /\ forall j, 0 <= j < i -> JsArray.at_index l j <> Some x.

(** ** What the persist middleware stores *)

(** [JSON.parse(JSON.stringify(v))] for the values of the persisted fields:
    in an array [undefined] is written as [null], in an object a field that
    holds [undefined] is left out. *)
Definition json_of_id (v : jsid) : JsValue :=
  match v with
  | IdStr s => VString s
  | _ => VNull
  end.

Definition json_of_ids (l : list jsid) : JsValue := VArray (json_of_id <$> l).

Definition json_of_topic (t : TopicEntity) : JsValue :=
  VObject [ ("id", VString (topic_id t)); ("name", VString (topic_name t));
            ("subTopicIds", json_of_ids (subTopicIds t)) ].

Definition json_of_subTopic (st : SubTopicEntity) : JsValue :=
  VObject [ ("id", VString (subTopic_id st)); ("name", VString (subTopic_name st));
            ("topicId", VString (topicId st));
            ("questionIds", json_of_ids (questionIds st)) ].

Definition json_of_optional (key : string) (v : option string)
    : list (string * JsValue) :=
  match v with
  | Some x => [(key, VString x)]
  | None => []
  end.

Definition json_of_question (q : QuestionEntity) : JsValue :=
  VObject ([ ("id", VString (question_id q)); ("title", VString (title q)) ]
             ++ json_of_optional "difficulty" (difficulty q)
             ++ json_of_optional "link" (link q)).

(** An object used as a map: one field for each key. *)
Definition json_of_map {V} (f : V -> JsValue) (m : gmap string V) : JsValue :=
  VObject (prod_map id f <$> map_to_list m).

(** The six persisted fields of a state as [setItem] writes them and the
    next load reads them. *)
Definition json_of_state (d : PersistedState) : JsValue :=
  VObject
    [ ("topicsById", json_of_map json_of_topic (topicsById d));
      ("subTopicsById", json_of_map json_of_subTopic (subTopicsById d));
      ("questionsById", json_of_map json_of_question (questionsById d));
      ("topicOrder", json_of_ids (topicOrder d));
      ("expandedTopics", json_of_map VBool (expandedTopics d));
      ("expandedSubTopics", json_of_map VBool (expandedSubTopics d)) ].

Definition persisted_keys : list string :=
  [ "topicsById"; "subTopicsById"; "questionsById"; "topicOrder";
    "expandedTopics"; "expandedSubTopics" ].

(** What the validation at load time asks of a saved [topicOrder]: each
    element is a string, and [topicsById] has a topic under it or inherits a
    member of that name. *)
Definition order_accepted (d : PersistedState) : Prop :=
  forall v, v ∈ topicOrder d ->
    exists k, v = IdStr k
              /\ (is_Some (topicsById d !! k)
                  \/ k ∈ "__proto__" :: Object_prototype_methods).

(** A state whose [topicOrder] has a position left [undefined] by a reorder
    from outside the array. *)
Definition undefined_order_data : PersistedState :=
  with_topicOrder [IdUndefined; IdStr "t1"] sample_data.

(** ** UI operations *)

Definition set_expanded (topics subTopics : gmap string bool) (s : Store) : Store :=
  set_data
    (with_expandedSubTopics subTopics (with_expandedTopics topics (data s))) s.

(** [!flags[id]]: a missing flag reads [undefined], whose negation is [true]. *)
Definition toggled (flags : gmap string bool) (id : string) : gmap string bool :=
  <[id := negb (default false (flags !! id))]> flags.

Definition toggleTopic (topicId : string) (s : Store) : Store :=
  set_data (with_expandedTopics (toggled (expandedTopics (data s)) topicId) (data s)) s.

Definition toggleSubTopic (subTopicId : string) (s : Store) : Store :=
  set_data
    (with_expandedSubTopics (toggled (expandedSubTopics (data s)) subTopicId) (data s)) s.

(** The body of the loop of [expandAllTopics] over [topicOrder]; the inner
    loop runs when the topic is found. *)
Definition expand_topic (topicsById : gmap string TopicEntity)
    (acc : gmap string bool * gmap string bool) (topicId : jsid)
    : gmap string bool * gmap string bool :=
  let expandedTopics := <[key_of topicId := true]> acc.1 in
  match topicsById !! key_of topicId with
  | Some topic =>
      (expandedTopics,
       foldl (fun m stId => <[key_of stId := true]> m) acc.2 (subTopicIds topic))
  | None => (expandedTopics, acc.2)
  end.

Definition expandAllTopics (s : Store) : Store :=
  let flags := foldl (expand_topic (topicsById (data s))) (∅, ∅) (topicOrder (data s)) in
  set_expanded flags.1 flags.2 s.

Definition collapseAllTopics (s : Store) : Store := set_expanded ∅ ∅ s.

(** [flags[id] ?? false] *)
Definition isTopicExpanded (s : Store) (topicId : string) : bool :=
  default false (expandedTopics (data s) !! topicId).

Definition isSubTopicExpanded (s : Store) (subTopicId : string) : bool :=
  default false (expandedSubTopics (data s) !! subTopicId).

(** The sub-topic ids listed by the topics of [topicOrder]. *)
Definition listed_subTopic_keys (d : PersistedState) : list string :=
  topicOrder d ≫= (fun topicId =>
    match topicsById d !! key_of topicId with
    | Some topic => key_of <$> subTopicIds topic
    | None => []
    end).

(** The fields that are neither of the two flag maps. *)
Definition same_graph (s s' : Store) : Prop :=
  topicsById (data s') = topicsById (data s)
  /\ subTopicsById (data s') = subTopicsById (data s)
  /\ questionsById (data s') = questionsById (data s)
  /\ topicOrder (data s') = topicOrder (data s)
  /\ _history s' = _history s
  /\ _historyIndex s' = _historyIndex s.

(** ** Topic names *)

(** Every topic is stored under its own [id], and no two topics have names
    that are equal once in lower case. *)
Definition unique_names (topics : gmap string TopicEntity) : Prop :=
  map_Forall (fun k t => topic_id t = k) topics
  /\ map_Forall (fun k1 t1 =>
       map_Forall (fun k2 t2 =>
         JsString.toLowerCase (topic_name t1) = JsString.toLowerCase (topic_name t2) ->
         k1 = k2) topics) topics.

Global Instance unique_names_dec topics : Decision (unique_names topics).
Proof. unfold unique_names. apply _. Defined.

Definition topic_names_unique (d : PersistedState) : Prop :=
  unique_names (topicsById d).

Definition store_names_unique (s : Store) : Prop :=
  topic_names_unique (data s) /\ Forall topic_names_unique (_history s).

Global Instance store_names_unique_dec s : Decision (store_names_unique s).
Proof. unfold store_names_unique, topic_names_unique. apply _. Defined.

(** An update that gives a new title and nothing else. *)
Definition title_only_update : QuestionUpdates :=
  mkQuestionUpdates (Some " Two Sum ") None None.

Definition retitled_store : Store :=
  after (UpdateQuestion "t1" "a" "q1" title_only_update) sample_store.

(** ** Ids made from names ([services/api-transformer.ts]) *)

(** [[a-z0-9]] *)
Definition is_slug_char (c : ascii) : bool :=
  let n := Ascii.nat_of_ascii c in
  bool_decide ((97 ≤ n ∧ n ≤ 122) ∨ (48 ≤ n ∧ n ≤ 57))%nat.

(** [.replace(/[^a-z0-9]+/g, '-')]: every maximal run of other characters
    becomes one dash.  [in_run] says that the character before was one of
    the run. *)
Fixpoint replace_runs (in_run : bool) (s : string) : string :=
  match s with
  | EmptyString => EmptyString
  | String c rest =>
      if is_slug_char c then String c (replace_runs false rest)
      else if in_run then replace_runs true rest
      else String "-" (replace_runs true rest)
  end.

Definition strip_leading_dash (s : string) : string :=
  match s with
  | String "-" rest => rest
  | _ => s
  end.

Fixpoint strip_trailing_dash (s : string) : string :=
  match s with
  | EmptyString => EmptyString
  | String "-" EmptyString => EmptyString
  | String c rest => String c (strip_trailing_dash rest)
  end.

(** [.replace(/^-|-$/g, '')]: a dash at the start and a dash at the end. *)
Definition strip_dashes (s : string) : string :=
  strip_trailing_dash (strip_leading_dash s).

Definition slugify (str : string) : string :=
  String.substring 0 50 (strip_dashes (replace_runs false (JsString.toLowerCase str))).

Definition generateTopicId (name : string) : string := "topic-" +:+ slugify name.

Definition generateSubTopicId (topicName subTopicName : string) : string :=
  "subtopic-" +:+ slugify topicName +:+ "-" +:+ slugify subTopicName.

(** A string of letters in lower case, digits and dashes. *)
Fixpoint slug_chars (s : string) : Prop :=
  match s with
  | EmptyString => True
  | String c rest => (is_slug_char c = true \/ c = "-"%char) /\ slug_chars rest
  end.

Definition starts_with_dash (s : string) : Prop :=
  match s with
  | String "-" _ => True
  | _ => False
  end.

Fixpoint no_double_dash (s : string) : Prop :=
  match s with
  | EmptyString => True
  | String c rest => (c = "-"%char -> ~ starts_with_dash rest) /\ no_double_dash rest
  end.

(** Every entity is stored under the id it holds. *)
Definition entity_ids_agree (d : PersistedState) : Prop :=
  map_Forall (fun k t => topic_id t = k) (topicsById d)
  /\ map_Forall (fun k st => subTopic_id st = k) (subTopicsById d)
  /\ map_Forall (fun k q => question_id q = k) (questionsById d).

Global Instance entity_ids_agree_dec d : Decision (entity_ids_agree d).
Proof. unfold entity_ids_agree. apply _. Defined.

(** The four fields that hold the graph. *)
Definition same_entities (d d' : PersistedState) : Prop :=
  topicsById d' = topicsById d
  /\ subTopicsById d' = subTopicsById d
  /\ questionsById d' = questionsById d
  /\ topicOrder d' = topicOrder d.

(** What the nested view holds for an id of the graph [d]: the question, the
    sub-topic and the topic stored under that id. *)
Definition nests_question (d : PersistedState) (v : jsid) (q : Question) : Prop :=
  v = IdStr (nested_question_id q)
  /\ questionsById d !! nested_question_id q = Some (stored_question q).

Definition nests_subTopic (d : PersistedState) (t : string) (v : jsid)
    (st : SubTopic) : Prop :=
  v = IdStr (nested_subTopic_id st)
  /\ subTopicsById d !! nested_subTopic_id st = Some (stored_subTopic t st)
  /\ Forall (fun q => questionsById d !! nested_question_id q
                      = Some (stored_question q)) (questions st).

Definition nests_topic (d : PersistedState) (v : jsid) (t : Topic) : Prop :=
  v = IdStr (nested_topic_id t)
  /\ topicsById d !! nested_topic_id t = Some (stored_topic t)
  /\ Forall (fun st =>
       subTopicsById d !! nested_subTopic_id st
       = Some (stored_subTopic (nested_topic_id t) st)
       /\ Forall (fun q => questionsById d !! nested_question_id q
                           = Some (stored_question q)) (questions st))
       (subTopics t).

Definition store_ids_agree (s : Store) : Prop :=
  entity_ids_agree (data s) /\ Forall entity_ids_agree (_history s).

Global Instance store_ids_agree_dec s : Decision (store_ids_agree s).
Proof. unfold store_ids_agree. apply _. Defined.

(** ** The filtered view ([App.tsx]) and the calls of the cards *)

(** [s.includes(q)]: [q] is found at some position of [s]. *)
Fixpoint includes (s q : string) : bool :=
  String.prefix q s
  || match s with
     | EmptyString => false
     | String _ rest => includes rest q
     end.

(** The predicate of the filter over the questions; [query] is the search
    text in lower case and trimmed. *)
Definition matches_filter (query difficultyFilter : string) (question : Question)
    : bool :=
  let matchesSearch :=
    String.eqb query "" || includes (JsString.toLowerCase (nested_title question)) query in
  let matchesDifficulty :=
    String.eqb difficultyFilter "All"
    || bool_decide (nested_difficulty question = Some difficultyFilter) in
  matchesSearch && matchesDifficulty.

Definition hasFilter (searchQuery difficultyFilter : string) : bool :=
  negb (String.eqb (JsString.trim (JsString.toLowerCase searchQuery)) "")
  || negb (String.eqb difficultyFilter "All").

Definition filtered_subTopic (query difficultyFilter : string) (subTopic : SubTopic)
    : SubTopic :=
  mkNestedSubTopic (nested_subTopic_id subTopic) (nested_subTopic_name subTopic)
    (subTopic_order subTopic)
    (filter (fun q => matches_filter query difficultyFilter q = true)
       (questions subTopic)).

Definition filtered_topic (query difficultyFilter : string) (topic : Topic) : Topic :=
  mkNestedTopic (nested_topic_id topic) (nested_topic_name topic) (topic_order topic)
    (filter (fun st => (0 < length (questions st))%nat)
       (filtered_subTopic query difficultyFilter <$> subTopics topic)).

(** [filteredTopics]: the nested view the sections are rendered from. *)
Definition filteredTopics (topics : list Topic) (searchQuery difficultyFilter : string)
    : list Topic :=
  let query := JsString.trim (JsString.toLowerCase searchQuery) in
  if negb (hasFilter searchQuery difficultyFilter) then topics
  else
    filter (fun t => (0 < length (subTopics t))%nat)
      (filtered_topic query difficultyFilter <$> topics).

(** The questions of a nested list with the ids of their topic and of their
    sub-topic, in the order they are shown. *)
Definition entries (topics : list Topic) : list (string * string * Question) :=
  topics ≫= (fun t =>
    subTopics t ≫= (fun st =>
      (fun q => (nested_topic_id t, nested_subTopic_id st, q)) <$> questions st)).

(** The delete calls of the cards rendered from a nested list: a section
    gives its sub-topic cards the [id] of its topic, and a sub-topic card
    gives its question items that id and the [id] of its sub-topic. *)
Definition card_deletes (topics : list Topic) : list Mutation :=
  topics ≫= (fun topic =>
    DeleteTopic (nested_topic_id topic)
    :: (subTopics topic ≫= (fun subTopic =>
          DeleteSubTopic (nested_topic_id topic) (nested_subTopic_id subTopic)
          :: ((fun question =>
                 DeleteQuestion (nested_topic_id topic) (nested_subTopic_id subTopic)
                   (nested_question_id question))
                <$> questions subTopic)))).

(** * Properties *)

(** ** Arrays *)

Section ArrayFacts.
Context {A : Type}.
Implicit Types (l : list A) (i : Z).

Lemma relative_index_nonneg (len : nat) i :
  0 <= i -> JsArray.relative_index len i = (Z.to_nat i `min` len)%nat.
Proof.
  intros Hi. unfold JsArray.relative_index.
  destruct (Z.ltb_spec i 0); lia.
Qed.

Lemma relative_index_neg (len : nat) i :
  i < 0 -> JsArray.relative_index len i = Z.to_nat (Z.of_nat len + i).
Proof.
  intros Hi. unfold JsArray.relative_index.
  destruct (Z.ltb_spec i 0); lia.
Qed.

Lemma relative_index_le (len : nat) i : (JsArray.relative_index len i <= len)%nat.
Proof.
  unfold JsArray.relative_index. destruct (Z.ltb_spec i 0); lia.
Qed.

Lemma slice_prefix l i : 0 <= i -> JsArray.slice l 0 i = take (Z.to_nat i) l.
Proof.
  intros Hi. unfold JsArray.slice.
  rewrite !relative_index_nonneg by lia. simpl. rewrite drop_0, Nat.sub_0_r.
  destruct (decide (Z.to_nat i <= length l)%nat).
  - by rewrite Nat.min_l.
  - rewrite Nat.min_r by lia.
    rewrite (take_ge l (length l)) by lia. by rewrite (take_ge l (Z.to_nat i)) by lia.
Qed.

Lemma slice_drop_last l x : JsArray.slice (l ++ [x]) 0 (-1) = l.
Proof.
  unfold JsArray.slice. rewrite (relative_index_nonneg _ 0) by lia.
  rewrite (relative_index_neg _ (-1)) by lia. simpl.
  rewrite drop_0, length_app. simpl.
  replace (Z.to_nat (Z.of_nat (length l + 1) + -1) - 0)%nat with (length l) by lia.
  by rewrite take_app_length.
Qed.

Lemma slice_from_drop l (k : nat) :
  JsArray.slice_from l (Z.of_nat k) = drop k l.
Proof.
  unfold JsArray.slice_from. rewrite relative_index_nonneg by lia.
  rewrite Nat2Z.id. destruct (decide (k <= length l)%nat).
  - by rewrite Nat.min_l.
  - rewrite Nat.min_r by lia.
    rewrite (drop_ge l (length l)) by lia. by rewrite (drop_ge l k) by lia.
Qed.

Lemma at_index_nat l (k : nat) : JsArray.at_index l (Z.of_nat k) = l !! k.
Proof.
  unfold JsArray.at_index. destruct (Z.ltb_spec (Z.of_nat k) 0); [lia |].
  by rewrite Nat2Z.id.
Qed.

Lemma at_index_last l x :
  JsArray.at_index (l ++ [x]) (Z.of_nat (length l)) = Some x.
Proof. rewrite at_index_nat. by rewrite list_lookup_middle. Qed.

Lemma last_drop l (k : nat) : (k < length l)%nat -> last (drop k l) = last l.
Proof.
  revert k. induction l as [|a l IH]; intros k Hk; simpl in *; [lia |].
  destruct k as [|k]; [done |]. simpl.
  rewrite IH by lia. destruct l; simpl in *; [lia | done].
Qed.

Lemma at_index_pred_length l :
  JsArray.at_index l (Z.of_nat (length l) - 1) = last l.
Proof.
  destruct l as [|a l] using rev_ind.
  - reflexivity.
  - rewrite length_app, last_snoc. simpl.
    replace (Z.of_nat (length l + 1) - 1) with (Z.of_nat (length l)) by lia.
    apply at_index_last.
Qed.
End ArrayFacts.

(** ** Snapshots *)

Lemma json_id_idemp v : json_id (json_id v) = json_id v.
Proof. by destruct v. Qed.

Lemma json_ids_strings (l : list jsid) : Forall is_string_id l -> json_id <$> l = l.
Proof.
  induction 1 as [|v l Hv _ IH]; [done |].
  rewrite fmap_cons, IH. by destruct v.
Qed.

Lemma json_topic_idemp t : json_topic (json_topic t) = json_topic t.
Proof.
  unfold json_topic. simpl. f_equal.
  rewrite <- list_fmap_compose. apply list_fmap_ext. intros ? v _. apply json_id_idemp.
Qed.

Lemma json_subTopic_idemp st : json_subTopic (json_subTopic st) = json_subTopic st.
Proof.
  unfold json_subTopic. simpl. f_equal.
  rewrite <- list_fmap_compose. apply list_fmap_ext. intros ? v _. apply json_id_idemp.
Qed.

Lemma fmap_json_question (m : gmap string QuestionEntity) : json_question <$> m = m.
Proof. apply map_fmap_id. Qed.

Lemma applySnapshot_createSnapshot s : applySnapshot (createSnapshot s) = json_data (data s).
Proof.
  unfold applySnapshot, createSnapshot, json_data. simpl.
  rewrite !fmap_json_question. f_equal.
  - rewrite <- map_fmap_compose. apply map_fmap_ext. intros ? t _. apply json_topic_idemp.
  - rewrite <- map_fmap_compose. apply map_fmap_ext. intros ? t _. apply json_subTopic_idemp.
Qed.

Lemma json_data_strings d : ids_are_strings d -> json_data d = d.
Proof.
  intros [Ht Hst]. destruct d as [tm sm qm o et es]. unfold json_data. simpl in *.
  f_equal.
  - apply map_eq. intros k. rewrite lookup_fmap.
    destruct (tm !! k) as [t|] eqn:E; [simpl | done].
    f_equal. destruct t as [i n l]. unfold json_topic. simpl. f_equal.
    apply json_ids_strings. apply (Ht k _ E).
  - apply map_eq. intros k. rewrite lookup_fmap.
    destruct (sm !! k) as [t|] eqn:E; [simpl | done].
    f_equal. destruct t as [i n p l]. unfold json_subTopic. simpl. f_equal.
    apply json_ids_strings. apply (Hst k _ E).
Qed.

(** ** History manager *)

Lemma evict_drop l :
  evict l = drop (length l - Z.to_nat MAX_HISTORY_SIZE) l.
Proof.
  unfold evict, MAX_HISTORY_SIZE.
  destruct (Z.gtb_spec (Z.of_nat (length l)) 20) as [Hgt|Hle].
  - replace (Z.of_nat (length l) - 20) with (Z.of_nat (length l - Z.to_nat 20)) by lia.
    apply slice_from_drop.
  - replace (length l - Z.to_nat 20)%nat with 0%nat by lia. by rewrite drop_0.
Qed.

Lemma evict_length l : Z.of_nat (length (evict l)) <= MAX_HISTORY_SIZE.
Proof.
  rewrite evict_drop, length_drop. unfold MAX_HISTORY_SIZE. lia.
Qed.

Lemma evict_suffix l : evict l `suffix_of` l.
Proof. rewrite evict_drop. apply suffix_drop. Qed.

Lemma evict_last l x : last (evict (l ++ [x])) = Some x.
Proof.
  rewrite evict_drop, last_drop.
  - apply last_snoc.
  - rewrite length_app. simpl. unfold MAX_HISTORY_SIZE. lia.
Qed.

Lemma evict_nonempty l x : evict (l ++ [x]) <> [].
Proof. intros E. pose proof (evict_last l x) as H. by rewrite E in H. Qed.

Lemma recordHistory_eq s :
  _isUndoRedo s = false ->
  _recordHistory s = set_history (evict (kept_history s ++ [createSnapshot s])) (-1) s.
Proof. intros Hf. unfold _recordHistory. by rewrite Hf. Qed.

Lemma data_recordHistory s : data (_recordHistory s) = data s.
Proof. unfold _recordHistory. by destruct (_isUndoRedo s). Qed.

Lemma isUndoRedo_recordHistory s : _isUndoRedo (_recordHistory s) = _isUndoRedo s.
Proof. unfold _recordHistory. by destruct (_isUndoRedo s) eqn:E. Qed.

Lemma historyIndex_recordHistory s :
  _isUndoRedo s = false -> _historyIndex (_recordHistory s) = -1.
Proof. intros Hf. by rewrite recordHistory_eq. Qed.

Lemma history_recordHistory_last s :
  _isUndoRedo s = false -> last (_history (_recordHistory s)) = Some (createSnapshot s).
Proof. intros Hf. rewrite recordHistory_eq by done. apply evict_last. Qed.

Lemma recordHistory_length s :
  Z.of_nat (length (_history (_recordHistory s))) <= MAX_HISTORY_SIZE
  \/ _recordHistory s = s.
Proof.
  destruct (_isUndoRedo s) eqn:Hf.
  - right. unfold _recordHistory. by rewrite Hf.
  - left. rewrite recordHistory_eq by done. apply evict_length.
Qed.

Lemma set_data_data s : set_data (data s) s = s.
Proof. by destruct s. Qed.

(** Undoing from the present: the current state is pushed and the last
    recorded snapshot comes back. *)
Lemma undo_at_present s p :
  _historyIndex s = -1 ->
  last (_history s) = Some p ->
  undo s = mkStore (applySnapshot p) (loading s) (store_error s) (_hasHydrated s)
             (_history s ++ [createSnapshot s]) (Z.of_nat (length (_history s)) - 1) false.
Proof.
  intros Hi Hl. unfold undo, canUndo. rewrite Hi. simpl.
  assert (length (_history s) <> 0%nat) as Hlen.
  { intros E. apply nil_length_inv in E. by rewrite E in Hl. }
  destruct (Z.gtb_spec (Z.of_nat (length (_history s))) 0) as [_|]; [simpl | lia].
  replace (Z.of_nat (length (_history s)) - 1)
    with (Z.of_nat (length (_history s) - 1)) by lia.
  rewrite at_index_nat, lookup_app_l by lia.
  rewrite last_lookup in Hl.
  replace (pred (length (_history s))) with (length (_history s) - 1)%nat in Hl by lia.
  by rewrite Hl.
Qed.

(** Redoing right after that undo: the pushed snapshot is applied and
    dropped, and the cursor is back at the present. *)
Lemma redo_after_undo s p :
  _historyIndex s = -1 ->
  last (_history s) = Some p ->
  redo (undo s) = mkStore (json_data (data s)) (loading s) (store_error s)
                    (_hasHydrated s) (_history s) (-1) false.
Proof.
  intros Hi Hl. rewrite (undo_at_present s p) by done.
  assert (length (_history s) <> 0%nat) as Hlen.
  { intros E. apply nil_length_inv in E. by rewrite E in Hl. }
  unfold redo, canRedo. simpl. rewrite length_app. simpl.
  destruct (Z.geb_spec (Z.of_nat (length (_history s)) - 1) 0) as [_|]; [simpl | lia].
  destruct (Z.ltb_spec (Z.of_nat (length (_history s)) - 1)
              (Z.of_nat (length (_history s) + 1) - 1)) as [_|]; [simpl | lia].
  replace (Z.of_nat (length (_history s)) - 1 + 1)
    with (Z.of_nat (length (_history s))) by lia.
  rewrite at_index_last.
  destruct (Z.eqb_spec (Z.of_nat (length (_history s)))
              (Z.of_nat (length (_history s) + 1) - 1)) as [_|]; [| lia].
  unfold set_history, set_isUndoRedo, set_data. simpl.
  by rewrite slice_drop_last, applySnapshot_createSnapshot.
Qed.

(** ** Shape of the operations *)

Ltac unfold_operation :=
  unfold addTopic, updateTopic, deleteTopic, reorderTopics, addSubTopic,
    updateSubTopic, deleteSubTopic, reorderSubTopics, moveSubTopicToTopic,
    addQuestion, updateQuestion, deleteQuestion, reorderQuestions,
    moveQuestionToSubTopic, returns, returns_void;
  cbv zeta; rewrite ?data_recordHistory.

(** Every call either gives the store back as it was, without reporting
    success, or records history and then replaces persisted fields.  In
    particular no call raises. *)
Lemma apply_cases newURL m s :
  (exists r, apply newURL m s = Normal (s, r) /\ r <> Some succeeded)
  \/ (exists d r, apply newURL m s = Normal (set_data d (_recordHistory s), r)
                  /\ (r = Some succeeded \/ r = None)).
Proof.
  destruct m; simpl; unfold_operation; repeat case_match;
    first
      [ left; eexists; split; [reflexivity | discriminate]
      | right; do 2 eexists; split; [reflexivity | auto]
      | right; exists (data (_recordHistory s)); eexists;
        rewrite set_data_data; split; [reflexivity | auto] ].
Qed.

(** No call raises. *)
Lemma apply_returns newURL m s : exists s' r, apply newURL m s = Normal (s', r).
Proof.
  destruct (apply_cases newURL m s) as [(r & E & _)|(d & r & E & _)]; eauto.
Qed.

(** A call that reports a failure gives the store back as it was. *)
Lemma structured_failure_leaves_store newURL m s s' e :
  apply newURL m s = Normal (s', Some (failed e)) -> s' = s.
Proof.
  intros Happ.
  destruct (apply_cases newURL m s) as [(r & E & _)|(d & r & E & [->| ->])];
    rewrite E in Happ; by inversion Happ.
Qed.

Lemma took_effect_recorded newURL m s s' r :
  apply newURL m s = Normal (s', r) ->
  took_effect s s' r ->
  exists d, s' = set_data d (_recordHistory s).
Proof.
  intros Happ Heff.
  destruct (apply_cases newURL m s) as [(r0 & E & Hr)|(d & r0 & E & _)];
    rewrite E in Happ; inversion Happ; subst.
  - destruct Heff as [->|Hd]; [by destruct Hr | by destruct Hd].
  - by exists d.
Qed.

Lemma after_commit_history s d :
  _isUndoRedo s = false ->
  _historyIndex (set_data d (_recordHistory s)) = -1
  /\ last (_history (set_data d (_recordHistory s))) = Some (createSnapshot s)
  /\ _isUndoRedo (set_data d (_recordHistory s)) = false.
Proof.
  intros Hf. simpl.
  rewrite historyIndex_recordHistory, history_recordHistory_last,
    isUndoRedo_recordHistory by done.
  done.
Qed.

(** Undo after a committed mutation, without any assumption on what the id
    arrays hold: the state before the mutation comes back as JSON leaves it. *)
Lemma undo_after_mutation_json newURL m s s' r :
  _isUndoRedo s = false ->
  apply newURL m s = Normal (s', r) ->
  took_effect s s' r ->
  data (undo s') = json_data (data s)
  /\ data (redo (undo s')) = json_data (data s').
Proof.
  intros Hf Happ Heff.
  destruct (took_effect_recorded _ _ _ _ _ Happ Heff) as [d ->].
  destruct (after_commit_history s d Hf) as (Hi & Hl & _).
  split.
  - rewrite (undo_at_present _ _ Hi Hl). simpl. apply applySnapshot_createSnapshot.
  - by rewrite (redo_after_undo _ _ Hi Hl).
Qed.

(** ** Redo after a new edit *)

Lemma canRedo_at_present s : _historyIndex s = -1 -> canRedo s = false.
Proof. intros Hi. unfold canRedo. by rewrite Hi. Qed.

Lemma redo_no_canRedo s : canRedo s = false -> redo s = s.
Proof. intros H. unfold redo. by rewrite H. Qed.

Lemma undo_idle s : _isUndoRedo s = false -> _isUndoRedo (undo s) = false.
Proof.
  intros Hf. unfold undo. destruct (canUndo s); [simpl | done].
  by case_match.
Qed.

Lemma redo_idle s : _isUndoRedo s = false -> _isUndoRedo (redo s) = false.
Proof.
  intros Hf. unfold redo. destruct (canRedo s); [simpl | done].
  by case_match.
Qed.

Lemma kept_history_after_undo s p :
  _historyIndex s = -1 ->
  last (_history s) = Some p ->
  kept_history (undo s) = _history s.
Proof.
  intros Hi Hl. rewrite (undo_at_present s p) by done.
  assert (length (_history s) <> 0%nat) as Hlen.
  { intros E. apply nil_length_inv in E. by rewrite E in Hl. }
  unfold kept_history. simpl.
  destruct (Z.geb_spec (Z.of_nat (length (_history s)) - 1) 0) as [_|]; [| lia].
  rewrite slice_prefix by lia.
  replace (Z.to_nat (Z.of_nat (length (_history s)) - 1 + 1))
    with (length (_history s)) by lia.
  by rewrite take_app_length.
Qed.

Lemma canRedo_after_undo s p :
  _historyIndex s = -1 ->
  last (_history s) = Some p ->
  canRedo (undo s) = true.
Proof.
  intros Hi Hl. rewrite (undo_at_present s p) by done.
  assert (length (_history s) <> 0%nat) as Hlen.
  { intros E. apply nil_length_inv in E. by rewrite E in Hl. }
  unfold canRedo. simpl. rewrite length_app. simpl.
  apply andb_true_iff. split; [apply Z.geb_le | apply Z.ltb_lt]; lia.
Qed.

(** C3. Redo-stack invalidation: after a mutation, an undo and a second
    mutation, both of which took effect, [canRedo] is false, although it was
    true right after the undo, and [redo] leaves the store as it is.  The
    history no longer holds the snapshot the undo had pushed for the result
    of the first mutation: it is the history after the first mutation with a
    snapshot of the undone state appended. *)
Theorem redo_stack_invalidation newURL m1 m2 s s1 r1 s3 r2 :
  _isUndoRedo s = false ->
  apply newURL m1 s = Normal (s1, r1) ->
  took_effect s s1 r1 ->
  apply newURL m2 (undo s1) = Normal (s3, r2) ->
  took_effect (undo s1) s3 r2 ->
  canRedo (undo s1) = true
  /\ canRedo s3 = false
  /\ redo s3 = s3
  /\ _history s3 = evict (_history s1 ++ [createSnapshot (undo s1)]).
Proof.
  intros Hf Happ1 Heff1 Happ2 Heff2.
  destruct (took_effect_recorded _ _ _ _ _ Happ1 Heff1) as [d1 ->].
  destruct (after_commit_history s d1 Hf) as (Hi1 & Hl1 & Hf1).
  destruct (took_effect_recorded _ _ _ _ _ Happ2 Heff2) as [d2 ->].
  pose proof (undo_idle _ Hf1) as Hfu.
  destruct (after_commit_history _ d2 Hfu) as (Hi3 & _ & _).
  split; [by eapply canRedo_after_undo |].
  split; [by apply canRedo_at_present |].
  split; [by apply redo_no_canRedo, canRedo_at_present |].
  simpl. rewrite (recordHistory_eq _ Hfu). simpl.
  by rewrite (kept_history_after_undo _ _ Hi1 Hl1).
Qed.

Lemma redo_stack_invalidation_witness :
  exists s1 s3,
    apply scheme_only_URL (DeleteTopic "t1") sample_store = Normal (s1, None)
    /\ apply scheme_only_URL (AddTopic "Graphs" "t2") (undo s1)
       = Normal (s3, Some succeeded)
    /\ canRedo (undo s1) = true
    /\ canRedo s3 = false
    /\ redo s3 = s3
    /\ _history s3 = evict (_history s1 ++ [createSnapshot (undo s1)]).
Proof.
  do 2 eexists.
  split; [vm_compute; reflexivity |].
  split; [vm_compute; reflexivity |].
  apply (redo_stack_invalidation scheme_only_URL (DeleteTopic "t1")
           (AddTopic "Graphs" "t2") sample_store _ None _ (Some succeeded)).
  - reflexivity.
  - vm_compute. reflexivity.
  - right. intros E. apply (f_equal topicOrder) in E. vm_compute in E. discriminate.
  - vm_compute. reflexivity.
  - left. reflexivity.
Defined.

(** The same for every call, whether or not it changed the persisted
    fields: a call either gives back the very store it was called on, when it
    is refused, or has recorded history, and then nothing is left to redo. *)
Lemma redo_after_any_call newURL m s s' r :
  _isUndoRedo s = false ->
  apply newURL m s = Normal (s', r) ->
  s' = s \/ (canRedo s' = false /\ redo s' = s').
Proof.
  intros Hf Happ.
  destruct (apply_cases newURL m s) as [(r0 & E & _)|(d & r0 & E & _)];
    rewrite E in Happ; inversion Happ; subst; [by left | right].
  destruct (after_commit_history s d Hf) as (Hi & _ & _).
  split; [by apply canRedo_at_present | by apply redo_no_canRedo, canRedo_at_present].
Qed.

(** ** The bound on the history *)

Lemma undo_no_canUndo s : canUndo s = false -> undo s = s.
Proof. intros H. unfold undo. by rewrite H. Qed.

Lemma undo_times_S n s : undo_times (S n) s = undo_times n (undo s).
Proof. unfold undo_times. apply Nat.iter_succ_r. Qed.

Lemma undo_times_fixed n s : canUndo s = false -> undo_times n s = s.
Proof.
  intros H. induction n as [|n IH]; [done |].
  by rewrite undo_times_S, undo_no_canUndo.
Qed.

(** One step back from a cursor inside the list. *)
Lemma undo_in_past s (i : nat) p :
  _historyIndex s = Z.of_nat (S i) ->
  _history s !! i = Some p ->
  undo s = mkStore (applySnapshot p) (loading s) (store_error s) (_hasHydrated s)
             (_history s) (Z.of_nat i) false.
Proof.
  intros Hi Hp. unfold undo, canUndo. rewrite Hi.
  destruct (Z.eqb_spec (Z.of_nat (S i)) (-1)) as [|_]; [lia |].
  destruct (Z.gtb_spec (Z.of_nat (S i)) 0) as [_|]; [simpl | lia].
  replace (Z.of_nat (S i) - 1) with (Z.of_nat i) by lia.
  by rewrite at_index_nat, Hp.
Qed.

Lemma canUndo_floor s : _historyIndex s = 0 -> canUndo s = false.
Proof. intros Hi. unfold canUndo. by rewrite Hi. Qed.

(** From a cursor at position [i], [i] calls of [undo] reach position 0 and
    the first snapshot of the list, and no call goes further. *)
Lemma undo_times_in_past (i : nat) : forall s n,
  _historyIndex s = Z.of_nat i ->
  (i < length (_history s))%nat ->
  (i <= n)%nat ->
  _historyIndex (undo_times n s) = 0
  /\ _history (undo_times n s) = _history s
  /\ undo_times n s = undo_times i s
  /\ ((0 < i)%nat -> forall p, _history s !! 0%nat = Some p ->
        data (undo_times n s) = applySnapshot p).
Proof.
  induction i as [|i IH]; intros s n Hi Hlen Hn.
  - rewrite !undo_times_fixed by by apply canUndo_floor.
    repeat split; [done | lia].
  - destruct n as [|n]; [lia |].
    destruct (lookup_lt_is_Some_2 (_history s) i) as [p Hp]; [lia |].
    rewrite !undo_times_S, (undo_in_past s i p Hi Hp).
    set (u := mkStore _ _ _ _ _ _ _).
    destruct (IH u n) as (H1 & H2 & H3 & H4); [done | simpl; lia | lia |].
    rewrite H1, H2, H3. repeat split; [done..|].
    intros _ p0 Hp0. rewrite <- H3.
    destruct i as [|i].
    + rewrite undo_times_fixed by by apply canUndo_floor.
      simpl. congruence.
    + apply H4; [lia | done].
Qed.

(** From the present, as many calls of [undo] as there are snapshots reach
    the oldest one, and no call goes further. *)
Lemma undo_times_at_present s n :
  _historyIndex s = -1 ->
  (length (_history s) <= n)%nat ->
  undo_times n s = undo_times (length (_history s)) s
  /\ canUndo (undo_times n s) = false
  /\ (forall p, _history s !! 0%nat = Some p ->
        _historyIndex (undo_times n s) = 0
        /\ data (undo_times n s) = applySnapshot p).
Proof.
  intros Hi Hn.
  destruct (_history s) as [|a h] eqn:Eh using rev_ind.
  - assert (canUndo s = false) as Hc by (unfold canUndo; by rewrite Hi, Eh).
    rewrite !undo_times_fixed by done. repeat split; done.
  - clear IHh. assert (last (_history s) = Some a) as Hl by by rewrite Eh, last_snoc.
    rewrite length_app in *. simpl in *.
    destruct n as [|n]; [lia |].
    replace (length h + 1)%nat with (S (length h)) by lia.
    rewrite !undo_times_S, (undo_at_present s a Hi Hl), Eh.
    set (u := mkStore _ _ _ _ _ _ _).
    destruct (undo_times_in_past (length h) u n) as (H1 & H2 & H3 & H4).
    + subst u. simpl. rewrite length_app. simpl. lia.
    + subst u. simpl. rewrite !length_app. simpl. lia.
    + lia.
    + split; [done |]. split; [by apply canUndo_floor |].
      intros q Hq. split; [done |].
      destruct h as [|b h].
      * rewrite H3. simpl in *. congruence.
      * apply H4; [simpl; lia |]. subst u. simpl in *. done.
Qed.

(** C6. History bound: recording never leaves more than 20 snapshots: it
    leaves one more than it kept, or 20 when that would be more.  What it
    leaves is a suffix of the list it built, so the oldest entries are the
    ones dropped.  After a recorded mutation (the recorded store with
    any persisted fields [d]), 20 or more calls of [undo] give the same store
    as 20 calls: [canUndo] is false there, the cursor is on position 0 and
    the state is the oldest snapshot kept. *)
Theorem history_bound s :
  _isUndoRedo s = false ->
  Z.of_nat (length (_history (_recordHistory s))) <= MAX_HISTORY_SIZE
  /\ Z.of_nat (length (_history (_recordHistory s)))
     = Z.min MAX_HISTORY_SIZE (Z.of_nat (length (kept_history s)) + 1)
  /\ _history (_recordHistory s) `suffix_of` (kept_history s ++ [createSnapshot s])
  /\ forall d n, (Z.to_nat MAX_HISTORY_SIZE <= n)%nat ->
       undo_times n (set_data d (_recordHistory s))
       = undo_times (Z.to_nat MAX_HISTORY_SIZE) (set_data d (_recordHistory s))
       /\ canUndo (undo_times n (set_data d (_recordHistory s))) = false
       /\ _historyIndex (undo_times n (set_data d (_recordHistory s))) = 0
       /\ Some (data (undo_times n (set_data d (_recordHistory s))))
          = applySnapshot <$> head (_history (_recordHistory s)).
Proof.
  intros Hf. rewrite (recordHistory_eq s Hf).
  split; [apply evict_length |].
  split.
  { cbn [_history set_history]. rewrite evict_drop, length_drop, length_app.
    unfold MAX_HISTORY_SIZE. simpl. lia. }
  split; [apply evict_suffix |].
  intros d n Hn.
  set (s1 := set_data d _).
  assert (_historyIndex s1 = -1) as Hi by done.
  assert (length (_history s1) <= Z.to_nat MAX_HISTORY_SIZE)%nat as Hlen.
  { pose proof (evict_length (kept_history s ++ [createSnapshot s])) as Hev.
    change (_history s1) with (evict (kept_history s ++ [createSnapshot s])). lia. }
  destruct (undo_times_at_present s1 n Hi) as (E1 & E2 & E4); [lia |].
  destruct (undo_times_at_present s1 (Z.to_nat MAX_HISTORY_SIZE) Hi) as (E3 & _ & _);
    [lia |].
  split; [by rewrite E1, E3 |]. split; [done |].
  destruct (_history s1) as [|p h] eqn:Eh.
  { by destruct (evict_nonempty (kept_history s) (createSnapshot s)). }
  destruct (E4 p) as [E5 E6]; [done |].
  split; [done |].
  change (_history (set_history (evict (kept_history s ++ [createSnapshot s])) (-1) s))
    with (_history s1).
  rewrite Eh. simpl. by rewrite E6.
Qed.

(** On a store whose history is full, recording drops the oldest snapshot,
    the empty graph, and keeps twenty. *)
Lemma history_bound_witness :
  length (_history full_history_store) = 20%nat
  /\ head (_history full_history_store) = Some empty_data
  /\ length (_history (_recordHistory full_history_store)) = 20%nat
  /\ head (_history (_recordHistory full_history_store)) = Some move_data
  /\ last (_history (_recordHistory full_history_store)) = Some sample_data
  /\ Z.of_nat (length (_history (_recordHistory full_history_store))) <= MAX_HISTORY_SIZE
  /\ Z.of_nat (length (_history (_recordHistory full_history_store)))
     = Z.min MAX_HISTORY_SIZE (Z.of_nat (length (kept_history full_history_store)) + 1)
  /\ _history (_recordHistory full_history_store)
       `suffix_of` (kept_history full_history_store
                      ++ [createSnapshot full_history_store])
  /\ forall d n, (Z.to_nat MAX_HISTORY_SIZE <= n)%nat ->
       undo_times n (set_data d (_recordHistory full_history_store))
       = undo_times (Z.to_nat MAX_HISTORY_SIZE)
           (set_data d (_recordHistory full_history_store))
       /\ canUndo (undo_times n (set_data d (_recordHistory full_history_store))) = false
       /\ _historyIndex (undo_times n (set_data d (_recordHistory full_history_store))) = 0
       /\ Some (data (undo_times n (set_data d (_recordHistory full_history_store))))
          = applySnapshot <$> head (_history (_recordHistory full_history_store)).
Proof.
  split; [reflexivity |]. split; [reflexivity |].
  split; [vm_compute; reflexivity |]. split; [vm_compute; reflexivity |].
  split; [vm_compute; reflexivity |].
  apply (history_bound full_history_store). reflexivity.
Defined.

(** ** Cascade delete *)

Lemma delete_all_lookup {V} (ids : list jsid) (m : gmap string V) k :
  delete_all ids m !! k = if decide (k ∈ key_of <$> ids) then None else m !! k.
Proof.
  unfold delete_all. revert m. induction ids as [|a ids IH]; intros m; cbn [foldl].
  - case_decide as H; [by apply elem_of_nil in H | done].
  - rewrite IH, fmap_cons.
    destruct (decide (k ∈ key_of <$> ids)) as [H1|H1];
      destruct (decide (k ∈ key_of a :: (key_of <$> ids))) as [H2|H2]; try done.
    + destruct H2. by apply list_elem_of_further.
    + apply elem_of_cons in H2 as [->|H2]; [| done]. apply lookup_delete_eq.
    + apply lookup_delete_ne. intros E. apply H2. rewrite E. apply list_elem_of_here.
Qed.

Lemma delete_all_lookup_elem {V} (ids : list jsid) (m : gmap string V) id :
  id ∈ ids -> delete_all ids m !! key_of id = None.
Proof.
  intros Hin. rewrite delete_all_lookup. case_decide as H; [done |].
  destruct H. by apply list_elem_of_fmap_2.
Qed.

Lemma elem_of_questions_of subTopics ids q :
  q ∈ questions_of subTopics ids <->
  exists stId st, stId ∈ ids /\ subTopics !! key_of stId = Some st /\ q ∈ questionIds st.
Proof.
  unfold questions_of. rewrite list_elem_of_bind. split.
  - intros (stId & Hq & Hin). destruct (subTopics !! key_of stId) as [st|] eqn:E.
    + by exists stId, st.
    + by apply elem_of_nil in Hq.
  - intros (stId & st & Hin & E & Hq). exists stId. by rewrite E.
Qed.

Lemma canUndo_after_commit s d :
  _isUndoRedo s = false -> canUndo (set_data d (_recordHistory s)) = true.
Proof.
  intros Hf. destruct (after_commit_history s d Hf) as (Hi & Hl & _).
  unfold canUndo. rewrite Hi. simpl in *.
  destruct (_history (_recordHistory s)) eqn:E; [done |].
  apply Z.gtb_lt. simpl. lia.
Qed.

Lemma listed_subTopic_key_fmap topic k :
  listed_subTopic_key topic k <-> k ∈ key_of <$> subTopicIds topic.
Proof.
  unfold listed_subTopic_key. rewrite list_elem_of_fmap. split.
  - intros (stId & Hin & <-). eauto.
  - intros (stId & -> & Hin). eauto.
Qed.

Lemma listed_question_key_fmap d topic k :
  listed_question_key d topic k
  <-> k ∈ key_of <$> questions_of (subTopicsById d) (subTopicIds topic).
Proof.
  unfold listed_question_key. rewrite list_elem_of_fmap. split.
  - intros (stId & st & qId & Hin & Hst & Hq & <-). exists qId. split; [done |].
    apply elem_of_questions_of. eauto.
  - intros (qId & -> & Hq). apply elem_of_questions_of in Hq as (stId & st & ? & ? & ?).
    by exists stId, st, qId.
Qed.

Lemma delete_all_lookup_Some {V} (ids : list jsid) (m : gmap string V) k v :
  delete_all ids m !! k = Some v <-> (k ∉ key_of <$> ids) /\ m !! k = Some v.
Proof.
  rewrite delete_all_lookup. case_decide as H; [| tauto].
  split; [done | by intros [? _]].
Qed.

(** C5. Cascade delete: deleting an existing topic returns, and afterwards
    each of the three maps holds what it held before without what the
    deletion is about, no more and no less: [topicsById] without the topic,
    [subTopicsById] without the sub-topics the topic lists, [questionsById]
    without the questions those sub-topics list.  [topicOrder] is the order
    from before without the id of the topic, and the flag maps have lost the
    flags of the topic and of its sub-topics only.  Then [canUndo] is true
    and [undo] brings the state before the deletion back: the state as JSON
    leaves it, which is that very state, with all the entities deleted, when
    the id arrays of the entities hold strings. *)
Theorem cascade_delete id topic s :
  _isUndoRedo s = false ->
  topicsById (data s) !! id = Some topic ->
  exists s',
    deleteTopic id s = Normal (s', None)
    /\ (forall k t,
          topicsById (data s') !! k = Some t
          <-> k <> id /\ topicsById (data s) !! k = Some t)
    /\ (forall k st,
          subTopicsById (data s') !! k = Some st
          <-> ~ listed_subTopic_key topic k /\ subTopicsById (data s) !! k = Some st)
    /\ (forall k q,
          questionsById (data s') !! k = Some q
          <-> ~ listed_question_key (data s) topic k
              /\ questionsById (data s) !! k = Some q)
    /\ topicOrder (data s') = filter (fun tId => tId <> IdStr id) (topicOrder (data s))
    /\ (forall k b,
          expandedTopics (data s') !! k = Some b
          <-> k <> id /\ expandedTopics (data s) !! k = Some b)
    /\ (forall k b,
          expandedSubTopics (data s') !! k = Some b
          <-> ~ listed_subTopic_key topic k /\ expandedSubTopics (data s) !! k = Some b)
    /\ canUndo s' = true
    /\ data (undo s') = json_data (data s)
    /\ (ids_are_strings (data s) -> data (undo s') = data s).
Proof.
  intros Hf Ht. unfold deleteTopic. cbv zeta. rewrite Ht, data_recordHistory.
  eexists. split; [reflexivity |].
  destruct (after_commit_history s
    (mkPersisted (delete id (topicsById (data s)))
       (delete_all (subTopicIds topic) (subTopicsById (data s)))
       (delete_all (questions_of (subTopicsById (data s)) (subTopicIds topic))
          (questionsById (data s)))
       (filter (fun tId => tId <> IdStr id) (topicOrder (data s)))
       (delete id (expandedTopics (data s)))
       (delete_all (subTopicIds topic) (expandedSubTopics (data s)))) Hf)
    as (Hi & Hl & _).
  cbn [data set_data topicsById subTopicsById questionsById topicOrder
         expandedTopics expandedSubTopics].
  split; [intros k t; rewrite lookup_delete_Some; intuition congruence |].
  split.
  { intros k st. by rewrite delete_all_lookup_Some, listed_subTopic_key_fmap. }
  split.
  { intros k q. by rewrite delete_all_lookup_Some, listed_question_key_fmap. }
  split; [done |].
  split; [intros k b; rewrite lookup_delete_Some; intuition congruence |].
  split.
  { intros k b. by rewrite delete_all_lookup_Some, listed_subTopic_key_fmap. }
  split; [by apply canUndo_after_commit |].
  rewrite (undo_at_present _ _ Hi Hl). cbn [data].
  rewrite applySnapshot_createSnapshot.
  split; [done |]. apply json_data_strings.
Qed.

(** The topic with two sub-topics of three and two questions, deleted from
    beside a second topic: the eight entities go, the three of the second
    topic stay, and [undo] brings all eleven back. *)
Lemma cascade_delete_witness :
  exists s',
    deleteTopic "t1" two_topics_store = Normal (s', None)
    /\ size (topicsById (data two_topics_store)) = 2%nat
    /\ size (subTopicsById (data two_topics_store)) = 3%nat
    /\ size (questionsById (data two_topics_store)) = 6%nat
    /\ data s' = second_topic_data
    /\ canUndo s' = true
    /\ data (undo s') = data two_topics_store.
Proof.
  destruct (cascade_delete "t1" (mkTopic "t1" "Arrays" [IdStr "a"; IdStr "b"])
              two_topics_store)
    as (s' & E & _ & _ & _ & _ & _ & _ & Hc & _ & Hu).
  - reflexivity.
  - vm_compute. reflexivity.
  - exists s'. split; [exact E |].
    split; [vm_compute; reflexivity |].
    split; [vm_compute; reflexivity |].
    split; [vm_compute; reflexivity |].
    split.
    + vm_compute in E. inversion E. vm_compute. reflexivity.
    + split; [exact Hc |]. apply Hu. apply (bool_decide_unpack _). vm_compute. exact I.
Defined.

(** ** Moves across containers *)

Lemma filter_ne_head (x : jsid) l :
  filter (fun id => id <> x) (x :: l) = filter (fun id => id <> x) l.
Proof. by rewrite filter_cons_False by (intros H; by apply H). Qed.

Lemma filter_ne_other (x y : jsid) l :
  y <> x -> filter (fun id => id <> x) (y :: l) = y :: filter (fun id => id <> x) l.
Proof. intros H. by rewrite filter_cons_True. Qed.

(** C4. Cross-container move: with [q1, q2] in sub-topic [A], [q3] in another
    sub-topic [B], and [q1] an existing question that is not [q2], moving [q1]
    from [A] to [B] at index 0 leaves [q2] in [A] and [q1, q3] in [B].  When
    [A] was the only sub-topic that listed [q1], [B] is afterwards the one
    sub-topic that lists it.  Nothing else changes: [A] and [B] keep their
    other fields, and the store is the one with history recorded and the two
    sub-topics replaced. *)
Theorem cross_container_move s A B a b q1 q2 q3 question :
  subTopicsById (data s) !! A = Some a ->
  questionIds a = [IdStr q1; IdStr q2] ->
  subTopicsById (data s) !! B = Some b ->
  questionIds b = [IdStr q3] ->
  A <> B ->
  q1 <> q2 ->
  questionsById (data s) !! q1 = Some question ->
  exists s' a' b',
    moveQuestionToSubTopic q1 A B 0 s = Normal (s', None)
    /\ subTopicsById (data s') !! A = Some a'
    /\ questionIds a' = [IdStr q2]
    /\ subTopicsById (data s') !! B = Some b'
    /\ questionIds b' = [IdStr q1; IdStr q3]
    /\ ((forall C c, subTopicsById (data s) !! C = Some c ->
           IdStr q1 ∈ questionIds c -> C = A) ->
        forall C c, subTopicsById (data s') !! C = Some c ->
          (IdStr q1 ∈ questionIds c <-> C = B))
    /\ a' = subTopic_with_questionIds [IdStr q2] a
    /\ b' = subTopic_with_questionIds [IdStr q1; IdStr q3] b
    /\ s' = set_data
              (with_subTopicsById (<[B := b']> (<[A := a']> (subTopicsById (data s))))
                 (data s))
              (_recordHistory s).
Proof.
  intros HA Ha HB Hb HAB Hq Hquestion.
  unfold moveQuestionToSubTopic. cbv zeta.
  rewrite data_recordHistory, HA, HB, Hquestion.
  rewrite bool_decide_eq_true_2 by (rewrite Ha; apply list_elem_of_here).
  simpl. do 3 eexists. split; [reflexivity |]. simpl.
  rewrite lookup_insert_ne, lookup_insert_eq by done.
  split; [reflexivity |]. simpl.
  split.
  { rewrite Ha, filter_ne_head, filter_ne_other by congruence. done. }
  rewrite lookup_insert_eq.
  split; [reflexivity |]. simpl.
  split; [by rewrite Hb |].
  split.
  { intros Hown C c HC.
    destruct (decide (C = B)) as [->|HCB].
    - rewrite lookup_insert_eq in HC. inversion HC; subst. simpl. rewrite Hb.
      split; [done |]. intros _. apply list_elem_of_here.
    - rewrite lookup_insert_ne in HC by done.
      destruct (decide (C = A)) as [->|HCA].
      + rewrite lookup_insert_eq in HC. inversion HC; subst. simpl.
        rewrite Ha, filter_ne_head, filter_ne_other by congruence. simpl.
        split; [| done]. intros Hin.
        apply list_elem_of_singleton in Hin. congruence.
      + rewrite lookup_insert_ne in HC by done.
        split; [| done]. intros Hin. destruct HCA. by eapply Hown. }
  split.
  { by rewrite Ha, filter_ne_head, filter_ne_other by congruence. }
  split; [by rewrite Hb |].
  by destruct (data s).
Qed.

Lemma cross_container_move_witness :
  exists s' a' b',
    moveQuestionToSubTopic "q1" "A" "B" 0 move_store = Normal (s', None)
    /\ subTopicsById (data s') !! "A" = Some a'
    /\ questionIds a' = [IdStr "q2"]
    /\ subTopicsById (data s') !! "B" = Some b'
    /\ questionIds b' = [IdStr "q1"; IdStr "q3"]
    /\ (forall C c, subTopicsById (data s') !! C = Some c ->
          (IdStr "q1" ∈ questionIds c <-> C = "B")).
Proof.
  destruct (cross_container_move move_store "A" "B"
              (mkSubTopic "A" "Basics" "t1" [IdStr "q1"; IdStr "q2"])
              (mkSubTopic "B" "Hashing" "t1" [IdStr "q3"])
              "q1" "q2" "q3" (sample_question "q1"))
    as (s' & a' & b' & E & HA & Ha & HB & Hb & Hown & _).
  - vm_compute. reflexivity.
  - reflexivity.
  - vm_compute. reflexivity.
  - reflexivity.
  - discriminate.
  - discriminate.
  - vm_compute. reflexivity.
  - exists s', a', b'. repeat (split; [assumption |]).
    apply Hown. intros C c HC Hin. simpl in HC.
    apply lookup_insert_Some in HC as [[<- <-]|[_ HC]]; [done |].
    apply lookup_singleton_Some in HC as [<- <-].
    simpl in Hin. apply list_elem_of_singleton in Hin. discriminate.
Defined.

(** C9. Stale ownership: a move whose source exists but does not hold the
    moved entity returns nothing and gives the store back as it was, history
    included.  For a question the source sub-topic does not list it.  For a
    sub-topic the back-reference [topicId] does not name the source topic;
    where the back-references agree with the lists of the topics, this covers
    every source topic that does not list the sub-topic. *)
Theorem stale_source_move_is_noop :
  (forall s q from to i fromSub,
     subTopicsById (data s) !! from = Some fromSub ->
     IdStr q ∉ questionIds fromSub ->
     moveQuestionToSubTopic q from to i s = Normal (s, None))
  /\ (forall s st from to i fromTopic,
        topicsById (data s) !! from = Some fromTopic ->
        (forall sub, subTopicsById (data s) !! st = Some sub -> topicId sub <> from) ->
        moveSubTopicToTopic st from to i s = Normal (s, None))
  /\ (forall s st from to i fromTopic,
        topicsById (data s) !! from = Some fromTopic ->
        back_references_listed (data s) ->
        IdStr st ∉ subTopicIds fromTopic ->
        moveSubTopicToTopic st from to i s = Normal (s, None)).
Proof.
  assert (forall s st from to i fromTopic,
            topicsById (data s) !! from = Some fromTopic ->
            (forall sub, subTopicsById (data s) !! st = Some sub -> topicId sub <> from) ->
            moveSubTopicToTopic st from to i s = Normal (s, None)) as Hback.
  { intros s st from to i fromTopic Hfrom Hne.
    unfold moveSubTopicToTopic, returns_void. cbv zeta. rewrite Hfrom.
    destruct (topicsById (data s) !! to); [| done].
    destruct (subTopicsById (data s) !! st) as [sub|] eqn:Hsub; [| done].
    destruct (String.eqb_spec (topicId sub) from) as [E|_]; [| done].
    by destruct (Hne sub). }
  split; [| split; [exact Hback |]].
  - intros s q from to i fromSub Hfrom Hnot.
    unfold moveQuestionToSubTopic, returns_void. cbv zeta. rewrite Hfrom.
    destruct (subTopicsById (data s) !! to); [| done].
    destruct (questionsById (data s) !! q); [| done].
    by rewrite bool_decide_eq_false_2.
  - intros s st from to i fromTopic Hfrom Hinv Hnot.
    apply (Hback s st from to i fromTopic Hfrom).
    intros sub Hsub E. apply Hnot. apply (Hinv st sub fromTopic Hsub). by rewrite E.
Qed.

Lemma stale_source_move_is_noop_witness :
  moveQuestionToSubTopic "q3" "A" "B" 0 move_store = Normal (move_store, None)
  /\ moveSubTopicToTopic "A" "t1" "t1" 0
       (store_of (with_subTopicsById
                    {[ "A" := mkSubTopic "A" "Basics" "t0" [IdStr "q1"; IdStr "q2"] ]}
                    move_data))
     = Normal (store_of (with_subTopicsById
                    {[ "A" := mkSubTopic "A" "Basics" "t0" [IdStr "q1"; IdStr "q2"] ]}
                    move_data), None)
  /\ moveSubTopicToTopic "C" "t1" "t1" 0 move_store = Normal (move_store, None).
Proof.
  destruct stale_source_move_is_noop as (Hq & Hback & Hlist).
  split; [| split].
  - apply (Hq move_store "q3" "A" "B" 0
             (mkSubTopic "A" "Basics" "t1" [IdStr "q1"; IdStr "q2"])).
    + vm_compute. reflexivity.
    + apply (bool_decide_unpack _). vm_compute. exact I.
  - apply (Hback _ "A" "t1" "t1" 0 (mkTopic "t1" "Arrays" [IdStr "A"; IdStr "B"])).
    + vm_compute. reflexivity.
    + intros sub Hsub. simpl in Hsub.
      apply lookup_singleton_Some in Hsub as [_ <-]. discriminate.
  - apply (Hlist move_store "C" "t1" "t1" 0 (mkTopic "t1" "Arrays" [IdStr "A"; IdStr "B"])).
    + vm_compute. reflexivity.
    + intros k sub t Hsub Ht. simpl in Hsub.
      apply lookup_insert_Some in Hsub as [[<- <-]|[_ Hsub]].
      * simpl in Ht. apply lookup_singleton_Some in Ht as [_ <-].
        apply (bool_decide_unpack _). vm_compute. exact I.
      * apply lookup_singleton_Some in Hsub as [<- <-].
        simpl in Ht. apply lookup_singleton_Some in Ht as [_ <-].
        apply (bool_decide_unpack _). vm_compute. exact I.
    + apply (bool_decide_unpack _). vm_compute. exact I.
Defined.

(** ** A sub-topic moved onto its own topic *)

Lemma occurrences_app x l1 l2 :
  occurrences x (l1 ++ l2) = (occurrences x l1 + occurrences x l2)%nat.
Proof. unfold occurrences. by rewrite filter_app, length_app. Qed.

Lemma occurrences_splice_in x l i :
  occurrences x (JsArray.splice_in l i x) = S (occurrences x l).
Proof.
  unfold JsArray.splice_in.
  generalize (JsArray.relative_index (length l) i). intros k.
  transitivity (S (occurrences x (take k l ++ drop k l))); [| by rewrite take_drop].
  rewrite !occurrences_app. unfold occurrences.
  rewrite filter_cons_True by done. simpl. lia.
Qed.

(** C10. A move of a sub-topic from a topic to the same topic passes both
    guards when the sub-topic names that topic in [topicId]: the call records
    history and the topic lists the sub-topic once more than before, so twice
    when it listed it once. *)
Theorem self_move_duplicates s st t i topic sub :
  _isUndoRedo s = false ->
  topicsById (data s) !! t = Some topic ->
  subTopicsById (data s) !! st = Some sub ->
  topicId sub = t ->
  occurrences (IdStr st) (subTopicIds topic) = 1%nat ->
  exists s' topic',
    moveSubTopicToTopic st t t i s = Normal (s', None)
    /\ topicsById (data s') !! t = Some topic'
    /\ occurrences (IdStr st) (subTopicIds topic') = 2%nat
    /\ _history s' = evict (kept_history s ++ [createSnapshot s])
    /\ canUndo s' = true.
Proof.
  intros Hf Ht Hsub Hback Hocc.
  unfold moveSubTopicToTopic, returns_void. cbv zeta.
  rewrite data_recordHistory, Ht, Hsub, Hback, String.eqb_refl. simpl.
  do 2 eexists. split; [reflexivity |]. simpl.
  rewrite lookup_insert_eq. split; [reflexivity |]. simpl.
  split; [by rewrite occurrences_splice_in, Hocc |].
  split; [by rewrite (recordHistory_eq s Hf) |].
  by apply (canUndo_after_commit s _ Hf).
Qed.

Lemma self_move_duplicates_witness :
  exists s' topic',
    moveSubTopicToTopic "A" "t1" "t1" 0 move_store = Normal (s', None)
    /\ topicsById (data s') !! "t1" = Some topic'
    /\ subTopicIds topic' = [IdStr "A"; IdStr "A"; IdStr "B"]
    /\ occurrences (IdStr "A") (subTopicIds topic') = 2%nat
    /\ _history s' = evict (kept_history move_store ++ [createSnapshot move_store])
    /\ canUndo s' = true.
Proof.
  destruct (self_move_duplicates move_store "A" "t1" 0
              (mkTopic "t1" "Arrays" [IdStr "A"; IdStr "B"])
              (mkSubTopic "A" "Basics" "t1" [IdStr "q1"; IdStr "q2"]))
    as (s' & topic' & E & Ht & Hocc & Hh & Hc).
  - reflexivity.
  - vm_compute. reflexivity.
  - vm_compute. reflexivity.
  - reflexivity.
  - vm_compute. reflexivity.
  - exists s', topic'. split; [exact E |]. split; [exact Ht |].
    split; [| by repeat split].
    vm_compute in E. inversion E as [Es]. rewrite <- Es in Ht.
    vm_compute in Ht. by inversion Ht.
Defined.

(** ** Failed operations *)

Lemma deleteTopic_not_found id s :
  topicsById (data s) !! id = None -> deleteTopic id s = Normal (s, None).
Proof. intros H. unfold deleteTopic. cbv zeta. by rewrite H. Qed.

Lemma deleteSubTopic_not_found t st s :
  topicsById (data s) !! t = None \/ subTopicsById (data s) !! st = None ->
  deleteSubTopic t st s = Normal (s, None).
Proof.
  intros H. unfold deleteSubTopic. cbv zeta.
  destruct H as [-> | ->]; [done |]. by case_match.
Qed.

Lemma deleteQuestion_not_found t st q s :
  questionsById (data s) !! q = None \/ subTopicsById (data s) !! st = None ->
  deleteQuestion t st q s = Normal (s, None).
Proof.
  intros H. unfold deleteQuestion. cbv zeta.
  destruct H as [-> | ->]; [done |]. by case_match.
Qed.

Lemma moveSubTopicToTopic_not_found st from to i s :
  topicsById (data s) !! from = None \/ topicsById (data s) !! to = None
  \/ subTopicsById (data s) !! st = None ->
  moveSubTopicToTopic st from to i s = Normal (s, None).
Proof.
  intros H. unfold moveSubTopicToTopic. cbv zeta.
  destruct H as [-> | [-> | ->]]; [done | by case_match | by repeat case_match].
Qed.

Lemma moveQuestionToSubTopic_not_found q from to i s :
  subTopicsById (data s) !! from = None \/ subTopicsById (data s) !! to = None
  \/ questionsById (data s) !! q = None ->
  moveQuestionToSubTopic q from to i s = Normal (s, None).
Proof.
  intros H. unfold moveQuestionToSubTopic. cbv zeta.
  destruct H as [-> | [-> | ->]]; [done | by case_match | by repeat case_match].
Qed.

(** A name that some existing topic already has, whatever the case of the
    letters, is refused and the store is given back as it was. *)
Lemma addTopic_duplicate_rejected name generatedId s :
  some_lower_equal (getTopicNames s None)
    (JsString.toLowerCase (JsString.trim name)) = true ->
  exists e, addTopic name generatedId s = Normal (s, Some (failed (Some e))).
Proof.
  intros Hdup. unfold addTopic, validateName, returns. cbv zeta.
  repeat case_match; simpl in *; try discriminate; eauto.
Qed.

Example addTopic_Arrays_arrays :
  addTopic "Arrays" "t9"
    (store_of (with_topicsById {[ "t1" := mkTopic "t1" "arrays" [] ]} empty_data))
  = Normal (store_of (with_topicsById {[ "t1" := mkTopic "t1" "arrays" [] ]} empty_data),
            Some (failed (Some "Topic name already exists"))).
Proof. vm_compute. reflexivity. Qed.

(** [reorderQuestions] has the same order of steps as [reorderSubTopics]. *)
Lemma failed_reorderQuestions_records_history s t subTopicId i j :
  _isUndoRedo s = false ->
  subTopicsById (data s) !! subTopicId = None ->
  reorderQuestions t subTopicId i j s = Normal (_recordHistory s, None)
  /\ _history (_recordHistory s) = evict (kept_history s ++ [createSnapshot s]).
Proof.
  intros Hf Hnone. unfold reorderQuestions, returns_void. cbv zeta.
  rewrite data_recordHistory, Hnone. split; [done |]. by rewrite recordHistory_eq.
Qed.

(** C2. Where the code departs from the specification: [reorderSubTopics]
    on a topic id that is not in [topicsById] leaves the persisted fields as
    they were, but it has called [_recordHistory] first: the history has a new
    snapshot, the cursor is at the present, so [canUndo] is true and a pending
    redo is gone. *)
Theorem failed_reorder_records_history s topicId i j :
  _isUndoRedo s = false ->
  topicsById (data s) !! topicId = None ->
  exists s',
    reorderSubTopics topicId i j s = Normal (s', None)
    /\ data s' = data s
    /\ _history s' = evict (kept_history s ++ [createSnapshot s])
    /\ last (_history s') = Some (createSnapshot s)
    /\ _historyIndex s' = -1
    /\ canUndo s' = true
    /\ canRedo s' = false.
Proof.
  intros Hf Hnone. unfold reorderSubTopics, returns_void. cbv zeta.
  rewrite data_recordHistory, Hnone.
  eexists. split; [reflexivity |].
  rewrite <- (set_data_data (_recordHistory s)).
  destruct (after_commit_history s (data (_recordHistory s)) Hf) as (Hi & Hl & _).
  split; [simpl; apply data_recordHistory |].
  split; [simpl; by rewrite recordHistory_eq |].
  split; [done |]. split; [done |].
  split; [by apply canUndo_after_commit | by apply canRedo_at_present].
Qed.

Lemma failed_reorder_records_history_witness :
  canUndo initial_store = false
  /\ exists s',
       reorderSubTopics "missing" 0 1 initial_store = Normal (s', None)
       /\ data s' = data initial_store
       /\ _history s' = [createSnapshot initial_store]
       /\ canUndo s' = true.
Proof.
  split; [reflexivity |].
  destruct (failed_reorder_records_history initial_store "missing" 0 1)
    as (s' & E & Hd & Hh & _ & _ & Hc & _).
  - reflexivity.
  - vm_compute. reflexivity.
  - exists s'. split; [exact E |]. split; [exact Hd |]. split; [exact Hh | exact Hc].
Defined.

(** ** Loading a persisted state *)

Lemma not_an_object_false v : not_an_object v = false -> is_container v.
Proof. by destruct v. Qed.

(** What the predicate checks: the value is an object or an array, each of
    the five map keys holds an object or an array, [topicOrder] holds an
    array, and each of its elements is a string under which [topicsById]
    reads a truthy value, its own or an inherited one. *)
Lemma isValidPersistedState_sound methods state :
  isValidPersistedState methods state = true ->
  is_container state
  /\ is_container (get methods state "topicsById")
  /\ is_container (get methods state "subTopicsById")
  /\ is_container (get methods state "questionsById")
  /\ is_container (get methods state "expandedTopics")
  /\ is_container (get methods state "expandedSubTopics")
  /\ exists ids,
       get methods state "topicOrder" = VArray ids
       /\ forall id, id ∈ ids ->
            exists k, id = VString k
                      /\ truthy_value (get methods (get methods state "topicsById") k)
                         = true.
Proof.
  unfold isValidPersistedState. cbv zeta. intros H.
  destruct (negb (truthy_value state) || negb (typeof_object state)) eqn:E0;
    [discriminate |].
  destruct (not_an_object (get methods state "topicsById")) eqn:E1; [discriminate |].
  destruct (not_an_object (get methods state "subTopicsById")) eqn:E2; [discriminate |].
  destruct (not_an_object (get methods state "questionsById")) eqn:E3; [discriminate |].
  destruct (negb (isArray (get methods state "topicOrder"))) eqn:E4; [discriminate |].
  destruct (not_an_object (get methods state "expandedTopics")) eqn:E5; [discriminate |].
  destruct (not_an_object (get methods state "expandedSubTopics")) eqn:E6;
    [discriminate |].
  repeat (split; [first [by apply not_an_object_false | by destruct state] |]).
  destruct (get methods state "topicOrder") as [| | | | |ids| |]; try discriminate.
  exists ids. split; [done |]. intros id Hin.
  rewrite forallb_forall in H. specialize (H id).
  rewrite <- list_elem_of_In in H. specialize (H Hin).
  destruct id; try discriminate. eauto.
Qed.

(** An array passes where a map is expected: [typeof] gives ['object'] for
    both. *)
Example isValidPersistedState_arrays methods :
  isValidPersistedState methods
    (VObject [("topicsById", VArray []); ("subTopicsById", VArray []);
              ("questionsById", VArray []); ("topicOrder", VArray []);
              ("expandedTopics", VArray []); ("expandedSubTopics", VArray [])])
  = true.
Proof. reflexivity. Qed.

(** A shape without one of the map keys, [questionsById] for one, is refused. *)
Lemma isValidPersistedState_missing_questionsById methods state :
  get methods state "questionsById" = VUndefined ->
  isValidPersistedState methods state = false.
Proof.
  intros H. unfold isValidPersistedState. cbv zeta. rewrite H. simpl.
  by repeat case_match.
Qed.

(** An id of [topicOrder] passes when [topicsById] inherits a member of that
    name, though it has no topic of that id. *)
Example isValidPersistedState_inherited methods :
  get methods shape_inherited_order "topicsById" = VObject []
  /\ isValidPersistedState methods shape_inherited_order = true.
Proof. split; reflexivity. Qed.

Lemma own_app l1 l2 k :
  own (l1 ++ l2) k = match own l1 k with
                     | Some v => Some v
                     | None => own l2 k
                     end.
Proof.
  induction l1 as [|[k0 v] l1 IH]; [done |]. simpl.
  by destruct (String.eqb k0 k).
Qed.

Lemma own_assign state partial k :
  own (assign state partial) k
  = if String.eqb k "__proto__" then None
    else match own partial k with
         | Some v => Some v
         | None => own state k
         end.
Proof.
  unfold assign. rewrite <- own_app.
  induction (partial ++ state) as [|[k0 v] l IH]; simpl.
  - by destruct (String.eqb k "__proto__").
  - rewrite filter_cons. simpl. case_decide as Hk; simpl.
    + destruct (String.eqb_spec k0 k) as [->|Hne]; [| done].
      by destruct (String.eqb_spec k "__proto__").
    + subst k0. rewrite IH.
      destruct (String.eqb_spec k "__proto__") as [->|Hne]; [done |].
      by destruct (String.eqb_spec "__proto__" k) as [<-|].
Qed.

(** The callback on a merged state: unless the persisted state hides the
    action, it returns, and what it leaves is what [setHasHydrated] makes of
    the world, with the entry removed first when the predicate refuses. *)
Lemma onRehydrateStorage_merged methods persisted w :
  own (own_properties persisted) "setHasHydrated" = None ->
  onRehydrateStorage methods (VObject (merge_state persisted initial_state)) None w
  = (setHasHydrated methods (VBool true)
       (if isValidPersistedState methods (VObject (merge_state persisted initial_state))
        then w
        else removeItem STORAGE_KEY
               (warn "Corrupted localStorage data detected, clearing..." w)),
     Normal tt).
Proof.
  intros Hset. unfold onRehydrateStorage. cbv zeta.
  rewrite bool_decide_false by (by intros [? ?]).
  cbn [truthy_value andb].
  assert (get methods (VObject (merge_state persisted initial_state)) "setHasHydrated"
          = VFunction "setHasHydrated") as ->.
  { unfold merge_state. cbn [get]. by rewrite own_app, Hset. }
  cbn [String.eqb Ascii.eqb Bool.eqb andb].
  by destruct (isValidPersistedState methods _).
Qed.

(** The load never resets the store.  Whatever truthy entry the storage
    holds and whatever the predicate says of the merged state, a field of
    the stored state is a field of the store after the load, and the storage
    has an entry again, as long as the stored state has no field that hides
    the action [setHasHydrated]. *)
Lemma hydrate_keeps_loaded methods always_saves storage item key v :
  storage !! STORAGE_KEY = Some item ->
  truthy_value item = true ->
  own (own_properties (get methods item "state")) "setHasHydrated" = None ->
  own (own_properties (get methods item "state")) key = Some v ->
  key <> "__proto__" ->
  key <> "_hasHydrated" ->
  exists w,
    hydrate methods always_saves (at_creation storage) = Normal w
    /\ own (store_state w) key = Some v
    /\ own (store_state w) "_hasHydrated" = Some (VBool true)
    /\ is_Some (localStorage w !! STORAGE_KEY).
Proof.
  intros Hitem Htruthy Hset Hkey Hp Hh.
  unfold hydrate, at_creation. cbn [store_state localStorage console].
  rewrite Hitem. cbn [default from_option id]. rewrite Htruthy.
  unfold migrate.
  set (persisted := get methods item "state") in *.
  assert (forall w, store_state w = merge_state persisted initial_state ->
            own (store_state (setHasHydrated methods (VBool true) w)) key = Some v
            /\ own (store_state (setHasHydrated methods (VBool true) w)) "_hasHydrated"
               = Some (VBool true)
            /\ is_Some (localStorage (setHasHydrated methods (VBool true) w)
                          !! STORAGE_KEY)) as Hafter.
  { intros w Hw. unfold setHasHydrated, set_state, setItem, with_localStorage,
      with_store_state. cbn [store_state localStorage console].
    rewrite !own_assign, Hw, lookup_insert_eq. split; [| split; [done | by eexists]].
    destruct (String.eqb_spec key "__proto__") as [|_]; [done |].
    cbn [own]. destruct (String.eqb_spec "_hasHydrated" key) as [|_]; [by subst |].
    unfold merge_state. by rewrite own_app, Hkey. }
  destruct (typeof_number (get methods item "version")
            && negb (is_number SCHEMA_VERSION (get methods item "version")));
    rewrite onRehydrateStorage_merged by done;
    (eexists; split; [reflexivity |]); apply Hafter;
    destruct always_saves; cbn [orb];
    by destruct (isValidPersistedState methods _).
Qed.

(** C7. Where the code departs from the specification.  The predicate
    refuses the shape without [questionsById].  But when that shape is what
    the storage holds, the predicate is asked about the state the middleware
    has merged it into, where [questionsById] is the empty object of the
    initial state: the load passes without a warning, the store holds the
    topics and the topic order that were stored, not the empty graph, and
    the storage holds them again.  When the storage holds a shape whose
    [topicOrder] names a topic that is not there, the predicate refuses the
    merged state and the callback warns and removes the entry; the store
    keeps what was loaded all the same, and [setHasHydrated] writes it back
    to the storage. *)
Theorem rehydrate_keeps_refused_state methods always_saves :
  isValidPersistedState methods shape_without_questions = false
  /\ (exists w,
        hydrate methods always_saves
          (at_creation {[ STORAGE_KEY := stored shape_without_questions ]}) = Normal w
        /\ console w = []
        /\ own (store_state w) "topicsById"
           = Some (get methods shape_without_questions "topicsById")
        /\ own (store_state w) "topicOrder" = Some (VArray [VString "t1"])
        /\ own (store_state w) "questionsById" = Some (VObject [])
        /\ own (store_state w) "_hasHydrated" = Some (VBool true)
        /\ ~ empty_graph (store_state w)
        /\ localStorage w = {[ STORAGE_KEY := stored shape_with_empty_questions ]})
  /\ isValidPersistedState methods shape_dangling_order = false
  /\ (exists w,
        hydrate methods always_saves
          (at_creation {[ STORAGE_KEY := stored shape_dangling_order ]}) = Normal w
        /\ console w = ["Corrupted localStorage data detected, clearing..."]
        /\ own (store_state w) "topicsById"
           = Some (get methods shape_dangling_order "topicsById")
        /\ own (store_state w) "topicOrder" = Some (VArray [VString "t1"; VString "t9"])
        /\ own (store_state w) "_hasHydrated" = Some (VBool true)
        /\ ~ empty_graph (store_state w)
        /\ localStorage w = {[ STORAGE_KEY := stored shape_dangling_order ]}).
Proof.
  split; [reflexivity |].
  split.
  { destruct always_saves; (eexists; split; [vm_compute; reflexivity |]);
      (repeat split; try (vm_compute; reflexivity));
      intros (H & _); vm_compute in H; discriminate. }
  split; [reflexivity |].
  destruct always_saves; (eexists; split; [vm_compute; reflexivity |]);
    (repeat split; try (vm_compute; reflexivity));
    intros (H & _); vm_compute in H; discriminate.
Qed.

(** ** [validateUrl] *)

Lemma truthy_false_empty s : JsString.truthy s = false -> s = EmptyString.
Proof.
  unfold JsString.truthy. intros H. apply negb_false_iff in H.
  by apply String.eqb_eq in H.
Qed.

Lemma truthy_true_nonempty s : JsString.truthy s = true -> s <> EmptyString.
Proof.
  unfold JsString.truthy. intros H E. subst. discriminate.
Qed.

(** The specified behaviour fails on a candidate that parses with another
    scheme: the message is then not the one for a candidate that does not
    parse. *)
Lemma validateUrl_as_specified_fails :
  ~ validateUrl_as_specified scheme_only_URL "mailto:user@example.com".
Proof.
  intros (_ & _ & H).
  assert (Some "URL must use http or https protocol" = Some "Invalid URL format") as E.
  { apply H; [discriminate | reflexivity]. }
  discriminate.
Qed.

(** C8, amended. A candidate that is empty once trimmed is valid.  Another
    one is valid exactly when the URL constructor accepts it, trimmed, with
    the protocol [http:] or [https:].  When the constructor throws, the error
    is "Invalid URL format"; when it accepts the candidate with another
    protocol, the error is "URL must use http or https protocol". *)
Theorem validateUrl_spec (newURL : UrlConstructor) (url : string) :
  (JsString.trim url = EmptyString /\ validateUrl newURL url = ok)
  \/ (JsString.trim url <> EmptyString
      /\ ((exists protocol,
             newURL (JsString.trim url) = Some protocol
             /\ (protocol = "http:" \/ protocol = "https:")
             /\ validateUrl newURL url = ok)
          \/ (exists protocol,
                newURL (JsString.trim url) = Some protocol
                /\ protocol <> "http:" /\ protocol <> "https:"
                /\ validateUrl newURL url = invalid "URL must use http or https protocol")
          \/ (newURL (JsString.trim url) = None
              /\ validateUrl newURL url = invalid "Invalid URL format"))).
Proof.
  unfold validateUrl. cbv zeta.
  destruct (JsString.truthy (JsString.trim url)) eqn:Et; simpl.
  - right. split; [by apply truthy_true_nonempty |].
    destruct (newURL (JsString.trim url)) as [protocol|]; [| by right; right].
    destruct (String.eqb_spec protocol "http:") as [->|Hh]; simpl.
    + left. exists "http:". auto.
    + destruct (String.eqb_spec protocol "https:") as [->|Hs]; simpl.
      * left. exists "https:". auto.
      * right. left. exists protocol. auto.
  - left. split; [by apply truthy_false_empty | done].
Qed.

(** ** Stores of a session *)

Lemma recordHistory_shape s :
  _isUndoRedo s = false -> history_shape (_recordHistory s).
Proof.
  intros Hf. left. rewrite recordHistory_eq by done. simpl.
  split; [done | apply evict_length].
Qed.

Lemma undo_shape s : history_shape s -> history_shape (undo s).
Proof.
  intros Hs. destruct (canUndo s) eqn:Hc; [| by rewrite undo_no_canUndo].
  destruct Hs as [[Hi Hlen]|(H0 & H1 & Hlen)].
  - destruct (last (_history s)) as [p|] eqn:Hl.
    + rewrite (undo_at_present s p Hi Hl). right. simpl. rewrite length_app. simpl.
      assert (length (_history s) <> 0%nat).
      { intros E. apply nil_length_inv in E. by rewrite E in Hl. }
      lia.
    + apply last_None in Hl. unfold canUndo in Hc. rewrite Hi, Hl in Hc. done.
  - unfold canUndo in Hc.
    destruct (Z.eqb_spec (_historyIndex s) (-1)); [lia |].
    apply Z.gtb_lt in Hc.
    destruct (lookup_lt_is_Some_2 (_history s) (Z.to_nat (_historyIndex s - 1)))
      as [p Hp]; [lia |].
    rewrite (undo_in_past s (Z.to_nat (_historyIndex s - 1)) p); [| lia | done].
    right. simpl. lia.
Qed.

Lemma redo_shape s : history_shape s -> history_shape (redo s).
Proof.
  intros Hs. destruct (canRedo s) eqn:Hc; [| by rewrite redo_no_canRedo].
  destruct Hs as [[Hi Hlen]|(H0 & H1 & Hlen)].
  - by rewrite canRedo_at_present in Hc.
  - unfold redo. rewrite Hc. simpl.
    destruct (lookup_lt_is_Some_2 (_history s) (Z.to_nat (_historyIndex s + 1)))
      as [p Hp]; [lia |].
    unfold JsArray.at_index.
    destruct (Z.ltb_spec (_historyIndex s + 1) 0); [lia |]. rewrite Hp.
    destruct (Z.eqb_spec (_historyIndex s + 1) (Z.of_nat (length (_history s)) - 1))
      as [E|E]; simpl.
    + left. simpl. split; [done |].
      destruct (_history s) as [|a h] eqn:Eh using rev_ind; [simpl in *; lia |].
      rewrite slice_drop_last. rewrite length_app in Hlen. simpl in Hlen. lia.
    + right. simpl. lia.
Qed.

(** Between two calls the store is idle and the history has its shape. *)
Lemma reachable_invariant newURL s :
  reachable newURL s -> _isUndoRedo s = false /\ history_shape s.
Proof.
  induction 1 as [|s d _ [IHf IHs]|s m s' r _ [IHf IHs] Happ|s _ [IHf IHs]|s _ [IHf IHs]].
  - split; [done |]. left. simpl. unfold MAX_HISTORY_SIZE. lia.
  - done.
  - destruct (apply_cases newURL m s) as [(r0 & E & _)|(d & r0 & E & _)];
      rewrite E in Happ; inversion Happ; subst; [done |].
    split; [simpl; by rewrite isUndoRedo_recordHistory |].
    apply (recordHistory_shape s IHf).
  - split; [by apply undo_idle | by apply undo_shape].
  - split; [by apply redo_idle | by apply redo_shape].
Qed.

(** ** Id arrays that hold strings *)

Lemma strings_splice_in (l : list jsid) i x :
  Forall is_string_id l -> is_string_id x ->
  Forall is_string_id (JsArray.splice_in l i x).
Proof.
  intros Hl Hx. unfold JsArray.splice_in.
  apply Forall_app. split; [by apply Forall_take |].
  apply Forall_cons. split; [done | by apply Forall_drop].
Qed.

Lemma strings_reorder (l : list jsid) i j :
  Forall is_string_id l ->
  (JsArray.relative_index (length l) i < length l)%nat ->
  Forall is_string_id (reorder l i j).
Proof.
  intros Hl Hi. unfold reorder, JsArray.splice_out. cbv zeta.
  destruct (lookup_lt_is_Some_2 l _ Hi) as [x Hx]. rewrite Hx. simpl.
  apply strings_splice_in; [by apply Forall_delete |].
  by eapply Forall_lookup_1.
Qed.

Lemma strings_filter (P : jsid -> Prop) `{!forall x, Decision (P x)} (l : list jsid) :
  Forall is_string_id l -> Forall is_string_id (filter P l).
Proof.
  intros Hl. apply Forall_forall. intros x Hx.
  apply list_elem_of_filter in Hx as [_ Hx]. by eapply Forall_forall in Hl.
Qed.

Lemma map_Forall_delete_all {V} (P : string -> V -> Prop) ids (m : gmap string V) :
  map_Forall P m -> map_Forall P (delete_all ids m).
Proof.
  unfold delete_all. revert m. induction ids as [|a ids IH]; intros m Hm; [done |].
  cbn [foldl]. apply IH. by apply map_Forall_delete.
Qed.

Ltac strings_step :=
  match goal with
  | |- map_Forall _ (<[_ := _]> _) => apply map_Forall_insert_2
  | |- map_Forall _ (delete _ _) => apply map_Forall_delete
  | |- map_Forall _ (delete_all _ _) => apply map_Forall_delete_all
  | |- Forall _ (_ ++ _) => apply Forall_app; split
  | |- Forall _ [_] => apply Forall_singleton
  | |- Forall _ [] => apply Forall_nil_2
  | |- Forall _ (filter _ _) => apply strings_filter
  | |- Forall _ (JsArray.splice_in _ _ _) => apply strings_splice_in
  | |- Forall _ (reorder _ _ _) => apply strings_reorder
  | H : map_Forall ?P ?m, E : ?m !! _ = Some ?x |- Forall _ (_ ?x) => exact (H _ _ E)
  | |- is_string_id (IdStr _) => exact I
  | |- _ => eassumption
  end.

(** The operations keep strings in the id arrays of the entities, the two
    reorder operations as long as their source position is in range. *)
Lemma apply_keeps_strings newURL m s s' r :
  ids_are_strings (data s) ->
  source_in_range m s ->
  apply newURL m s = Normal (s', r) ->
  ids_are_strings (data s').
Proof.
  intros [Ht Hst] Hrange Happ.
  destruct m; simpl in Happ, Hrange; revert Happ; unfold_operation;
    repeat case_match; intros Happ; inversion Happ; subst; clear Happ;
    try (split; assumption);
    rewrite ?data_recordHistory;
    (split; simpl; repeat (strings_step; simpl)).
  - by apply Hrange.
  - by apply Hrange.
Qed.

(** ** The round trip *)

(** The nested view is read from the persisted fields alone. *)
Lemma getTopics_data s1 s2 : data s1 = data s2 -> getTopics s1 = getTopics s2.
Proof. unfold getTopics. by intros ->. Qed.

(** What the two hypotheses on the store and on the call keep out.  The
    reorder operations take positions of the array, found by their callers
    with [indexOf]; a source position outside the array takes nothing out
    and puts [undefined] in, which a snapshot, being a JSON copy, holds as
    [null]. *)
Example out_of_range_reorder_then_undo_redo :
  exists s',
    apply scheme_only_URL (ReorderSubTopics "t1" 5 0) sample_store = Normal (s', None)
    /\ subTopicIds <$> topicsById (data s') !! "t1"
       = Some [IdUndefined; IdStr "a"; IdStr "b"]
    /\ subTopicIds <$> topicsById (data (undo s')) !! "t1"
       = Some [IdStr "a"; IdStr "b"]
    /\ subTopicIds <$> topicsById (data (redo (undo s'))) !! "t1"
       = Some [IdNull; IdStr "a"; IdStr "b"]
    /\ getTopics (undo s') = getTopics sample_store
    /\ getTopics (redo (undo s')) = getTopics s'.
Proof.
  eexists. split; [vm_compute; reflexivity |].
  repeat split; vm_compute; reflexivity.
Qed.

Example undefined_in_array_then_undo :
  exists s0 s',
    apply scheme_only_URL (ReorderSubTopics "t1" 5 0) sample_store = Normal (s0, None)
    /\ apply scheme_only_URL (AddTopic "Graphs" "t2") s0 = Normal (s', Some succeeded)
    /\ subTopicIds <$> topicsById (data s0) !! "t1"
       = Some [IdUndefined; IdStr "a"; IdStr "b"]
    /\ subTopicIds <$> topicsById (data (undo s')) !! "t1"
       = Some [IdNull; IdStr "a"; IdStr "b"].
Proof.
  do 2 eexists. split; [vm_compute; reflexivity |].
  split; [vm_compute; reflexivity |].
  split; vm_compute; reflexivity.
Qed.

(** C1. Undo/redo round trip.  The store holds strings in the id arrays of
    its entities, as their type says, and the call is one of the write
    contract: a reorder names a source position of the array.  After a
    mutation that took effect, [undo] brings back the persisted state from
    before it, the three entity maps, the topic order and the two flag maps,
    and so the nested hierarchy; [undo] followed by [redo] brings back the
    state from after it.  The store need not be at the present, and the id
    arrays hold strings again afterwards. *)
Theorem undo_redo_round_trip newURL m s s' r :
  _isUndoRedo s = false ->
  ids_are_strings (data s) ->
  source_in_range m s ->
  apply newURL m s = Normal (s', r) ->
  took_effect s s' r ->
  data (undo s') = data s
  /\ data (redo (undo s')) = data s'
  /\ getTopics (undo s') = getTopics s
  /\ getTopics (redo (undo s')) = getTopics s'
  /\ ids_are_strings (data s').
Proof.
  intros Hf Hs Hrange Happ Heff.
  destruct (undo_after_mutation_json _ _ _ _ _ Hf Happ Heff) as [Hu Hr].
  pose proof (apply_keeps_strings _ _ _ _ _ Hs Hrange Happ) as Hs'.
  assert (data (undo s') = data s) as Eu.
  { rewrite Hu. by apply json_data_strings. }
  assert (data (redo (undo s')) = data s') as Er.
  { rewrite Hr. by apply json_data_strings. }
  split; [exact Eu |]. split; [exact Er |].
  split; [by apply getTopics_data |].
  split; [by apply getTopics_data | exact Hs'].
Qed.

Lemma undo_redo_round_trip_witness :
  exists s',
    apply scheme_only_URL (ReorderSubTopics "t1" 0 1) sample_store = Normal (s', None)
    /\ subTopicIds <$> topicsById (data s') !! "t1" = Some [IdStr "b"; IdStr "a"]
    /\ data (undo s') = data sample_store
    /\ data (redo (undo s')) = data s'
    /\ getTopics (undo s') = getTopics sample_store
    /\ getTopics (redo (undo s')) = getTopics s'.
Proof.
  eexists. split; [vm_compute; reflexivity |].
  split; [vm_compute; reflexivity |].
  match goal with
  | |- data (undo ?s') = _ /\ _ =>
      destruct (undo_redo_round_trip scheme_only_URL (ReorderSubTopics "t1" 0 1)
                  sample_store s' None) as (Hu & Hr & Hv & Hw & _)
  end.
  - reflexivity.
  - apply (bool_decide_unpack _). vm_compute. exact I.
  - intros topic Ht. vm_compute in Ht. inversion Ht. vm_compute. lia.
  - vm_compute. reflexivity.
  - right. intros E. apply (f_equal topicsById) in E.
    apply (f_equal (fun m => subTopicIds <$> m !! "t1")) in E.
    vm_compute in E. discriminate.
  - split; [exact Hu |]. split; [exact Hr |]. split; [exact Hv | exact Hw].
Defined.

(** The same for every call, whether or not it changed the persisted
    fields: a call either gives back the very store it was called on, when it
    is refused, or has recorded history, and then the round trip holds. *)
Lemma round_trip_after_any_call newURL m s s' r :
  _isUndoRedo s = false ->
  ids_are_strings (data s) ->
  source_in_range m s ->
  apply newURL m s = Normal (s', r) ->
  s' = s \/ (data (undo s') = data s /\ data (redo (undo s')) = data s').
Proof.
  intros Hf Hs Hrange Happ.
  pose proof (apply_keeps_strings _ _ _ _ _ Hs Hrange Happ) as Hs'.
  destruct (apply_cases newURL m s) as [(r0 & E & _)|(d & r0 & E & _)];
    rewrite E in Happ; inversion Happ; subst; [by left | right].
  destruct (after_commit_history s d Hf) as (Hi & Hl & _).
  split.
  - rewrite (undo_at_present _ _ Hi Hl). cbn [data].
    rewrite applySnapshot_createSnapshot. by apply json_data_strings.
  - rewrite (redo_after_undo _ _ Hi Hl). cbn [data]. by apply json_data_strings.
Qed.

#[local] Set Warnings "-clear-no-such-hyp".

(** * Further properties *)

(** ** Reordering inside one array *)

Lemma relative_index_in_range (len k : nat) :
  (k <= len)%nat -> JsArray.relative_index len (Z.of_nat k) = k.
Proof. intros H. rewrite relative_index_nonneg by lia. lia. Qed.

Lemma reorder_in_range (l : list jsid) (i j : nat) x :
  l !! i = Some x ->
  (j < length l)%nat ->
  reorder l (Z.of_nat i) (Z.of_nat j)
  = take j (delete i l) ++ x :: drop j (delete i l).
Proof.
  intros Hx Hj. pose proof (lookup_lt_Some _ _ _ Hx) as Hi.
  unfold reorder, JsArray.splice_out, JsArray.splice_in. cbv zeta.
  rewrite (relative_index_in_range (length l) i) by lia. rewrite Hx. simpl.
  rewrite relative_index_in_range; [done |].
  rewrite length_delete by eauto. lia.
Qed.

(** What a reorder with both positions inside the array does: the element
    of the source position is at the destination position, the others keep
    their order, and nothing is lost or added. *)
Lemma reorder_spec (l : list jsid) (i j : nat) x :
  l !! i = Some x ->
  (j < length l)%nat ->
  reorder l (Z.of_nat i) (Z.of_nat j) !! j = Some x
  /\ delete j (reorder l (Z.of_nat i) (Z.of_nat j)) = delete i l
  /\ reorder l (Z.of_nat i) (Z.of_nat j) ≡ₚ l.
Proof.
  intros Hx Hj. pose proof (lookup_lt_Some _ _ _ Hx) as Hi.
  rewrite (reorder_in_range l i j x Hx Hj).
  assert (length (take j (delete i l)) = j) as Hlen.
  { rewrite length_take, length_delete by eauto. lia. }
  split; [| split].
  - rewrite lookup_app_r by lia. by rewrite Hlen, Nat.sub_diag.
  - rewrite <- Hlen at 1. rewrite delete_middle. apply take_drop.
  - rewrite <- Permutation_middle, take_drop. symmetry. by apply delete_Permutation.
Qed.

Lemma reorder_same (l : list jsid) (i : nat) :
  (i < length l)%nat -> reorder l (Z.of_nat i) (Z.of_nat i) = l.
Proof.
  intros Hi. destruct (lookup_lt_is_Some_2 l i Hi) as [x Hx].
  rewrite (reorder_in_range l i i x Hx Hi).
  rewrite delete_take_drop.
  assert (length (take i l) = i) as Hlen by (rewrite length_take; lia).
  rewrite (take_app_length' _ _ i (eq_sym Hlen)), (drop_app_length' _ _ i (eq_sym Hlen)).
  by apply take_drop_middle.
Qed.

(** X1: [reorderTopics], [reorderSubTopics] and [reorderQuestions] with both
    positions inside the array: the element of the source position is at the
    destination position afterwards, the other elements keep their order,
    the array is a permutation of what it was, and nothing else of the
    persisted state changes. *)
Theorem reorder_moves_one_element :
  (forall s (i j : nat) x,
     topicOrder (data s) !! i = Some x ->
     (j < length (topicOrder (data s)))%nat ->
     exists s',
       reorderTopics (Z.of_nat i) (Z.of_nat j) s = Normal (s', None)
       /\ topicOrder (data s') !! j = Some x
       /\ delete j (topicOrder (data s')) = delete i (topicOrder (data s))
       /\ topicOrder (data s') ≡ₚ topicOrder (data s)
       /\ with_topicOrder (topicOrder (data s)) (data s') = data s)
  /\ (forall s t topic (i j : nat) x,
        topicsById (data s) !! t = Some topic ->
        subTopicIds topic !! i = Some x ->
        (j < length (subTopicIds topic))%nat ->
        exists s' ids,
          reorderSubTopics t (Z.of_nat i) (Z.of_nat j) s = Normal (s', None)
          /\ data s'
             = with_topicsById
                 (<[t := topic_with_subTopicIds ids topic]> (topicsById (data s)))
                 (data s)
          /\ ids !! j = Some x
          /\ delete j ids = delete i (subTopicIds topic)
          /\ ids ≡ₚ subTopicIds topic)
  /\ (forall s t st sub (i j : nat) x,
        subTopicsById (data s) !! st = Some sub ->
        questionIds sub !! i = Some x ->
        (j < length (questionIds sub))%nat ->
        exists s' ids,
          reorderQuestions t st (Z.of_nat i) (Z.of_nat j) s = Normal (s', None)
          /\ data s'
             = with_subTopicsById
                 (<[st := subTopic_with_questionIds ids sub]> (subTopicsById (data s)))
                 (data s)
          /\ ids !! j = Some x
          /\ delete j ids = delete i (questionIds sub)
          /\ ids ≡ₚ questionIds sub).
Proof.
  split; [| split].
  - intros s i j x Hx Hj.
    destruct (reorder_spec _ i j x Hx Hj) as (H1 & H2 & H3).
    unfold reorderTopics, returns_void. cbv zeta. rewrite data_recordHistory.
    eexists. split; [reflexivity |]. simpl.
    repeat split; [done.. |]. by destruct (data s).
  - intros s t topic i j x Ht Hx Hj.
    destruct (reorder_spec _ i j x Hx Hj) as (H1 & H2 & H3).
    unfold reorderSubTopics, returns_void. cbv zeta. rewrite data_recordHistory, Ht.
    do 2 eexists. split; [reflexivity |]. simpl. done.
  - intros s t st sub i j x Hst Hx Hj.
    destruct (reorder_spec _ i j x Hx Hj) as (H1 & H2 & H3).
    unfold reorderQuestions, returns_void. cbv zeta. rewrite data_recordHistory, Hst.
    do 2 eexists. split; [reflexivity |]. simpl. done.
Qed.

Lemma reorder_moves_one_element_witness :
  (exists s',
     reorderTopics 0 0 sample_store = Normal (s', None)
     /\ topicOrder (data s') = [IdStr "t1"])
  /\ (exists s' ids,
        reorderSubTopics "t1" 0 1 sample_store = Normal (s', None)
        /\ topicsById (data s') !! "t1" = Some (mkTopic "t1" "Arrays" ids)
        /\ ids = [IdStr "b"; IdStr "a"])
  /\ (exists s' ids,
        reorderQuestions "t1" "a" 2 0 sample_store = Normal (s', None)
        /\ subTopicsById (data s') !! "a" = Some (mkSubTopic "a" "Basics" "t1" ids)
        /\ ids = [IdStr "q3"; IdStr "q1"; IdStr "q2"]).
Proof.
  destruct reorder_moves_one_element as (HT & HS & HQ).
  split; [| split].
  - destruct (HT sample_store 0%nat 0%nat (IdStr "t1")) as (s' & E & _); [done | simpl; lia |].
    exists s'. split; [exact E |]. vm_compute in E. by inversion E.
  - destruct (HS sample_store "t1" (mkTopic "t1" "Arrays" [IdStr "a"; IdStr "b"])
                0%nat 1%nat (IdStr "a")) as (s' & ids & E & _);
      [vm_compute; reflexivity | done | simpl; lia |].
    exists s', [IdStr "b"; IdStr "a"]. split; [exact E |].
    vm_compute in E. inversion E. split; [vm_compute; reflexivity | done].
  - destruct (HQ sample_store "t1" "a"
                (mkSubTopic "a" "Basics" "t1" [IdStr "q1"; IdStr "q2"; IdStr "q3"])
                2%nat 0%nat (IdStr "q3")) as (s' & ids & E & _);
      [vm_compute; reflexivity | done | simpl; lia |].
    exists s', [IdStr "q3"; IdStr "q1"; IdStr "q2"]. split; [exact E |].
    vm_compute in E. inversion E. split; [vm_compute; reflexivity | done].
Defined.

(** X2: A source position at or past the end of the array: [splice] takes
    nothing out, and [undefined] is put in at the destination, so that the
    array is one longer than it was. *)
Theorem reorderTopics_source_past_end s (i j : Z) :
  Z.of_nat (length (topicOrder (data s))) <= i ->
  exists s',
    reorderTopics i j s = Normal (s', None)
    /\ topicOrder (data s') = JsArray.splice_in (topicOrder (data s)) j IdUndefined
    /\ length (topicOrder (data s')) = S (length (topicOrder (data s)))
    /\ IdUndefined ∈ topicOrder (data s').
Proof.
  intros Hi. unfold reorderTopics, returns_void. cbv zeta. rewrite data_recordHistory.
  eexists. split; [reflexivity |]. simpl.
  assert (reorder (topicOrder (data s)) i j
          = JsArray.splice_in (topicOrder (data s)) j IdUndefined) as ->.
  { unfold reorder, JsArray.splice_out. cbv zeta.
    rewrite relative_index_nonneg by lia.
    rewrite Nat.min_r by lia.
    rewrite lookup_ge_None_2 by lia. simpl.
    by rewrite delete_take_drop, take_ge, drop_ge, app_nil_r by lia. }
  split; [done |]. unfold JsArray.splice_in.
  split.
  - rewrite length_app. simpl. rewrite length_take, length_drop.
    pose proof (relative_index_le (length (topicOrder (data s))) j). lia.
  - apply elem_of_app. right. apply list_elem_of_here.
Qed.

Lemma reorderTopics_source_past_end_witness :
  exists s',
    reorderTopics 1 0 sample_store = Normal (s', None)
    /\ topicOrder (data s') = [IdUndefined; IdStr "t1"].
Proof.
  destruct (reorderTopics_source_past_end sample_store 1 0) as (s' & E & Ho & _).
  - simpl. lia.
  - exists s'. split; [exact E |]. rewrite Ho. reflexivity.
Defined.


(** ** Several steps back and forth *)

Lemma undo_times_succ n s : undo_times (S n) s = undo (undo_times n s).
Proof. reflexivity. Qed.

Lemma redo_times_S n s : redo_times (S n) s = redo_times n (redo s).
Proof. unfold redo_times. apply Nat.iter_succ_r. Qed.

(** [k] calls of [undo] from the present, with at least [k] snapshots: the
    cursor is [k] positions before the end and the state is that snapshot. *)
Lemma undo_times_exact s (k : nat) :
  _historyIndex s = -1 ->
  (k < length (_history s))%nat ->
  exists p,
    _history s !! (length (_history s) - S k)%nat = Some p
    /\ undo_times (S k) s
       = mkStore (applySnapshot p) (loading s) (store_error s) (_hasHydrated s)
           (_history s ++ [createSnapshot s])
           (Z.of_nat (length (_history s) - S k)) false.
Proof.
  intros Hi. induction k as [|k IH]; intros Hk.
  - destruct (lookup_lt_is_Some_2 (_history s) (length (_history s) - 1)) as [p Hp];
      [lia |].
    exists p. split; [done |].
    assert (last (_history s) = Some p) as Hl.
    { rewrite last_lookup.
      by replace (pred (length (_history s))) with (length (_history s) - 1)%nat by lia. }
    unfold undo_times. simpl. rewrite (undo_at_present s p Hi Hl).
    do 2 f_equal. lia.
  - destruct IH as (p & Hp & E); [lia |].
    destruct (lookup_lt_is_Some_2 (_history s) (length (_history s) - S (S k)))
      as [q Hq]; [lia |].
    exists q. split; [done |].
    rewrite undo_times_succ, E.
    rewrite (undo_in_past _ (length (_history s) - S (S k)) q); simpl.
    + done.
    + lia.
    + by rewrite lookup_app_l by lia.
Qed.

Lemma redo_step_past s (i : nat) p :
  _historyIndex s = Z.of_nat i ->
  _history s !! S i = Some p ->
  (S (S i) < length (_history s))%nat ->
  redo s = mkStore (applySnapshot p) (loading s) (store_error s) (_hasHydrated s)
             (_history s) (Z.of_nat (S i)) false.
Proof.
  intros Hi Hp Hlen. unfold redo, canRedo. rewrite Hi.
  destruct (Z.geb_spec (Z.of_nat i) 0); [| lia].
  destruct (Z.ltb_spec (Z.of_nat i) (Z.of_nat (length (_history s)) - 1)); [| lia].
  simpl. replace (Z.of_nat i + 1) with (Z.of_nat (S i)) by lia.
  rewrite at_index_nat, Hp.
  destruct (Z.eqb_spec (Z.of_nat (S i)) (Z.of_nat (length (_history s)) - 1)); [lia |].
  done.
Qed.

Lemma redo_step_last s h p :
  _history s = h ++ [p] ->
  _historyIndex s = Z.of_nat (length h) - 1 ->
  (0 < length h)%nat ->
  redo s = mkStore (applySnapshot p) (loading s) (store_error s) (_hasHydrated s)
             h (-1) false.
Proof.
  intros Hh Hi Hlen. unfold redo, canRedo. rewrite Hi, Hh, length_app. simpl.
  destruct (Z.geb_spec (Z.of_nat (length h) - 1) 0); [| lia].
  destruct (Z.ltb_spec (Z.of_nat (length h) - 1) (Z.of_nat (length h + 1) - 1)); [| lia].
  simpl. replace (Z.of_nat (length h) - 1 + 1) with (Z.of_nat (length h)) by lia.
  rewrite at_index_last.
  unfold set_history, set_isUndoRedo, set_data. simpl.
  rewrite length_app. simpl.
  destruct (Z.eqb_spec (Z.of_nat (length h)) (Z.of_nat (length h + 1) - 1)); [| lia].
  by rewrite slice_drop_last.
Qed.

(** As many calls of [redo] as there were calls of [undo] lead back to the
    present, with the state as JSON leaves it and the history as it was. *)
Lemma redo_times_undo_times s (k : nat) :
  _historyIndex s = -1 ->
  (k < length (_history s))%nat ->
  redo_times (S k) (undo_times (S k) s)
  = mkStore (json_data (data s)) (loading s) (store_error s) (_hasHydrated s)
      (_history s) (-1) false.
Proof.
  intros Hi. induction k as [|k IH]; intros Hk.
  - destruct (undo_times_exact s 0 Hi Hk) as (p & Hp & ->).
    unfold redo_times. simpl.
    rewrite (redo_step_last _ (_history s) (createSnapshot s)); simpl.
    + by rewrite applySnapshot_createSnapshot.
    + done.
    + lia.
    + lia.
  - rewrite redo_times_S.
    destruct (undo_times_exact s (S k) Hi Hk) as (q & Hq & ->).
    destruct (undo_times_exact s k Hi) as (p & Hp & E); [lia |].
    rewrite (redo_step_past _ (length (_history s) - S (S k)) p); simpl.
    + replace (S (length (_history s) - S (S k))) with (length (_history s) - S k)%nat
        by lia.
      rewrite <- E. apply IH. lia.
    + done.
    + replace (S (length (_history s) - S (S k))) with (length (_history s) - S k)%nat
        by lia.
      by rewrite lookup_app_l by lia.
    + rewrite length_app. simpl. lia.
Qed.

(** X3: Undo and redo over several steps: with the cursor at the present and [k]
    snapshots or more in the history, [k] calls of [undo] give the state of
    the [k]-th snapshot from the end, and [k] calls of [redo] after them give
    the store back as it was before the first [undo]. *)
Theorem multi_step_round_trip s (k : nat) :
  _historyIndex s = -1 ->
  _isUndoRedo s = false ->
  ids_are_strings (data s) ->
  (k <= length (_history s))%nat ->
  redo_times k (undo_times k s) = s
  /\ ((0 < k)%nat ->
      Some (data (undo_times k s))
      = applySnapshot <$> _history s !! (length (_history s) - k)%nat).
Proof.
  intros Hi Hf Hs Hk. destruct k as [|k].
  - split; [done | lia].
  - split.
    + rewrite redo_times_undo_times by (done || lia).
      rewrite json_data_strings by done. destruct s; simpl in *. by subst.
    + intros _. destruct (undo_times_exact s k Hi) as (p & Hp & ->); [lia |].
      by rewrite Hp.
Qed.

Lemma multi_step_round_trip_witness :
  redo_times 2 (undo_times 2 two_edits_store) = two_edits_store
  /\ ((0 < 2)%nat ->
      Some (data (undo_times 2 two_edits_store))
      = applySnapshot <$>
          _history two_edits_store !! (length (_history two_edits_store) - 2)%nat).
Proof.
  apply (multi_step_round_trip two_edits_store 2).
  - vm_compute. reflexivity.
  - vm_compute. reflexivity.
  - apply (bool_decide_unpack _). vm_compute. exact I.
  - vm_compute. lia.
Defined.


(** ** Strings and validators *)

Lemma trimStart_head s : head_not_space (JsString.trimStart s).
Proof.
  induction s as [|c r IH]; simpl; [done |].
  destruct (JsString.is_white_space c) eqn:E; [done | by simpl].
Qed.

Lemma trimStart_fixed s : head_not_space s -> JsString.trimStart s = s.
Proof. destruct s as [|c r]; simpl; [done |]. by intros ->. Qed.

Lemma trimEnd_head s : head_not_space s -> head_not_space (JsString.trimEnd s).
Proof.
  destruct s as [|c r]; simpl; [done |]. intros Hc.
  destruct (JsString.trimEnd r); simpl; by rewrite ?Hc.
Qed.

Lemma trimEnd_idemp s : JsString.trimEnd (JsString.trimEnd s) = JsString.trimEnd s.
Proof.
  induction s as [|c r IH]; simpl; [done |].
  destruct (JsString.trimEnd r) as [|d t] eqn:E.
  - destruct (JsString.is_white_space c) eqn:Ec; simpl; [done | by rewrite Ec].
  - simpl in *. by rewrite IH.
Qed.

(** Trimming twice is trimming once. *)
Lemma trim_idemp s : JsString.trim (JsString.trim s) = JsString.trim s.
Proof.
  unfold JsString.trim.
  rewrite (trimStart_fixed (JsString.trimEnd (JsString.trimStart s))).
  - apply trimEnd_idemp.
  - apply trimEnd_head, trimStart_head.
Qed.

Lemma some_lower_equal_false existing n :
  some_lower_equal existing n = false <->
  forall e, e ∈ existing -> JsString.toLowerCase e <> n.
Proof.
  unfold some_lower_equal. rewrite <- not_true_iff_false, existsb_exists. split.
  - intros H e He E. apply H. exists e. split; [by apply list_elem_of_In |].
    by apply String.eqb_eq.
  - intros H (e & He & E). apply (H e); [by apply list_elem_of_In |].
    by apply String.eqb_eq.
Qed.

Lemma truthy_length s : 1 <= JsString.length s -> JsString.truthy s = true.
Proof. destruct s; unfold JsString.length; simpl; [lia | done]. Qed.

(** X4: When [validateName] and [validateQuestionTitle] accept: the trimmed
    candidate has 2 to 100 characters (3 to 200 for a title), both bounds
    included, and no existing name is equal to it once both are in lower
    case.  White space around the candidate plays no part. *)
Theorem validators_accept_iff name existing label :
  (valid (validateName name existing label) = true <->
   length_within 2 100 (JsString.trim name)
   /\ forall e, e ∈ existing ->
        JsString.toLowerCase e <> JsString.toLowerCase (JsString.trim name))
  /\ (valid (validateQuestionTitle name existing) = true <->
      length_within 3 200 (JsString.trim name)
      /\ forall e, e ∈ existing ->
           JsString.toLowerCase e <> JsString.toLowerCase (JsString.trim name))
  /\ validateName (JsString.trim name) existing label = validateName name existing label
  /\ validateQuestionTitle (JsString.trim name) existing
     = validateQuestionTitle name existing.
Proof.
  split; [| split; [| split]].
  - unfold validateName, length_within. cbv zeta.
    rewrite <- some_lower_equal_false.
    destruct (JsString.truthy (JsString.trim name)) eqn:Et; simpl.
    + destruct (Z.ltb_spec (JsString.length (JsString.trim name)) 2); simpl;
        [split; [done | lia] |].
      destruct (Z.gtb_spec (JsString.length (JsString.trim name)) 100); simpl;
        [split; [done | lia] |].
      destruct (some_lower_equal _ _); simpl; split; (done || (intros [_ ?]; done) || (split; [lia | done])).
    + split; [done |]. intros [[H _] _].
      rewrite truthy_length in Et by lia. done.
  - unfold validateQuestionTitle, length_within. cbv zeta.
    rewrite <- some_lower_equal_false.
    destruct (JsString.truthy (JsString.trim name)) eqn:Et; simpl.
    + destruct (Z.ltb_spec (JsString.length (JsString.trim name)) 3); simpl;
        [split; [done | lia] |].
      destruct (Z.gtb_spec (JsString.length (JsString.trim name)) 200); simpl;
        [split; [done | lia] |].
      destruct (some_lower_equal _ _); simpl; split; (done || (intros [_ ?]; done) || (split; [lia | done])).
    + split; [done |]. intros [[H _] _].
      rewrite truthy_length in Et by lia. done.
  - unfold validateName. by rewrite trim_idemp.
  - unfold validateQuestionTitle. by rewrite trim_idemp.
Qed.

(** ** What the store holds has passed the validators *)

Lemma validateName_valid_name name existing label :
  negb (valid (validateName name existing label)) = false ->
  valid_name (JsString.trim name).
Proof.
  intros H. apply negb_false_iff in H.
  apply (validators_accept_iff name existing label) in H as [Hlen _].
  split; [apply trim_idemp | done].
Qed.

Lemma validateQuestionTitle_valid_title t existing :
  negb (valid (validateQuestionTitle t existing)) = false ->
  valid_title (JsString.trim t).
Proof.
  intros H. apply negb_false_iff in H.
  apply (validators_accept_iff t existing EmptyString) in H as [Hlen _].
  split; [apply trim_idemp | done].
Qed.

Lemma check_difficulty_stored d :
  negb (valid (check_difficulty d)) = false -> valid_stored_difficulty d.
Proof.
  destruct d as [x|]; simpl; [| done]. intros H. apply negb_false_iff in H.
  destruct (JsString.truthy x) eqn:E; [done |].
  unfold validateDifficulty. by rewrite E.
Qed.

Lemma validateUrl_trim newURL l : validateUrl newURL (JsString.trim l) = validateUrl newURL l.
Proof. unfold validateUrl. by rewrite trim_idemp. Qed.

Lemma trim_truthy l : JsString.truthy (JsString.trim l) = true -> JsString.truthy l = true.
Proof.
  destruct l as [|c r]; [done |]. done.
Qed.

Lemma check_link_stored newURL l :
  negb (valid (check_link newURL l)) = false ->
  valid_stored_link newURL (trim_or_undefined l).
Proof.
  destruct l as [x|]; simpl; [| done]. intros H. apply negb_false_iff in H.
  destruct (JsString.truthy (JsString.trim x)) eqn:E; simpl; [| done].
  split; [by apply truthy_true_nonempty |].
  rewrite validateUrl_trim. by rewrite (trim_truthy x E) in H.
Qed.

Ltac learn_entries :=
  repeat match goal with
         | H : map_Forall ?P ?m, E : ?m !! ?k = Some ?x |- _ =>
             lazymatch goal with
             | _ : P k x |- _ => fail
             | _ => pose proof (H k x E : P k x)
             end
         end.

Ltac fields_step :=
  match goal with
  | |- map_Forall _ (<[_ := _]> _) => apply map_Forall_insert_2
  | |- map_Forall _ (delete _ _) => apply map_Forall_delete
  | |- map_Forall _ (delete_all _ _) => apply map_Forall_delete_all
  | |- _ /\ _ => split
  | |- valid_name (JsString.trim _) => eapply validateName_valid_name; eassumption
  | |- valid_title (JsString.trim _) => eapply validateQuestionTitle_valid_title; eassumption
  | |- valid_stored_difficulty _ => eapply check_difficulty_stored; eassumption
  | |- valid (validateDifficulty ?x) = true =>
      apply (check_difficulty_stored (Some x)); simpl; eassumption
  | H : _ /\ _ |- _ => destruct H
  | |- valid_stored_link _ (trim_or_undefined _) => eapply check_link_stored; eassumption
  | |- _ => eassumption
  end.

(** X5: Every operation keeps the stored fields valid: whatever was added or
    changed went through its validator, and what is stored is the trimmed
    value, which the validator accepts again. *)
Theorem apply_keeps_fields_valid newURL m s s' r :
  fields_valid newURL (data s) ->
  apply newURL m s = Normal (s', r) ->
  fields_valid newURL (data s').
Proof.
  intros (Ht & Hst & Hq) Happ.
  destruct m; simpl in Happ; revert Happ; unfold_operation;
    repeat case_match; intros Happ; inversion Happ; subst; clear Happ;
    try (repeat split; assumption);
    rewrite ?data_recordHistory; learn_entries;
    (split; [| split]); simpl in *; repeat (fields_step; simpl in *).
Qed.

Lemma apply_keeps_fields_valid_witness :
  exists s',
    apply scheme_only_URL
      (AddQuestion "t1" "a"
         (mkQuestionInput "  Two Sum " (Some "Easy") (Some " https://example.com/two-sum "))
         "q6")
      sample_store
    = Normal (s', Some succeeded)
    /\ questionsById (data s') !! "q6"
       = Some (mkQuestion "q6" "Two Sum" (Some "Easy") (Some "https://example.com/two-sum"))
    /\ fields_valid scheme_only_URL (data s').
Proof.
  eexists. split; [vm_compute; reflexivity |].
  split; [vm_compute; reflexivity |].
  match goal with
  | |- fields_valid _ (data ?s') =>
      apply (apply_keeps_fields_valid scheme_only_URL
               (AddQuestion "t1" "a"
                  (mkQuestionInput "  Two Sum " (Some "Easy")
                     (Some " https://example.com/two-sum "))
                  "q6")
               sample_store s' (Some succeeded))
  end.
  - apply (bool_decide_unpack _). vm_compute. exact I.
  - vm_compute. reflexivity.
Defined.


(** ** The invariant of the entity graph *)

Lemma elem_of_splice_in (l : list jsid) i x v :
  v ∈ JsArray.splice_in l i x <-> v = x \/ v ∈ l.
Proof.
  unfold JsArray.splice_in.
  rewrite elem_of_app, elem_of_cons.
  rewrite <- (take_drop (JsArray.relative_index (length l) i) l) at 5.
  rewrite elem_of_app. tauto.
Qed.

Lemma elem_of_reorder (l : list jsid) i j v :
  (JsArray.relative_index (length l) i < length l)%nat ->
  v ∈ reorder l i j <-> v ∈ l.
Proof.
  intros Hi. unfold reorder, JsArray.splice_out. cbv zeta.
  destruct (lookup_lt_is_Some_2 l _ Hi) as [x Hx]. rewrite Hx. simpl.
  rewrite elem_of_splice_in.
  pose proof (delete_Permutation l _ x Hx) as Hp.
  rewrite (elem_of_Permutation_proper v _ _ Hp), elem_of_cons. tauto.
Qed.

Lemma elem_of_filter_ne (l : list jsid) x v :
  v ∈ filter (fun y => y <> x) l <-> v <> x /\ v ∈ l.
Proof. by rewrite list_elem_of_filter. Qed.

Lemma elem_of_snoc (l : list jsid) x v : v ∈ l ++ [x] <-> v ∈ l \/ v = x.
Proof. by rewrite elem_of_app, list_elem_of_singleton. Qed.

#[local] Arguments reorder : simpl never.

(** Forward reasoning: a fact is added once; the copy under [inhabited]
    records that it has been. *)
Ltac learn H :=
  let T := type of H in
  lazymatch goal with
  | _ : inhabited T |- _ => fail
  | _ => let M := fresh "M" in
         pose proof (inhabits H : inhabited T) as M; pose proof H
  end.

Lemma elem_of_keys (l : list jsid) k :
  IdStr k ∈ l -> k ∈ key_of <$> l.
Proof. intros H. by apply (list_elem_of_fmap_2 key_of) in H. Qed.

Lemma elem_of_question_keys m ids a st k :
  IdStr a ∈ ids -> m !! a = Some st -> IdStr k ∈ questionIds st ->
  k ∈ key_of <$> questions_of m ids.
Proof.
  intros Ha Hm Hk. apply elem_of_keys, elem_of_questions_of.
  by exists (IdStr a), st.
Qed.

Ltac wf_range :=
  solve [ assumption
        | match goal with H : forall _, _ -> (_ < _)%nat |- _ => by apply H end ].

Ltac wf_hyps :=
  repeat match goal with
         | H : context [<[_ := _]> _ !! _ = Some _] |- _ =>
             setoid_rewrite lookup_insert_Some in H
         | H : context [is_Some (<[_ := _]> _ !! _)] |- _ =>
             setoid_rewrite lookup_insert_is_Some in H
         | H : context [delete _ _ !! _ = Some _] |- _ =>
             setoid_rewrite lookup_delete_Some in H
         | H : context [is_Some (delete _ _ !! _)] |- _ =>
             setoid_rewrite lookup_delete_is_Some in H
         | H : context [delete_all _ _ !! _] |- _ =>
             rewrite delete_all_lookup in H; case_decide
         | H : context [_ ∈ _ ++ [_]] |- _ => setoid_rewrite elem_of_snoc in H
         | H : context [_ ∈ filter _ _] |- _ => setoid_rewrite elem_of_filter_ne in H
         | H : context [_ ∈ JsArray.splice_in _ _ _] |- _ =>
             setoid_rewrite elem_of_splice_in in H
         | H : context [_ ∈ reorder _ _ _] |- _ =>
             rewrite elem_of_reorder in H by wf_range
         | H : _ ∈ questions_of _ _ |- _ => apply elem_of_questions_of in H
         | H : _ ∈ key_of <$> _ |- _ => apply list_elem_of_fmap in H
         | H : _ ∈ [] |- _ => by apply elem_of_nil in H
         | H : ?k ∉ key_of <$> ?l, H' : IdStr ?k ∈ ?l |- _ =>
             by destruct (H (elem_of_keys l k H'))
         | H : ?k ∉ key_of <$> questions_of ?m ?ids, Ha : IdStr ?a ∈ ?ids,
             L : ?m !! ?a = Some ?st, Hk : IdStr ?k ∈ questionIds ?st |- _ =>
             by destruct (H (elem_of_question_keys m ids a st k Ha L Hk))
         | H : ?x <> ?x |- _ => by destruct H
         | H : is_Some _ |- _ => destruct H as [? H]
         | H : exists _, _ |- _ => destruct H as [? H]
         | H : _ /\ _ |- _ => destruct H as [? H]
         | H : _ \/ _ |- _ => destruct H as [H|H]
         | _ => progress (simplify_eq; simpl in * )
         end.

Ltac wf_saturate :=
  repeat first
    [ progress wf_hyps
    | match goal with
      | W : order_resolves ?d, H : ?v ∈ topicOrder ?d |- _ => learn (W v H)
      | W : sub_topics_resolve ?d, L : topicsById ?d !! ?t = Some ?x,
          H : ?v ∈ subTopicIds ?x |- _ => learn (W t x v L H)
      | W : questions_resolve ?d, L : subTopicsById ?d !! ?t = Some ?x,
          H : ?v ∈ questionIds ?x |- _ => learn (W t x v L H)
      | W : questions_exclusive ?d, L1 : subTopicsById ?d !! ?a = Some ?x,
          L2 : subTopicsById ?d !! ?b = Some ?y,
          I1 : ?v ∈ questionIds ?x, I2 : ?v ∈ questionIds ?y |- _ =>
          tryif unify a b then fail else learn (W a b x y v L1 L2 I1 I2)
      | W : topics_ordered ?d, L : topicsById ?d !! ?t = Some ?x |- _ =>
          learn (W t (mk_is_Some _ _ L))
      | W : sub_topics_owned ?d, L : subTopicsById ?d !! ?t = Some ?x |- _ =>
          learn (W t x L)
      | W : questions_owned ?d, L : questionsById ?d !! ?t = Some ?x |- _ =>
          learn (W t (mk_is_Some _ _ L))
      | W : forall sub, subTopicsById ?d !! ?k = Some sub -> _,
          L : subTopicsById ?d !! ?k = Some ?x |- _ => learn (W x L)
      | W : forall sub, Some ?x = Some sub -> _ |- _ => learn (W x eq_refl)
      end ].

Ltac wf_goal_norm :=
  simpl;
  repeat match goal with
         | |- context [_ ∈ reorder _ _ _] => rewrite elem_of_reorder by wf_range
         | |- context [_ ∈ _ ++ [_]] => setoid_rewrite elem_of_snoc
         | |- context [_ ∈ filter _ _] => setoid_rewrite elem_of_filter_ne
         | |- context [_ ∈ JsArray.splice_in _ _ _] =>
             setoid_rewrite elem_of_splice_in
         end.

Ltac wf_lookup :=
  repeat (rewrite lookup_insert || rewrite lookup_delete || rewrite delete_all_lookup);
  repeat (case_decide; wf_saturate).

Ltac wf_close :=
  wf_goal_norm;
  solve [ eauto | congruence | intuition (eauto; congruence) ].

Ltac wf_entity :=
  wf_lookup; eexists; (split; [reflexivity || eassumption |]); wf_close.

Ltac wf_goal :=
  lazymatch goal with
  | |- exists k, IdStr ?x = IdStr k /\ is_Some _ =>
      exists x; (split; [reflexivity |]); wf_lookup; wf_close
  | |- exists k st, IdStr ?x = IdStr k /\ _ !! _ = Some _ /\ _ =>
      exists x; wf_lookup; eexists; (split; [reflexivity |]);
      (split; [reflexivity || eassumption |]); wf_close
  | |- exists topic, _ !! _ = Some _ /\ _ => wf_entity
  | |- exists s st, _ !! s = Some st /\ IdStr ?q ∈ _ =>
      try match goal with
          | |- context [filter (fun id => id ≠ IdStr ?q') _] =>
              destruct (decide (q = q')); simplify_eq
          end;
      match goal with
      | L : subTopicsById _ !! ?a = Some _ |- _ => exists a; wf_entity
      end
  | |- _ => wf_close
  end.

Ltac wf_start Hwf :=
  first
    [ by rewrite data_recordHistory
    | destruct Hwf as (? & ? & ? & ? & ? & ? & ?);
      unfold well_formed; repeat split;
      [ unfold order_resolves | unfold sub_topics_resolve | unfold questions_resolve
      | unfold questions_exclusive | unfold topics_ordered | unfold sub_topics_owned
      | unfold questions_owned ];
      intros; simpl in *; wf_saturate ].

Ltac clear_checks :=
  repeat match goal with
         | H : negb (valid _) = _ |- _ => clear H
         | H : negb (String.eqb _ _) = false |- _ =>
             apply negb_false_iff, String.eqb_eq in H
         | H : negb (bool_decide _) = false |- _ =>
             apply negb_false_iff, bool_decide_eq_true in H
         end.

Ltac op_cases Happ :=
  revert Happ; unfold_operation;
  repeat case_match; intros Happ; inversion Happ; subst; clear Happ;
  try assumption; clear_checks.

(** Every call of the write contract that respects [valid_call] keeps the
    graph well formed. *)
Lemma apply_well_formed newURL m s s' r :
  well_formed (data s) ->
  valid_call m s ->
  apply newURL m s = Normal (s', r) ->
  well_formed (data s').
Proof.
  intros Hwf Hvalid Happ.
  destruct m; cbn [apply] in Happ; simpl in Hvalid; op_cases Happ;
    wf_start Hwf; wf_goal.
Qed.

(** ** The invariant across the history *)

Lemma well_formed_entries_sound d : well_formed_entries d -> well_formed d.
Proof.
  intros (E1 & E2 & E3 & E4 & E5 & E6 & E7). repeat split.
  - intros v Hv. rewrite Forall_forall in E1. specialize (E1 v Hv).
    destruct v; try done. by eexists.
  - intros t topic v Ht Hv. specialize (E2 t topic Ht). simpl in E2.
    rewrite Forall_forall in E2. specialize (E2 v Hv).
    destruct v as [k| |]; try done. simpl in E2.
    destruct (subTopicsById d !! k) as [st|] eqn:E; simplify_eq/=.
    by exists k, st.
  - intros k st v Hk Hv. specialize (E3 k st Hk). simpl in E3.
    rewrite Forall_forall in E3. specialize (E3 v Hv).
    destruct v; try done. by eexists.
  - intros s1 s2 st1 st2 v L1 L2 I1 I2.
    specialize (E4 s1 st1 L1 s2 st2 L2). simpl in E4.
    rewrite Forall_forall in E4. by apply (E4 v).
  - intros t [topic Ht]. by apply (E5 t topic).
  - intros k st Hk. specialize (E6 k st Hk). unfold listed_by_topic in E6.
    destruct (topicsById d !! topicId st) as [topic|]; [by exists topic | done].
  - intros q [x Hq]. destruct (E7 q x Hq) as (k & st & Hk & Hin). by exists k, st.
Qed.

Lemma well_formed_strings d : well_formed d -> ids_are_strings d.
Proof.
  intros (_ & H2 & H3 & _). split.
  - intros t topic Ht. simpl. apply Forall_forall. intros v Hv.
    destruct (H2 t topic v Ht Hv) as (k & st & -> & _). done.
  - intros k st Hk. simpl. apply Forall_forall. intros v Hv.
    destruct (H3 k st v Hk Hv) as (q & -> & _). done.
Qed.

Lemma createSnapshot_well_formed s :
  well_formed (data s) -> createSnapshot s = data s.
Proof.
  intros Hwf. transitivity (json_data (data s)).
  - unfold createSnapshot, json_data. by rewrite fmap_json_question.
  - by apply json_data_strings, well_formed_strings.
Qed.

Lemma applySnapshot_well_formed h : well_formed h -> applySnapshot h = h.
Proof.
  intros Hwf. transitivity (json_data h).
  - unfold applySnapshot, json_data. by rewrite fmap_json_question.
  - by apply json_data_strings, well_formed_strings.
Qed.

Lemma Forall_slice {A} (P : A -> Prop) l i j :
  Forall P l -> Forall P (JsArray.slice l i j).
Proof. intros H. unfold JsArray.slice. by apply Forall_take, Forall_drop. Qed.

Lemma Forall_slice_from {A} (P : A -> Prop) l i :
  Forall P l -> Forall P (JsArray.slice_from l i).
Proof. intros H. unfold JsArray.slice_from. by apply Forall_drop. Qed.

Lemma Forall_at_index {A} (P : A -> Prop) l i x :
  Forall P l -> JsArray.at_index l i = Some x -> P x.
Proof.
  intros H. unfold JsArray.at_index. case_match; [done |].
  intros Hx. by apply (Forall_lookup_1 P l _ x H Hx).
Qed.

(** What [_recordHistory], [undo] and [redo] keep: a property of the graph
    that a snapshot taken and a snapshot applied have when the graph has it
    holds of the store and of the history after them when it did before. *)
Section HistoryInvariant.
Variable P : PersistedState -> Prop.
Hypothesis P_createSnapshot : forall s, P (data s) -> P (createSnapshot s).
Hypothesis P_applySnapshot : forall h, P h -> P (applySnapshot h).

Lemma recordHistory_keeps s :
  P (data s) -> Forall P (_history s) ->
  P (data (_recordHistory s)) /\ Forall P (_history (_recordHistory s)).
Proof.
  intros Hd Hh. split; [by rewrite data_recordHistory |].
  unfold _recordHistory. destruct (_isUndoRedo s); [done |]. cbv zeta. simpl.
  assert (Forall P (kept_history s ++ [createSnapshot s])) as Hk.
  { apply Forall_app. split.
    - unfold kept_history. case_match; [by apply Forall_slice | done].
    - apply Forall_singleton. by apply P_createSnapshot. }
  unfold kept_history in Hk. repeat case_match; try done; by apply Forall_slice_from.
Qed.

Lemma undo_keeps s :
  P (data s) -> Forall P (_history s) ->
  P (data (undo s)) /\ Forall P (_history (undo s)).
Proof.
  intros Hd Hh. unfold undo. case_match; [done |].
  assert (Forall P (_history s ++ [createSnapshot s])) as Hp.
  { apply Forall_app. split; [done |].
    apply Forall_singleton. by apply P_createSnapshot. }
  repeat case_match; simpl in *; split; simpl; try done.
  all: match goal with
       | H : JsArray.at_index _ _ = Some ?h |- P (applySnapshot ?h) =>
           eapply Forall_at_index in H; [| eassumption];
           by apply P_applySnapshot
       end.
Qed.

Lemma redo_keeps s :
  P (data s) -> Forall P (_history s) ->
  P (data (redo s)) /\ Forall P (_history (redo s)).
Proof.
  intros Hd Hh. unfold redo. case_match; [done |]. cbv zeta.
  repeat case_match; simpl in *; split; simpl; try done;
    try by apply Forall_slice.
  all: match goal with
       | H : JsArray.at_index _ _ = Some ?h |- P (applySnapshot ?h) =>
           eapply Forall_at_index in H; [| eassumption];
           by apply P_applySnapshot
       end.
Qed.

Lemma committed_keeps newURL m s s' r :
  P (data s) -> Forall P (_history s) ->
  apply newURL m s = Normal (s', r) ->
  Forall P (_history s').
Proof.
  intros Hd Hh Happ.
  destruct (apply_cases newURL m s) as [(r0 & E & _)|(d & r0 & E & _)];
    rewrite E in Happ; inversion Happ; subst; [done |].
  simpl. by destruct (recordHistory_keeps s Hd Hh).
Qed.
End HistoryInvariant.

Lemma well_formed_createSnapshot s :
  well_formed (data s) -> well_formed (createSnapshot s).
Proof. intros H. by rewrite createSnapshot_well_formed. Qed.

Lemma well_formed_applySnapshot h : well_formed h -> well_formed (applySnapshot h).
Proof. intros H. by rewrite applySnapshot_well_formed. Qed.

(** X6: Referential integrity is an invariant of a session.  When the graph
    in the store and the graphs in the history are well formed (every listed
    id is a string that names an entity, a sub-topic is listed by the topic it
    names, no question is listed by two sub-topics, nothing is orphaned), they
    still are after any call of the write contract that raises nothing and
    respects [valid_call], after [undo] and after [redo]. *)
Theorem session_keeps_well_formed newURL s :
  store_well_formed s ->
  (forall m s' r,
     valid_call m s -> apply newURL m s = Normal (s', r) -> store_well_formed s')
  /\ store_well_formed (undo s)
  /\ store_well_formed (redo s).
Proof.
  intros [Hd Hh]. split; [| split].
  - intros m s' r Hvalid Happ. split.
    + by apply (apply_well_formed newURL m s s' r).
    + by apply (committed_keeps well_formed well_formed_createSnapshot newURL m s s' r).
  - by apply (undo_keeps well_formed well_formed_createSnapshot
                well_formed_applySnapshot).
  - by apply (redo_keeps well_formed well_formed_applySnapshot).
Qed.

Lemma session_keeps_well_formed_witness :
  store_well_formed two_edits_store
  /\ valid_call (AddSubTopic "t2" "Traversal" "s9") two_edits_store
  /\ store_well_formed (after (AddSubTopic "t2" "Traversal" "s9") two_edits_store)
  /\ store_well_formed (undo two_edits_store)
  /\ store_well_formed (redo two_edits_store).
Proof.
  assert (store_well_formed two_edits_store) as Hs.
  { split.
    - apply well_formed_entries_sound. apply (bool_decide_unpack _).
      vm_compute. exact I.
    - apply (Forall_impl well_formed_entries); [| exact well_formed_entries_sound].
      apply (bool_decide_unpack _). vm_compute. exact I. }
  assert (valid_call (AddSubTopic "t2" "Traversal" "s9") two_edits_store) as Hv.
  { vm_compute. reflexivity. }
  destruct (session_keeps_well_formed scheme_only_URL two_edits_store Hs)
    as (Ha & Hu & Hr).
  split; [exact Hs |]. split; [exact Hv |]. split; [| by split].
  apply (Ha (AddSubTopic "t2" "Traversal" "s9")
           (after (AddSubTopic "t2" "Traversal" "s9") two_edits_store)
           (Some succeeded) Hv).
  vm_compute. reflexivity.
Defined.

(** ** Drag and drop *)

Lemma indexOf_from_spec l x i k :
  indexOf_from l x i = k -> k <> -1 -> 0 <= i ->
  i <= k < i + Z.of_nat (length l) /\ l !! Z.to_nat (k - i) = Some x.
Proof.
  revert i. induction l as [|y l IH]; intros i Hk Hne Hi; simpl in Hk; [lia |].
  case_decide as E.
  - subst. split; [simpl; lia |]. by rewrite Z.sub_diag.
  - destruct (IH (i + 1) Hk Hne ltac:(lia)) as [Hr Hl]. split; [simpl; lia |].
    replace (Z.to_nat (k - i)) with (S (Z.to_nat (k - (i + 1)))) by lia. done.
Qed.

Lemma indexOf_found l x :
  indexOf l x <> -1 ->
  0 <= indexOf l x < Z.of_nat (length l)
  /\ JsArray.at_index l (indexOf l x) = Some x.
Proof.
  intros Hne.
  destruct (indexOf_from_spec l x 0 (indexOf l x) eq_refl Hne ltac:(lia)) as [Hr Hl].
  split; [lia |]. unfold JsArray.at_index.
  destruct (Z.ltb_spec (indexOf l x) 0); [lia |].
  by rewrite Z.sub_0_r in Hl.
Qed.

Lemma indexOf_in_range l x :
  indexOf l x <> -1 ->
  (JsArray.relative_index (length l) (indexOf l x) < length l)%nat.
Proof.
  intros Hne. destruct (indexOf_found l x Hne) as [Hr _].
  rewrite relative_index_nonneg by lia. lia.
Qed.

Ltac drag_cases H :=
  repeat match type of H with
         | None = Some _ => discriminate H
         | Some _ = Some _ => injection H as <-
         | context [String.eqb ?a ?b] =>
             destruct (String.eqb_spec a b); simpl in H
         | context [negb (?a =? ?b) && _] =>
             destruct (Z.eqb_spec a b); simpl in H
         | context [negb (?a =? ?b)] =>
             destruct (Z.eqb_spec a b); simpl in H
         | context [match ?x with _ => _ end] =>
             let E := fresh "E" in destruct x eqn:E; simpl in H
         end.

(** X7: What a drop makes the store do.  [handleDragEnd] makes at most one
    call, a reorder or a move of the dragged id.  A move never has the
    container it takes from as its destination.  The source and the
    destination position of a reorder are those of the dragged id and of the
    id dropped on, so both are positions of the array.  The call respects
    [valid_call], and a well-formed graph is well formed after it. *)
Theorem drag_end_call values s active overId m :
  handleDragEnd values (data s) active (Some overId) = Some m ->
  valid_call m s
  /\ ~ self_move m
  /\ reorder_positions (data s) active overId m
  /\ (forall newURL s' r,
        well_formed (data s) ->
        apply newURL m s = Normal (s', r) ->
        well_formed (data s')).
Proof.
  intros H.
  assert (valid_call m s /\ ~ self_move m
          /\ reorder_positions (data s) active overId m) as (Hv & Hs & Hp).
  { unfold handleDragEnd in H.
    destruct (String.eqb_spec active overId) as [|Hne]; [done |].
    cbv zeta in H.
    destruct (is_kind DragTopic (determineDragType values (data s) active)).
    { drag_cases H.
      destruct (indexOf_found (topicOrder (data s)) (IdStr active)) as [? ?]; [done |].
      destruct (indexOf_found (topicOrder (data s)) (IdStr overId)) as [? ?]; [done |].
      simpl. split; [by apply indexOf_in_range |]. split; [tauto | done]. }
    destruct (container_of DragSubTopic (determineDragType values (data s) active))
      as [source|].
    { destruct (container_of DragSubTopic (determineDragType values (data s) overId))
        as [overSource|].
      - drag_cases H; simpl.
        + split; [| split; [tauto |]].
          * intros topic0 Ht. simplify_eq. by apply indexOf_in_range.
          * eexists. split; [done |]. split; by apply indexOf_found.
        + done.
      - drag_cases H; simpl. done. }
    destruct (container_of DragQuestion (determineDragType values (data s) active))
      as [source|]; [| done].
    destruct (container_of DragQuestion (determineDragType values (data s) overId))
      as [overSource|].
    - drag_cases H; simpl.
      + split; [| split; [tauto |]].
        * intros sub0 Ht. simplify_eq. by apply indexOf_in_range.
        * eexists. split; [done |]. split; by apply indexOf_found.
      + done.
    - drag_cases H; simpl. done. }
  split; [done |]. split; [done |]. split; [done |].
  intros newURL s' r Hwf Happ. by apply (apply_well_formed newURL m s s' r).
Qed.

Lemma drag_end_call_witness :
  let m := MoveQuestionToSubTopic "q1" "a" "b" 0 in
  handleDragEnd (map_to_list (subTopicsById sample_data)).*2
    (data sample_store) "q1" (Some "q4") = Some m
  /\ valid_call m sample_store
  /\ ~ self_move m
  /\ reorder_positions (data sample_store) "q1" "q4" m
  /\ (forall newURL s' r,
        well_formed (data sample_store) ->
        apply newURL m sample_store = Normal (s', r) ->
        well_formed (data s')).
Proof.
  assert (handleDragEnd (map_to_list (subTopicsById sample_data)).*2
            (data sample_store) "q1" (Some "q4")
          = Some (MoveQuestionToSubTopic "q1" "a" "b" 0)) as H.
  { vm_compute. reflexivity. }
  split; [exact H |].
  exact (drag_end_call _ sample_store "q1" "q4" _ H).
Defined.

(** ** The nested view *)

Section FoldInsert.
Context {A V : Type} (key : A -> string) (val : A -> V).
Context (f : gmap string V -> A -> gmap string V).
Hypothesis f_insert : forall acc x, f acc x = <[key x := val x]> acc.

Lemma foldl_insert_other l m k :
  k ∉ key <$> l -> foldl f m l !! k = m !! k.
Proof.
  revert m. induction l as [|x l IH]; intros m Hk; [done |]. simpl.
  rewrite fmap_cons, not_elem_of_cons in Hk. destruct Hk as [Hx Hl].
  rewrite IH by done. rewrite f_insert. by rewrite lookup_insert_ne.
Qed.

Lemma foldl_insert_elem l m x :
  NoDup (key <$> l) -> x ∈ l -> foldl f m l !! key x = Some (val x).
Proof.
  revert m. induction l as [|y l IH]; intros m Hnd Hx; [by apply elem_of_nil in Hx |].
  rewrite fmap_cons, NoDup_cons in Hnd. destruct Hnd as [Hy Hnd]. simpl.
  apply elem_of_cons in Hx as [->|Hx].
  - rewrite foldl_insert_other by done. rewrite f_insert. by rewrite lookup_insert_eq.
  - by apply IH.
Qed.

Lemma foldl_insert_Some l m k v :
  foldl f m l !! k = Some v ->
  (exists x, x ∈ l /\ key x = k /\ v = val x) \/ m !! k = Some v.
Proof.
  revert m. induction l as [|y l IH]; intros m H; [by right |]. simpl in H.
  destruct (IH _ H) as [(x & Hx & Hk & Hv)|Hm].
  - left. exists x. split; [by apply list_elem_of_further | done].
  - rewrite f_insert in Hm. apply lookup_insert_Some in Hm as [[Hk Hv]|[Hk Hm]].
    + left. exists y. split; [apply list_elem_of_here | done].
    + by right.
Qed.
End FoldInsert.

(** [omap] over a [map] whose function finds every element. *)
Lemma omap_fmap_imap {A B C} (F : B -> option C) (h : A -> B) (g : nat -> A -> C) l :
  (forall j x, l !! j = Some x -> F (h x) = Some (g j x)) ->
  omap F (h <$> l) = imap g l.
Proof.
  revert g. induction l as [|x l IH]; intros g H; [done |]. simpl.
  rewrite (H 0%nat x eq_refl). f_equal. apply IH.
  intros j y Hy. apply (H (S j) y Hy).
Qed.

Lemma omap_imap_imap {A C} (F : nat -> A -> option C) (g : nat -> A -> C) l :
  (forall j x, l !! j = Some x -> F j x = Some (g j x)) ->
  omap id (imap F l) = imap g l.
Proof.
  revert F g. induction l as [|x l IH]; intros F g H; [done |]. simpl.
  rewrite (H 0%nat x eq_refl). simpl. f_equal. apply IH.
  intros j y Hy. apply (H (S j) y Hy).
Qed.

Lemma indexOf_from_fresh l x i : x ∉ l -> indexOf_from l x i = -1.
Proof.
  revert i. induction l as [|y l IH]; intros i H; [done |]. simpl.
  rewrite not_elem_of_cons in H. destruct H as [Hy Hl].
  case_decide; [congruence | by apply IH].
Qed.

Lemma indexOf_from_position l (x : jsid) i (j : nat) :
  NoDup l -> l !! j = Some x -> indexOf_from l x i = i + Z.of_nat j.
Proof.
  revert i j. induction l as [|y l IH]; intros i j Hnd Hj; [done |]. simpl.
  apply NoDup_cons in Hnd as [Hy Hnd]. destruct j as [|j]; simpl in Hj.
  - simplify_eq. case_decide; [lia | done].
  - case_decide as E.
    + subst. destruct Hy. by apply list_elem_of_lookup_2 in Hj.
    + rewrite (IH (i + 1) j) by done. lia.
Qed.

Lemma indexOf_position l (x : jsid) (j : nat) :
  NoDup l -> l !! j = Some x -> indexOf l x = Z.of_nat j.
Proof. intros Hnd Hj. unfold indexOf. by rewrite (indexOf_from_position l x 0 j). Qed.


(** *** What [normalizeData] builds *)

Lemma normalize_subTopics_fields t acc sts :
  let r := foldl (normalize_subTopic t) acc sts in
  topicsById r = topicsById acc
  /\ topicOrder r = topicOrder acc
  /\ expandedTopics r = expandedTopics acc
  /\ subTopicsById r
     = foldl (fun m st => <[nested_subTopic_id st := stored_subTopic t st]> m)
         (subTopicsById acc) sts
  /\ questionsById r
     = foldl normalize_question (questionsById acc) (sts ≫= questions).
Proof.
  revert acc. induction sts as [|st sts IH]; intros acc; [done |].
  cbn [foldl]. destruct (IH (normalize_subTopic t acc st)) as (-> & -> & -> & -> & ->).
  simpl. repeat split; try done. by rewrite foldl_app.
Qed.

Lemma normalize_topics_fields acc ts :
  let r := foldl normalize_topic acc ts in
  topicOrder r
  = topicOrder acc ++ ((fun t => IdStr (nested_topic_id t)) <$> ts)
  /\ topicsById r
     = foldl (fun m t => <[nested_topic_id t := stored_topic t]> m) (topicsById acc) ts
  /\ subTopicsById r
     = foldl (fun m p => <[nested_subTopic_id p.2 := stored_subTopic p.1 p.2]> m)
         (subTopicsById acc) (owned_subTopics ts)
  /\ questionsById r
     = foldl normalize_question (questionsById acc) (all_questions ts).
Proof.
  revert acc. induction ts as [|t ts IH]; intros acc.
  { simpl. by rewrite app_nil_r. }
  cbn [foldl]. destruct (IH (normalize_topic acc t)) as (-> & -> & -> & ->).
  destruct (normalize_subTopics_fields (nested_topic_id t) acc (subTopics t))
    as (Ht & Ho & _ & Hs & Hq).
  unfold normalize_topic. cbv zeta. simpl. rewrite Ht, Ho, Hs, Hq.
  repeat split.
  - by rewrite <- app_assoc.
  - unfold owned_subTopics. simpl. rewrite foldl_app. f_equal.
    generalize (subTopicsById acc). generalize (subTopics t).
    induction l as [|st l IHl]; intros m; [done |]. simpl. by rewrite IHl.
  - unfold all_questions, all_subTopics. simpl. rewrite bind_app. by rewrite foldl_app.
Qed.

Lemma NoDup_bind_elem {A B} (f : A -> list B) (key : B -> string) l x :
  NoDup (key <$> (l ≫= f)) -> x ∈ l -> NoDup (key <$> f x).
Proof.
  intros Hnd Hx. apply list_elem_of_split in Hx as (l1 & l2 & ->).
  rewrite bind_app, bind_cons, !fmap_app in Hnd.
  apply NoDup_app in Hnd as (_ & _ & Hnd). by apply NoDup_app in Hnd as (Hnd & _).
Qed.

Lemma NoDup_ids {A} (key : A -> string) (l : list A) :
  NoDup (key <$> l) -> NoDup ((fun x => IdStr (key x)) <$> l).
Proof.
  intros Hnd. rewrite (list_fmap_compose key IdStr).
  assert (Inj eq eq IdStr) by (by intros a b [= ->]).
  by apply (NoDup_fmap_2 IdStr).
Qed.

Lemma elem_of_owned_subTopics ts t st :
  (t, st) ∈ owned_subTopics ts <->
  exists topic, topic ∈ ts /\ t = nested_topic_id topic /\ st ∈ subTopics topic.
Proof.
  unfold owned_subTopics. rewrite list_elem_of_bind. split.
  - intros (topic & Hin & Ht). apply list_elem_of_fmap in Hin as (st' & [= -> ->] & Hst).
    by exists topic.
  - intros (topic & Ht & -> & Hst). exists topic. split; [| done].
    by apply (list_elem_of_fmap_2 (fun st => (nested_topic_id topic, st))).
Qed.

Lemma owned_subTopics_snd ts : (owned_subTopics ts).*2 = all_subTopics ts.
Proof.
  unfold owned_subTopics, all_subTopics. induction ts as [|t ts IH]; [done |].
  rewrite !bind_cons, fmap_app, IH. f_equal.
  rewrite <- list_fmap_compose. by rewrite list_fmap_id.
Qed.

Lemma elem_of_all_subTopics ts st :
  st ∈ all_subTopics ts <-> exists t, t ∈ ts /\ st ∈ subTopics t.
Proof.
  unfold all_subTopics. rewrite list_elem_of_bind. naive_solver.
Qed.

Lemma elem_of_all_questions ts q :
  q ∈ all_questions ts <->
  exists t st, t ∈ ts /\ st ∈ subTopics t /\ q ∈ questions st.
Proof.
  unfold all_questions. rewrite list_elem_of_bind.
  setoid_rewrite elem_of_all_subTopics. naive_solver.
Qed.

Section Normalized.
Variable ts : list Topic.
Hypothesis Hdistinct : distinct_ids ts.

Lemma normalizeData_topicOrder :
  topicOrder (normalizeData ts) = (fun t => IdStr (nested_topic_id t)) <$> ts.
Proof.
  unfold normalizeData.
  by destruct (normalize_topics_fields empty_data ts) as (-> & _).
Qed.

Lemma normalizeData_topic t :
  t ∈ ts ->
  topicsById (normalizeData ts) !! nested_topic_id t = Some (stored_topic t).
Proof.
  intros Ht. unfold normalizeData.
  destruct (normalize_topics_fields empty_data ts) as (_ & -> & _).
  apply (foldl_insert_elem nested_topic_id stored_topic); [done | | done].
  apply Hdistinct.
Qed.

Lemma normalizeData_subTopic t st :
  t ∈ ts -> st ∈ subTopics t ->
  subTopicsById (normalizeData ts) !! nested_subTopic_id st
  = Some (stored_subTopic (nested_topic_id t) st).
Proof.
  intros Ht Hst. unfold normalizeData.
  destruct (normalize_topics_fields empty_data ts) as (_ & _ & -> & _).
  apply (foldl_insert_elem (fun p => nested_subTopic_id p.2)
           (fun p => stored_subTopic p.1 p.2) _ ltac:(done) _ _ (nested_topic_id t, st)).
  - replace ((fun p : string * SubTopic => nested_subTopic_id p.2)
               <$> owned_subTopics ts)
      with (nested_subTopic_id <$> (owned_subTopics ts).*2)
      by (by rewrite <- list_fmap_compose).
    rewrite owned_subTopics_snd. apply Hdistinct.
  - apply elem_of_owned_subTopics. by exists t.
Qed.

Lemma normalizeData_question q :
  q ∈ all_questions ts ->
  questionsById (normalizeData ts) !! nested_question_id q = Some (stored_question q).
Proof.
  intros Hq. unfold normalizeData.
  destruct (normalize_topics_fields empty_data ts) as (_ & _ & _ & ->).
  apply (foldl_insert_elem nested_question_id stored_question); [done | | done].
  apply Hdistinct.
Qed.

Lemma normalizeData_topic_inv k e :
  topicsById (normalizeData ts) !! k = Some e ->
  exists t, t ∈ ts /\ k = nested_topic_id t /\ e = stored_topic t.
Proof.
  unfold normalizeData.
  destruct (normalize_topics_fields empty_data ts) as (_ & -> & _).
  intros H.
  apply (foldl_insert_Some nested_topic_id stored_topic) in H as [(t & ? & ? & ?)|H];
    [by exists t | done | done].
Qed.

Lemma normalizeData_subTopic_inv k e :
  subTopicsById (normalizeData ts) !! k = Some e ->
  exists t st, t ∈ ts /\ st ∈ subTopics t /\ k = nested_subTopic_id st
               /\ e = stored_subTopic (nested_topic_id t) st.
Proof.
  unfold normalizeData.
  destruct (normalize_topics_fields empty_data ts) as (_ & _ & -> & _).
  intros H.
  apply (foldl_insert_Some (fun p => nested_subTopic_id p.2)
           (fun p => stored_subTopic p.1 p.2)) in H as [([t st] & Hin & ? & ?)|H];
    [| done | done].
  apply elem_of_owned_subTopics in Hin as (topic & ? & -> & ?).
  by exists topic, st.
Qed.

Lemma normalizeData_question_inv k e :
  questionsById (normalizeData ts) !! k = Some e ->
  exists q, q ∈ all_questions ts /\ k = nested_question_id q /\ e = stored_question q.
Proof.
  unfold normalizeData.
  destruct (normalize_topics_fields empty_data ts) as (_ & _ & _ & ->).
  intros H.
  apply (foldl_insert_Some nested_question_id stored_question) in H
    as [(q & ? & ? & ?)|H]; [by exists q | done | done].
Qed.

Lemma denormalize_stored_questions st :
  st ∈ all_subTopics ts ->
  denormalize_questions (questionsById (normalizeData ts))
    ((fun q => IdStr (nested_question_id q)) <$> questions st)
  = positioned_questions (questions st).
Proof.
  intros Hst. unfold denormalize_questions, positioned_questions.
  rewrite imap_fmap. apply omap_imap_imap. intros k q Hq. simpl.
  rewrite normalizeData_question; [done |].
  unfold all_questions. apply list_elem_of_bind. exists st.
  split; [by apply list_elem_of_lookup_2 in Hq | done].
Qed.

Lemma denormalize_stored_topic t :
  t ∈ ts ->
  denormalizeTopic (IdStr (nested_topic_id t)) (topicsById (normalizeData ts))
    (subTopicsById (normalizeData ts)) (questionsById (normalizeData ts))
  = Some (mkNestedTopic (nested_topic_id t) (nested_topic_name t) 0
            (positioned_subTopics (subTopics t))).
Proof.
  intros Ht. unfold denormalizeTopic. simpl. rewrite normalizeData_topic by done.
  simpl. f_equal. f_equal. unfold positioned_subTopics.
  apply omap_fmap_imap. intros j st Hj. simpl.
  assert (st ∈ subTopics t) as Hst by by apply list_elem_of_lookup_2 in Hj.
  rewrite (normalizeData_subTopic t st) by done. simpl.
  unfold denormalize_subTopic. simpl. f_equal. f_equal.
  - apply indexOf_position.
    + apply NoDup_ids.
      apply (NoDup_bind_elem subTopics nested_subTopic_id ts t); [| done].
      apply Hdistinct.
    + by rewrite list_lookup_fmap, Hj.
  - apply denormalize_stored_questions. apply elem_of_all_subTopics. by exists t.
Qed.

End Normalized.

(** X8: [normalizeData] then [getTopics] is the identity up to the [order]
    fields.  When no id is used twice for entities of one kind, the nested
    view of the normalized list is the list itself with every [order] set to
    the position of its element, whatever the [order] fields held. *)
Theorem normalize_then_getTopics ts s :
  distinct_ids ts ->
  data s = normalizeData ts ->
  getTopics s = positioned ts.
Proof.
  intros Hd Hs. unfold getTopics. cbv zeta. rewrite Hs.
  rewrite normalizeData_topicOrder, imap_fmap. unfold positioned.
  apply omap_imap_imap. intros i t Hi. simpl.
  rewrite denormalize_stored_topic; [done | done |].
  by apply list_elem_of_lookup_2 in Hi.
Qed.

Lemma normalize_then_getTopics_witness :
  distinct_ids sample_topics
  /\ getTopics (store_of (normalizeData sample_topics)) = positioned sample_topics.
Proof.
  assert (distinct_ids sample_topics) as Hd.
  { apply (bool_decide_unpack _). vm_compute. exact I. }
  split; [exact Hd |].
  apply (normalize_then_getTopics sample_topics _ Hd). reflexivity.
Defined.

Lemma NoDup_bind_same {A B} (f : A -> list B) (key : B -> string) l a b x y :
  NoDup (key <$> (l ≫= f)) ->
  a ∈ l -> b ∈ l -> x ∈ f a -> y ∈ f b -> key x = key y -> a = b.
Proof.
  induction l as [|c l IH]; intros Hnd Ha Hb Hx Hy Hk; [by apply elem_of_nil in Ha |].
  rewrite bind_cons, fmap_app in Hnd. apply NoDup_app in Hnd as (_ & Hdis & Hnd).
  assert (forall u v w, u ∈ f c -> v ∈ l -> w ∈ f v -> key u <> key w) as Hcross.
  { intros u v w Hu Hv Hw E. apply (Hdis (key u)).
    - by apply list_elem_of_fmap_2.
    - rewrite E. apply list_elem_of_fmap_2, list_elem_of_bind. by exists v. }
  apply elem_of_cons in Ha as [->|Ha]; apply elem_of_cons in Hb as [->|Hb].
  - done.
  - by destruct (Hcross x b y).
  - by destruct (Hcross y a x).
  - by apply IH.
Qed.

Lemma normalizeData_ids_agree ts : entity_ids_agree (normalizeData ts).
Proof.
  unfold normalizeData.
  destruct (normalize_topics_fields empty_data ts) as (_ & Et & Es & Eq).
  unfold entity_ids_agree. rewrite Et, Es, Eq. simpl.
  split; [| split]; intros k e He.
  - apply (foldl_insert_Some nested_topic_id stored_topic) in He
      as [(x & _ & <- & ->)|He]; done.
  - apply (foldl_insert_Some (fun p => nested_subTopic_id p.2)
             (fun p => stored_subTopic p.1 p.2)) in He
      as [(x & _ & <- & ->)|He]; done.
  - apply (foldl_insert_Some nested_question_id stored_question) in He
      as [(x & _ & <- & ->)|He]; done.
Qed.

Lemma normalizeData_resolves ts :
  distinct_ids ts -> well_formed (normalizeData ts).
Proof.
  intros Hd. repeat split.
  - intros v Hv. rewrite normalizeData_topicOrder in Hv.
    apply list_elem_of_fmap in Hv as (t & -> & Ht). eexists. split; [done |].
    by rewrite normalizeData_topic.
  - intros k e v He Hv. apply normalizeData_topic_inv in He as (t & Ht & -> & ->).
    simpl in Hv. apply list_elem_of_fmap in Hv as (st & -> & Hst).
    eexists _, _. split; [done |]. by rewrite (normalizeData_subTopic ts Hd t st).
  - intros k e v He Hv.
    apply normalizeData_subTopic_inv in He as (t & st & Ht & Hst & -> & ->).
    simpl in Hv. apply list_elem_of_fmap in Hv as (q & -> & Hq).
    eexists. split; [done |]. rewrite normalizeData_question; [done | done |].
    apply elem_of_all_questions. by exists t, st.
  - intros s1 s2 e1 e2 v He1 He2 Hv1 Hv2.
    apply normalizeData_subTopic_inv in He1 as (t1 & st1 & Ht1 & Hst1 & -> & ->).
    apply normalizeData_subTopic_inv in He2 as (t2 & st2 & Ht2 & Hst2 & -> & ->).
    simpl in Hv1, Hv2.
    apply list_elem_of_fmap in Hv1 as (q1 & -> & Hq1).
    apply list_elem_of_fmap in Hv2 as (q2 & [= E] & Hq2).
    f_equal.
    apply (NoDup_bind_same questions nested_question_id (all_subTopics ts)
             st1 st2 q1 q2); try done.
    + apply Hd.
    + apply elem_of_all_subTopics. by exists t1.
    + apply elem_of_all_subTopics. by exists t2.
  - intros k [e He]. apply normalizeData_topic_inv in He as (t & Ht & -> & ->).
    rewrite normalizeData_topicOrder.
    by apply (list_elem_of_fmap_2 (fun t => IdStr (nested_topic_id t))).
  - intros k e He.
    apply normalizeData_subTopic_inv in He as (t & st & Ht & Hst & -> & ->).
    simpl. exists (stored_topic t). split; [by apply normalizeData_topic |].
    simpl. by apply (list_elem_of_fmap_2 (fun st => IdStr (nested_subTopic_id st))).
  - intros k [e He]. apply normalizeData_question_inv in He as (q & Hq & -> & ->).
    apply elem_of_all_questions in Hq as (t & st & Ht & Hst & Hq).
    eexists _, _. split; [by apply (normalizeData_subTopic ts Hd t st) |].
    simpl. by apply (list_elem_of_fmap_2 (fun q => IdStr (nested_question_id q))).
Qed.

(** X9: The graph [normalizeData] builds is well formed when no id is used
    twice for entities of one kind, and every entity is stored under its own
    id: this is the state every session starts from once [fetchData] has
    stored it. *)
Theorem normalizeData_well_formed ts :
  distinct_ids ts ->
  well_formed (normalizeData ts) /\ entity_ids_agree (normalizeData ts).
Proof.
  intros Hd. split; [by apply normalizeData_resolves | apply normalizeData_ids_agree].
Qed.

Lemma normalizeData_well_formed_witness :
  distinct_ids sample_topics
  /\ well_formed (normalizeData sample_topics)
  /\ entity_ids_agree (normalizeData sample_topics).
Proof.
  assert (distinct_ids sample_topics) as Hd.
  { apply (bool_decide_unpack _). vm_compute. exact I. }
  split; [exact Hd | exact (normalizeData_well_formed sample_topics Hd)].
Defined.

(** ** What the persist middleware stores and loads *)

Lemma own_list_to_map {V} (f : V -> JsValue) (l : list (string * V)) k :
  own (prod_map id f <$> l) k = f <$> (list_to_map l : gmap string V) !! k.
Proof.
  induction l as [|[k0 v] l IH]; [done |]. simpl.
  destruct (String.eqb_spec k0 k) as [->|Hne].
  - by rewrite lookup_insert_eq.
  - by rewrite lookup_insert_ne.
Qed.

Lemma get_json_of_map {V} methods (f : V -> JsValue) (m : gmap string V) k :
  get methods (json_of_map f m) k
  = default (inherited_from_Object k) (f <$> m !! k).
Proof.
  unfold json_of_map. simpl. by rewrite own_list_to_map, list_to_map_to_list.
Qed.

Lemma inherited_from_Object_truthy k :
  truthy_value (inherited_from_Object k) = true
  <-> k ∈ "__proto__" :: Object_prototype_methods.
Proof.
  unfold inherited_from_Object. rewrite elem_of_cons.
  destruct (String.eqb_spec k "__proto__") as [->|Hne]; [by split; auto |].
  case_bool_decide as Hm; simpl; split; try done; auto.
  intros [?|?]; done.
Qed.

(** The validation of a saved state looks at [topicOrder] alone. *)
Lemma json_of_state_accepted methods d :
  isValidPersistedState methods (json_of_state d) = true <-> order_accepted d.
Proof.
  unfold isValidPersistedState, json_of_state. simpl.
  rewrite forallb_forall. unfold order_accepted. split.
  - intros H v Hv.
    specialize (H (json_of_id v)).
    rewrite <- list_elem_of_In in H.
    specialize (H (list_elem_of_fmap_2 json_of_id _ _ Hv)).
    destruct v as [k| |]; simpl in H; try done.
    exists k. split; [done |].
    rewrite own_list_to_map, list_to_map_to_list in H.
    destruct (topicsById d !! k); [left; eauto |].
    right. by apply inherited_from_Object_truthy.
  - intros H x Hx. rewrite <- list_elem_of_In in Hx.
    apply list_elem_of_fmap in Hx as (v & -> & Hv).
    destruct (H v Hv) as (k & -> & Hk). simpl.
    rewrite own_list_to_map, list_to_map_to_list.
    destruct (topicsById d !! k) as [t|] eqn:E; [done |].
    destruct Hk as [[? ?]|Hk]; [done |]. by apply inherited_from_Object_truthy.
Qed.

(** *** Values that JSON keeps as they are *)

Lemma json_array items : json (VArray items) = VArray (json_item <$> items).
Proof. reflexivity. Qed.

Lemma json_object fields : json (VObject fields) = VObject (json_fields [] fields).
Proof. reflexivity. Qed.

Lemma json_item_json x : json_item x = x -> json x = x.
Proof. by destruct x. Qed.

Lemma json_fields_kept seen fields :
  NoDup fields.*1 ->
  (forall k, k ∈ fields.*1 -> k ∉ seen) ->
  Forall (fun kv => json_item kv.2 = kv.2) fields ->
  json_fields seen fields = fields.
Proof.
  revert seen. induction fields as [|[k x] fields IH]; intros seen Hnd Hseen Hall;
    [done |].
  rewrite fmap_cons in Hnd, Hseen. simpl in Hnd, Hseen.
  apply NoDup_cons in Hnd as [Hk Hnd]. apply Forall_cons in Hall as [Hx Hall].
  cbn [snd] in Hx. pose proof (json_item_json x Hx) as Hj.
  cbn [json_fields]. rewrite bool_decide_false by (apply Hseen; left).
  assert (json_fields (k :: seen) fields = fields) as E.
  { apply IH; [done | | done]. intros k' Hk' [->|Hin]%elem_of_cons; [done |].
    by apply (Hseen k'); [right |]. }
  rewrite E. destruct x; try discriminate Hx; by rewrite Hj.
Qed.

Lemma json_item_object fields :
  NoDup fields.*1 ->
  Forall (fun kv => json_item kv.2 = kv.2) fields ->
  json_item (VObject fields) = VObject fields.
Proof.
  intros Hnd Hall. change (json (VObject fields) = VObject fields).
  rewrite json_object. f_equal. apply json_fields_kept; [done | | done].
  intros k _ Hin. by apply elem_of_nil in Hin.
Qed.

Lemma json_item_ids l : json_item (json_of_ids l) = json_of_ids l.
Proof.
  unfold json_of_ids. change (json (VArray (json_of_id <$> l)) = VArray (json_of_id <$> l)).
  rewrite json_array. f_equal. rewrite <- list_fmap_compose.
  apply list_fmap_ext. intros _ v _. by destruct v.
Qed.

Lemma json_item_map {V} (f : V -> JsValue) (m : gmap string V) :
  (forall v, json_item (f v) = f v) ->
  json_item (json_of_map f m) = json_of_map f m.
Proof.
  intros Hf. unfold json_of_map. apply json_item_object.
  - replace ((prod_map id f <$> map_to_list m).*1) with ((map_to_list m).*1).
    + apply NoDup_fst_map_to_list.
    + rewrite <- list_fmap_compose. apply list_fmap_ext. by intros _ [? ?] _.
  - apply Forall_fmap, Forall_forall. intros [k v] _. simpl. apply Hf.
Qed.

Ltac distinct_keys := apply (bool_decide_unpack _); vm_compute; exact I.

Lemma json_item_topic t : json_item (json_of_topic t) = json_of_topic t.
Proof.
  apply json_item_object; [distinct_keys |].
  repeat constructor. apply json_item_ids.
Qed.

Lemma json_item_subTopic st : json_item (json_of_subTopic st) = json_of_subTopic st.
Proof.
  apply json_item_object; [distinct_keys |].
  repeat constructor. apply json_item_ids.
Qed.

Lemma json_item_question q : json_item (json_of_question q) = json_of_question q.
Proof.
  unfold json_of_question.
  by destruct (difficulty q), (link q).
Qed.

Lemma json_item_state d : json_item (json_of_state d) = json_of_state d.
Proof.
  apply json_item_object; [distinct_keys |].
  repeat constructor; simpl;
    first [ apply json_item_ids
          | apply json_item_map; first [ apply json_item_topic
                                       | apply json_item_subTopic
                                       | apply json_item_question
                                       | done ] ].
Qed.

(** The entry of a saved state is the JSON of itself. *)
Lemma json_stored d : json (stored (json_of_state d)) = stored (json_of_state d).
Proof.
  apply json_item_json, json_item_object; [distinct_keys |].
  repeat constructor. apply json_item_state.
Qed.

(** *** The load of a saved state *)

(** The validation reads the six persisted fields of the state, and reads
    them as own fields of the merged state. *)
Lemma merged_validation methods d rest :
  isValidPersistedState methods (VObject (own_properties (json_of_state d) ++ rest))
  = isValidPersistedState methods (json_of_state d).
Proof. reflexivity. Qed.

Lemma partialize_merged methods d rest partial :
  own partial "topicsById" = None -> own partial "subTopicsById" = None ->
  own partial "questionsById" = None -> own partial "topicOrder" = None ->
  own partial "expandedTopics" = None -> own partial "expandedSubTopics" = None ->
  partialize methods
    (VObject (assign (own_properties (json_of_state d) ++ rest) partial))
  = json_of_state d.
Proof.
  intros H1 H2 H3 H4 H5 H6. unfold partialize. cbn [get].
  rewrite !own_assign, H1, H2, H3, H4, H5, H6. reflexivity.
Qed.

Lemma setItem_merged methods d rest partial ls out :
  own partial "topicsById" = None -> own partial "subTopicsById" = None ->
  own partial "questionsById" = None -> own partial "topicOrder" = None ->
  own partial "expandedTopics" = None -> own partial "expandedSubTopics" = None ->
  setItem methods
    (mkWorld (assign (own_properties (json_of_state d) ++ rest) partial) ls out)
  = mkWorld (assign (own_properties (json_of_state d) ++ rest) partial)
      (<[STORAGE_KEY := stored (json_of_state d)]> ls) out.
Proof.
  intros H1 H2 H3 H4 H5 H6. unfold setItem, with_localStorage.
  cbn [store_state localStorage console].
  rewrite partialize_merged by done.
  change (VObject [("state", json_of_state d); ("version", VNumber SCHEMA_VERSION)])
    with (stored (json_of_state d)).
  by rewrite json_stored.
Qed.

Lemma setItem_replaced methods d rest ls out :
  setItem methods (mkWorld (own_properties (json_of_state d) ++ rest) ls out)
  = mkWorld (own_properties (json_of_state d) ++ rest)
      (<[STORAGE_KEY := stored (json_of_state d)]> ls) out.
Proof.
  unfold setItem, with_localStorage. cbn [store_state localStorage console].
  change (partialize methods (VObject (own_properties (json_of_state d) ++ rest)))
    with (json_of_state d).
  change (VObject [("state", json_of_state d); ("version", VNumber SCHEMA_VERSION)])
    with (stored (json_of_state d)).
  by rewrite json_stored.
Qed.

Lemma hydrate_saved methods always_saves d ls :
  hydrate methods always_saves
    (at_creation (<[STORAGE_KEY := stored (json_of_state d)]> ls))
  = Normal
      (mkWorld
         (assign (own_properties (json_of_state d) ++ initial_state)
            [("_hasHydrated", VBool true)])
         (<[STORAGE_KEY := stored (json_of_state d)]> ls)
         (if isValidPersistedState methods (json_of_state d) then []
          else ["Corrupted localStorage data detected, clearing..."])).
Proof.
  unfold hydrate, at_creation. cbn [store_state localStorage console].
  rewrite lookup_insert_eq. cbn [default from_option id].
  change (get methods (stored (json_of_state d)) "version")
    with (VNumber SCHEMA_VERSION).
  change (get methods (stored (json_of_state d)) "state") with (json_of_state d).
  change (truthy_value (stored (json_of_state d))) with true.
  change (is_number SCHEMA_VERSION (VNumber SCHEMA_VERSION)) with true.
  cbn [typeof_number negb andb orb]. unfold merge_state, with_store_state.
  cbn [store_state localStorage console].
  assert ((if always_saves || false
           then setItem methods
                  (mkWorld (own_properties (json_of_state d) ++ initial_state)
                     (<[STORAGE_KEY := stored (json_of_state d)]> ls) [])
           else mkWorld (own_properties (json_of_state d) ++ initial_state)
                  (<[STORAGE_KEY := stored (json_of_state d)]> ls) [])
          = mkWorld (own_properties (json_of_state d) ++ initial_state)
              (<[STORAGE_KEY := stored (json_of_state d)]> ls) []) as ->.
  { destruct always_saves; [| done]. cbn [orb].
    by rewrite setItem_replaced, insert_insert_eq. }
  unfold onRehydrateStorage. cbv zeta.
  rewrite bool_decide_false by (by intros [? ?]).
  rewrite merged_validation.
  change (truthy_value (VObject (own_properties (json_of_state d) ++ initial_state)))
    with true.
  change (get methods (VObject (own_properties (json_of_state d) ++ initial_state))
            "setHasHydrated") with (VFunction "setHasHydrated").
  cbn [String.eqb Ascii.eqb Bool.eqb andb]. unfold setHasHydrated, set_state.
  destruct (isValidPersistedState methods (json_of_state d)); cbn [negb andb];
    unfold removeItem, warn, with_store_state, with_localStorage;
    cbn [store_state localStorage console app];
    rewrite setItem_merged by done.
  - by rewrite insert_insert_eq.
  - by rewrite insert_delete_eq, insert_insert_eq.
Qed.

(** X10: What the store has saved comes back at the next load, whatever the
    validation says of it.  The store is created on a storage whose entry is
    the saved state of [d]: afterwards the six persisted fields of the store
    are the saved ones, [_hasHydrated] is true, every other field is as
    [storeCreator] gave it, so that the history starts empty, and the storage
    is as it was, the entry written again by [setHasHydrated].  The
    validation accepts the saved state exactly when every element of
    [topicOrder] is a string under which [topicsById] has a topic or inherits
    a member of [Object.prototype]; when it refuses, the one trace is the
    warning on the console: the entry it removes is back once the callback
    returns, and the store keeps the graph. *)
Theorem saved_state_comes_back methods always_saves d ls :
  exists w,
    hydrate methods always_saves
      (at_creation (<[STORAGE_KEY := stored (json_of_state d)]> ls)) = Normal w
    /\ Forall (fun key =>
                 own (store_state w) key = Some (get methods (json_of_state d) key))
         persisted_keys
    /\ own (store_state w) "_hasHydrated" = Some (VBool true)
    /\ (forall key,
          key ∉ persisted_keys -> key <> "_hasHydrated" ->
          own (store_state w) key = own initial_state key)
    /\ localStorage w = <[STORAGE_KEY := stored (json_of_state d)]> ls
    /\ (console w = [] <-> order_accepted d)
    /\ (~ order_accepted d ->
          console w = ["Corrupted localStorage data detected, clearing..."]).
Proof.
  eexists. split; [apply hydrate_saved |].
  cbn [store_state localStorage console].
  split; [repeat constructor; by rewrite own_assign |].
  split; [by rewrite own_assign |].
  split.
  { intros key Hkey Hh. rewrite own_assign.
    destruct (String.eqb_spec key "__proto__") as [->|Hp]; [reflexivity |].
    cbn [own]. destruct (String.eqb_spec "_hasHydrated" key) as [<-|_]; [done |].
    rewrite own_app.
    assert (own (own_properties (json_of_state d)) key = None) as ->; [| done].
    unfold persisted_keys in Hkey. cbn [own_properties json_of_state own].
    repeat match goal with
           | |- context [String.eqb ?k key] =>
               destruct (String.eqb_spec k key) as [<-|_];
               [exfalso; apply Hkey; set_solver |]
           end.
    done. }
  split; [done |].
  pose proof (json_of_state_accepted methods d) as Hacc.
  destruct (isValidPersistedState methods (json_of_state d)).
  - split; [| intros Hn; destruct Hn; by apply Hacc]. split; [| done].
    intros _. by apply Hacc.
  - split; [| done]. split; [done |]. intros Ho. apply Hacc in Ho. done.
Qed.

Lemma saved_state_comes_back_witness :
  exists w,
    hydrate [] false
      (at_creation
         (<[STORAGE_KEY := stored (json_of_state undefined_order_data)]>
            {[ "theme" := VString "dark" ]})) = Normal w
    /\ ~ order_accepted undefined_order_data
    /\ console w = ["Corrupted localStorage data detected, clearing..."]
    /\ own (store_state w) "topicOrder" = Some (VArray [VNull; VString "t1"])
    /\ own (store_state w) "_history" = Some (VArray [])
    /\ localStorage w
       = <[STORAGE_KEY := stored (json_of_state undefined_order_data)]>
           {[ "theme" := VString "dark" ]}.
Proof.
  destruct (saved_state_comes_back [] false undefined_order_data
              {[ "theme" := VString "dark" ]})
    as (w & E & Hk & _ & Ho & Hs & _ & Hc).
  assert (~ order_accepted undefined_order_data) as Hn.
  { intros H. destruct (H IdUndefined) as (k & Hk' & _); [| discriminate].
    apply (bool_decide_unpack _). vm_compute. exact I. }
  exists w. split; [exact E |]. split; [exact Hn |]. split; [exact (Hc Hn) |].
  split.
  { apply Forall_cons in Hk as [_ Hk]. apply Forall_cons in Hk as [_ Hk].
    apply Forall_cons in Hk as [_ Hk]. apply Forall_cons in Hk as [Hk _].
    exact Hk. }
  split; [| exact Hs].
  rewrite Ho; [reflexivity | | discriminate].
  apply (bool_decide_unpack _). vm_compute. exact I.
Defined.

(** ** UI operations *)

Lemma foldl_flag_lookup (l : list jsid) (m : gmap string bool) k :
  foldl (fun m id => <[key_of id := true]> m) m l !! k
  = if decide (k ∈ key_of <$> l) then Some true else m !! k.
Proof.
  revert m. induction l as [|a l IH]; intros m; cbn [foldl].
  - case_decide as H; [by apply elem_of_nil in H | done].
  - rewrite IH, fmap_cons.
    destruct (decide (k ∈ key_of <$> l)) as [H1|H1];
      destruct (decide (k ∈ key_of a :: (key_of <$> l))) as [H2|H2]; try done.
    + destruct H2. by apply list_elem_of_further.
    + apply elem_of_cons in H2 as [->|H2]; [by rewrite lookup_insert_eq | done].
    + rewrite lookup_insert_ne; [done |]. intros <-. destruct H2. apply list_elem_of_here.
Qed.

Lemma expand_topics_lookup tm (l : list jsid) acc k :
  let r := foldl (expand_topic tm) acc l in
  r.1 !! k = (if decide (k ∈ key_of <$> l) then Some true else acc.1 !! k)
  /\ r.2 !! k
     = (if decide (k ∈ l ≫= (fun topicId =>
                          match tm !! key_of topicId with
                          | Some topic => key_of <$> subTopicIds topic
                          | None => []
                          end))
        then Some true else acc.2 !! k).
Proof.
  revert acc. induction l as [|a l IH]; intros acc; cbn [foldl].
  - split; case_decide as H; try done; by inversion H.
  - destruct (IH (expand_topic tm acc a)) as [-> ->]. clear IH.
    rewrite fmap_cons, bind_cons. unfold expand_topic.
    split.
    + destruct (decide (k ∈ key_of <$> l)) as [H1|H1];
        destruct (decide (k ∈ key_of a :: (key_of <$> l))) as [H2|H2]; try done.
      * destruct H2. by apply list_elem_of_further.
      * apply elem_of_cons in H2 as [->|H2]; [| done].
        destruct (tm !! key_of a); simpl; by rewrite lookup_insert_eq.
      * assert (key_of a <> k) as Hne.
        { intros <-. destruct H2. apply list_elem_of_here. }
        destruct (tm !! key_of a); simpl; by rewrite lookup_insert_ne.
    + set (rest := l ≫= _).
      destruct (decide (k ∈ rest)) as [H1|H1].
      * rewrite decide_True; [done |]. apply elem_of_app. by right.
      * destruct (tm !! key_of a) as [topic|]; simpl.
        -- rewrite foldl_flag_lookup.
           destruct (decide (k ∈ key_of <$> subTopicIds topic)) as [H2|H2].
           ++ rewrite decide_True; [done |]. apply elem_of_app. by left.
           ++ rewrite decide_False; [done |]. rewrite elem_of_app. tauto.
        -- by rewrite decide_False.
Qed.

(** X11: [expandAllTopics] raises the flag of every id of [topicOrder] and of
    every sub-topic id listed by a topic that [topicOrder] names, and of
    nothing else: flags of other keys are dropped.  After [collapseAllTopics]
    nothing is expanded.  Neither touches the graph or the history. *)
Theorem expand_and_collapse_all s k :
  (isTopicExpanded (expandAllTopics s) k = true
   <-> k ∈ key_of <$> topicOrder (data s))
  /\ (isSubTopicExpanded (expandAllTopics s) k = true
      <-> k ∈ listed_subTopic_keys (data s))
  /\ isTopicExpanded (collapseAllTopics s) k = false
  /\ isSubTopicExpanded (collapseAllTopics s) k = false
  /\ same_graph s (expandAllTopics s)
  /\ same_graph s (collapseAllTopics s).
Proof.
  unfold isTopicExpanded, isSubTopicExpanded, expandAllTopics, collapseAllTopics.
  cbv zeta. simpl.
  destruct (expand_topics_lookup (topicsById (data s)) (topicOrder (data s)) (∅, ∅) k)
    as [-> ->].
  unfold listed_subTopic_keys. simpl. rewrite !lookup_empty.
  repeat split; try done; try (by case_decide).
Qed.

Lemma toggled_lookup flags id k :
  default false (toggled flags id !! k)
  = if decide (k = id) then negb (default false (flags !! k))
    else default false (flags !! k).
Proof.
  unfold toggled. case_decide as E.
  - subst. by rewrite lookup_insert_eq.
  - by rewrite lookup_insert_ne.
Qed.

(** X12: A toggle flips what [isTopicExpanded] answers for its id and for no
    other; a flag that is missing counts as down, so the first toggle of a new
    id expands it.  Two toggles of one id leave every answer as it was.  The
    graph and the history are not touched: a toggle is not an undoable
    step. *)
Theorem toggle_flips_one_flag s id k :
  isTopicExpanded (toggleTopic id s) k
  = (if decide (k = id) then negb (isTopicExpanded s k) else isTopicExpanded s k)
  /\ isSubTopicExpanded (toggleSubTopic id s) k
     = (if decide (k = id) then negb (isSubTopicExpanded s k)
        else isSubTopicExpanded s k)
  /\ isTopicExpanded (toggleTopic id (toggleTopic id s)) k = isTopicExpanded s k
  /\ isSubTopicExpanded (toggleSubTopic id (toggleSubTopic id s)) k
     = isSubTopicExpanded s k
  /\ isSubTopicExpanded (toggleTopic id s) k = isSubTopicExpanded s k
  /\ isTopicExpanded (toggleSubTopic id s) k = isTopicExpanded s k
  /\ same_graph s (toggleTopic id s)
  /\ same_graph s (toggleSubTopic id s).
Proof.
  unfold isTopicExpanded, isSubTopicExpanded, toggleTopic, toggleSubTopic. simpl.
  rewrite !toggled_lookup.
  repeat split; try done; case_decide; try done; by rewrite negb_involutive.
Qed.

(** ** Topic names stay unique *)

Lemma validateName_distinct name existing label e :
  valid (validateName name existing label) = true ->
  e ∈ existing ->
  JsString.toLowerCase e <> JsString.toLowerCase (JsString.trim name).
Proof.
  unfold validateName. cbv zeta. intros H He.
  repeat (case_match; try done).
  match goal with
  | E : some_lower_equal _ _ = false |- _ =>
      by apply (proj1 (some_lower_equal_false _ _) E)
  end.
Qed.

Lemma elem_of_getTopicNames s excludeId k t :
  topicsById (data s) !! k = Some t ->
  Some (topic_id t) <> excludeId ->
  topic_name t ∈ getTopicNames s excludeId.
Proof.
  intros Hk Hne. unfold getTopicNames.
  apply list_elem_of_fmap_2, list_elem_of_filter. split; [done |].
  apply list_elem_of_fmap. exists (k, t). split; [done |].
  by apply elem_of_map_to_list.
Qed.

Lemma unique_names_insert topics k t' :
  unique_names topics ->
  topic_id t' = k ->
  (forall k2 t2, k2 <> k -> topics !! k2 = Some t2 ->
     JsString.toLowerCase (topic_name t2) <> JsString.toLowerCase (topic_name t')) ->
  unique_names (<[k := t']> topics).
Proof.
  intros [Hk Hu] Hid Hnew. split.
  - by apply map_Forall_insert_2.
  - intros k1 t1 H1 k2 t2 H2 E. simpl in *.
    apply lookup_insert_Some in H1 as [[<- <-]|[N1 H1]];
      apply lookup_insert_Some in H2 as [[<- <-]|[N2 H2]]; try done.
    + by destruct (Hnew k2 t2).
    + by destruct (Hnew k1 t1).
    + by apply (Hu k1 t1 H1 k2 t2 H2).
Qed.

Lemma unique_names_replace topics k t t' :
  unique_names topics ->
  topics !! k = Some t ->
  topic_id t' = topic_id t -> topic_name t' = topic_name t ->
  unique_names (<[k := t']> topics).
Proof.
  intros Hu Hk Hid Hname. apply unique_names_insert; [done | |].
  - rewrite Hid. by apply (proj1 Hu k t).
  - intros k2 t2 Hne H2 E. rewrite Hname in E.
    destruct Hne. by apply (proj2 Hu k2 t2 H2 k t Hk).
Qed.

Lemma unique_names_delete topics k :
  unique_names topics -> unique_names (delete k topics).
Proof.
  intros [Hk Hu]. split.
  - by apply map_Forall_delete.
  - intros k1 t1 H1 k2 t2 H2 E. simpl in *.
    apply lookup_delete_Some in H1 as [_ H1]. apply lookup_delete_Some in H2 as [_ H2].
    by apply (Hu k1 t1 H1 k2 t2 H2).
Qed.

Lemma apply_names_unique newURL m s s' r :
  topic_names_unique (data s) ->
  apply newURL m s = Normal (s', r) ->
  topic_names_unique (data s').
Proof.
  unfold topic_names_unique. intros Hu Happ.
  destruct m; cbn [apply] in Happ; revert Happ; unfold_operation;
    repeat case_match; intros Happ; inversion Happ; subst; clear Happ;
    try assumption; rewrite ?data_recordHistory; simpl;
    try (by apply unique_names_delete);
    try (by eapply unique_names_replace);
    try exact Hu.
  - (* addTopic *)
    apply unique_names_insert; [done | done |]. intros k2 t2 _ H2. simpl.
    match goal with
    | H : negb (valid ?v) = false |- _ =>
        apply negb_false_iff in H;
        apply (validateName_distinct _ _ _ (topic_name t2) H)
    end.
    by apply (elem_of_getTopicNames s None k2 t2).
  - (* updateTopic *)
    apply unique_names_insert; [done | | ].
    + simpl. by apply (proj1 Hu id).
    + intros k2 t2 Hne H2. simpl.
      match goal with
      | H : negb (valid ?v) = false |- _ =>
          apply negb_false_iff in H;
          apply (validateName_distinct _ _ _ (topic_name t2) H)
      end.
      apply (elem_of_getTopicNames s (Some id) k2 t2 H2).
      rewrite (proj1 Hu k2 t2 H2). congruence.
  - (* moveSubTopicToTopic *)
    match goal with
    | Hf : topicsById (data s) !! fromTopicId = Some ?f,
      Ht : topicsById (data s) !! toTopicId = Some ?t |- _ =>
        assert (unique_names
                  (<[fromTopicId :=
                       topic_with_subTopicIds
                         (filter (fun id => id ≠ IdStr subTopicId) (subTopicIds f)) f]>
                     (topicsById (data s)))) as Hmid
          by (by eapply unique_names_replace);
        destruct (decide (toTopicId = fromTopicId)) as [E|Hne]
    end.
    + subst. simplify_eq.
      eapply unique_names_replace; [exact Hmid | apply lookup_insert_eq | done | done].
    + eapply unique_names_replace;
        [exact Hmid | by rewrite lookup_insert_ne | done | done].
Qed.

Lemma unique_names_json topics :
  unique_names topics -> unique_names (json_topic <$> topics).
Proof.
  intros [Hk Hu]. split.
  - apply map_Forall_fmap. intros k t Ht. simpl. by apply (Hk k t).
  - apply map_Forall_fmap. intros k1 t1 H1. simpl.
    apply map_Forall_fmap. intros k2 t2 H2. simpl.
    by apply (Hu k1 t1 H1 k2 t2 H2).
Qed.

Lemma names_unique_createSnapshot s :
  topic_names_unique (data s) -> topic_names_unique (createSnapshot s).
Proof. apply unique_names_json. Qed.

Lemma names_unique_applySnapshot h :
  topic_names_unique h -> topic_names_unique (applySnapshot h).
Proof. apply unique_names_json. Qed.

(** X13: Topic names stay unique.  When every topic is stored under its own id
    and no two topics have the same name up to case, in the store and in
    every snapshot of the history, this still holds after any call of the
    write contract, after [undo] and after [redo]: the duplicate check of
    [addTopic] and [updateTopic] is enough, and no other operation writes a
    topic name. *)
Theorem session_keeps_topic_names_unique newURL s :
  store_names_unique s ->
  (forall m s' r, apply newURL m s = Normal (s', r) -> store_names_unique s')
  /\ store_names_unique (undo s)
  /\ store_names_unique (redo s).
Proof.
  intros [Hd Hh]. split; [| split].
  - intros m s' r Happ. split.
    + by apply (apply_names_unique newURL m s s' r).
    + by apply (committed_keeps topic_names_unique names_unique_createSnapshot
                  newURL m s s' r).
  - by apply (undo_keeps topic_names_unique names_unique_createSnapshot
                names_unique_applySnapshot).
  - by apply (redo_keeps topic_names_unique names_unique_applySnapshot).
Qed.

Lemma session_keeps_topic_names_unique_witness :
  store_names_unique two_edits_store
  /\ (forall m s' r,
        apply scheme_only_URL m two_edits_store = Normal (s', r) ->
        store_names_unique s')
  /\ store_names_unique (undo two_edits_store)
  /\ store_names_unique (redo two_edits_store).
Proof.
  assert (store_names_unique two_edits_store) as Hs.
  { apply (bool_decide_unpack _). vm_compute. exact I. }
  split; [exact Hs |].
  exact (session_keeps_topic_names_unique scheme_only_URL two_edits_store Hs).
Defined.

(** ** Updating a question *)

(** X14: What an update of a question keeps.  When [updateQuestion] succeeds,
    the title and the difficulty of the question are the ones of the update
    where it has them and the old ones where it has not, but the link is the
    one of the update in every case: an update that says nothing of the link
    removes the link the question had.  A difficulty cannot be removed.  The
    id of the question, the other questions and the rest of the graph stay. *)
Theorem updateQuestion_keeps newURL t st q u s s' :
  apply newURL (UpdateQuestion t st q u) s = Normal (s', Some succeeded) ->
  exists old new,
    questionsById (data s) !! q = Some old
    /\ questionsById (data s') = <[q := new]> (questionsById (data s))
    /\ question_id new = question_id old
    /\ title new = default (title old) (JsString.trim <$> updates_title u)
    /\ difficulty new = from_option Some (difficulty old) (updates_difficulty u)
    /\ link new = trim_or_undefined (updates_link u)
    /\ (updates_link u = None -> link new = None)
    /\ topicsById (data s') = topicsById (data s)
    /\ subTopicsById (data s') = subTopicsById (data s)
    /\ topicOrder (data s') = topicOrder (data s).
Proof.
  cbn [apply]. unfold updateQuestion, returns. cbv zeta.
  rewrite data_recordHistory.
  destruct (questionsById (data s) !! q) as [old|] eqn:E; [| done].
  repeat (case_match; try done).
  all: intros [= <-]; eexists old, _; simpl.
  all: repeat (split; [done || reflexivity |]); try done.
  all: try (split; [by intros -> | done]).
Qed.

Lemma updateQuestion_keeps_witness :
  apply scheme_only_URL (UpdateQuestion "t1" "a" "q1" title_only_update) sample_store
  = Normal (retitled_store, Some succeeded)
  /\ exists old new,
       questionsById (data sample_store) !! "q1" = Some old
       /\ questionsById (data retitled_store)
          = <["q1" := new]> (questionsById (data sample_store))
       /\ question_id new = question_id old
       /\ title new
          = default (title old) (JsString.trim <$> updates_title title_only_update)
       /\ difficulty new
          = from_option Some (difficulty old) (updates_difficulty title_only_update)
       /\ link new = trim_or_undefined (updates_link title_only_update)
       /\ (updates_link title_only_update = None -> link new = None)
       /\ topicsById (data retitled_store) = topicsById (data sample_store)
       /\ subTopicsById (data retitled_store) = subTopicsById (data sample_store)
       /\ topicOrder (data retitled_store) = topicOrder (data sample_store).
Proof.
  assert (apply scheme_only_URL (UpdateQuestion "t1" "a" "q1" title_only_update)
            sample_store
          = Normal (retitled_store, Some succeeded)) as H.
  { vm_compute. reflexivity. }
  split; [exact H |].
  exact (updateQuestion_keeps scheme_only_URL "t1" "a" "q1" title_only_update
           sample_store retitled_store H).
Defined.

(** ** Ids made from names *)

Lemma dash_not_slug_char : is_slug_char "-" = false.
Proof. done. Qed.

Lemma starts_with_dash_cons_nil : ~ starts_with_dash EmptyString.
Proof. by intros H. Qed.

Lemma starts_with_dash_cons c r : starts_with_dash (String c r) <-> c = "-"%char.
Proof.
  split; [| by intros ->].
  destruct (Ascii.ascii_dec c "-") as [->|Hne]; [done |].
  destruct c as [[] [] [] [] [] [] [] []]; done.
Qed.

#[local] Opaque starts_with_dash.

Lemma replace_runs_shape b s :
  slug_chars (replace_runs b s)
  /\ no_double_dash (replace_runs b s)
  /\ (b = true -> ~ starts_with_dash (replace_runs b s)).
Proof.
  revert b. induction s as [|c s IH]; intros b.
  { simpl. repeat split; try done. intros _ H. by apply starts_with_dash_cons_nil in H. }
  simpl. destruct (is_slug_char c) eqn:E.
  - destruct (IH false) as (H1 & H2 & _). simpl. repeat split; try done.
    + by left.
    + intros ->. by rewrite dash_not_slug_char in E.
    + intros _ Hs. apply starts_with_dash_cons in Hs as ->.
      by rewrite dash_not_slug_char in E.
  - destruct (IH true) as (H1 & H2 & H3). destruct b; [done |].
    simpl. repeat split; try done.
    + by right.
    + intros _. by apply H3.
Qed.

Lemma strip_leading_dash_shape s :
  slug_chars s -> no_double_dash s ->
  slug_chars (strip_leading_dash s)
  /\ no_double_dash (strip_leading_dash s)
  /\ ~ starts_with_dash (strip_leading_dash s).
Proof.
  intros Hc Hd. destruct s as [|c r].
  { repeat split; try done. intros H. by apply starts_with_dash_cons_nil in H. }
  destruct (Ascii.ascii_dec c "-") as [->|Hne].
  - simpl in *. destruct Hc as [_ Hc]. destruct Hd as [Hn Hd]. repeat split; try done.
    by apply Hn.
  - assert (strip_leading_dash (String c r) = String c r) as ->.
    { destruct c as [[] [] [] [] [] [] [] []]; done. }
    split; [done |]. split; [done |].
    intros Hs. by apply starts_with_dash_cons in Hs.
Qed.

Lemma prefix_shape p s :
  String.prefix p s = true ->
  (slug_chars s -> slug_chars p)
  /\ (no_double_dash s -> no_double_dash p)
  /\ (~ starts_with_dash s -> ~ starts_with_dash p).
Proof.
  revert s. induction p as [|a p IH]; intros s Hp.
  { repeat split; try done. intros _ H. by apply starts_with_dash_cons_nil in H. }
  destruct s as [|b s]; [done |]. simpl in Hp.
  destruct (Ascii.ascii_dec a b) as [->|]; [| done].
  destruct (IH s Hp) as (I1 & I2 & I3).
  split; [| split].
  - intros [H1 H2]. split; [done | by apply I1].
  - intros [H1 H2]. split; [| by apply I2].
    intros Hb. by apply I3, H1.
  - intros Hs Hn. apply Hs. apply starts_with_dash_cons in Hn as ->.
    by apply starts_with_dash_cons.
Qed.

Lemma strip_trailing_dash_cons c r :
  strip_trailing_dash (String c r)
  = if bool_decide (c = "-"%char /\ r = EmptyString) then EmptyString
    else String c (strip_trailing_dash r).
Proof.
  case_bool_decide as H.
  - by destruct H as [-> ->].
  - destruct r as [|c' r'].
    + destruct c as [[] [] [] [] [] [] [] []]; try done. by destruct H.
    + destruct c as [[] [] [] [] [] [] [] []]; done.
Qed.

Lemma strip_trailing_dash_prefix s : String.prefix (strip_trailing_dash s) s = true.
Proof.
  induction s as [|c r IH]; [done |].
  rewrite strip_trailing_dash_cons. case_bool_decide; [done |].
  simpl. by destruct (Ascii.ascii_dec c c).
Qed.

Lemma substring_prefix n s : String.prefix (String.substring 0 n s) s = true.
Proof.
  revert s. induction n as [|n IH]; intros s.
  - by destruct s.
  - destruct s as [|c r]; [done |]. simpl.
    destruct (Ascii.ascii_dec c c); [apply IH | done].
Qed.

Lemma substring_length n s : (String.length (String.substring 0 n s) <= n)%nat.
Proof.
  revert s. induction n as [|n IH]; intros s.
  - destruct s; simpl; lia.
  - destruct s as [|c r]; simpl; [lia |]. specialize (IH r). lia.
Qed.

(** X15: What a slug looks like.  Whatever the name, [slugify] gives at most
    50 characters, all of them letters in lower case, digits or dashes, with
    no dash at the start and no two dashes in a row.  (A dash at the end is
    possible: the cut at 50 comes after the dashes at the ends are taken
    off.) *)
Theorem slugify_shape str :
  (String.length (slugify str) <= 50)%nat
  /\ slug_chars (slugify str)
  /\ ~ starts_with_dash (slugify str)
  /\ no_double_dash (slugify str).
Proof.
  unfold slugify, strip_dashes.
  set (collapsed := replace_runs false (JsString.toLowerCase str)).
  destruct (replace_runs_shape false (JsString.toLowerCase str)) as (H1 & H2 & _).
  fold collapsed in H1, H2.
  destruct (strip_leading_dash_shape collapsed H1 H2) as (L1 & L2 & L3).
  destruct (prefix_shape _ _ (strip_trailing_dash_prefix (strip_leading_dash collapsed)))
    as (T1 & T2 & T3).
  destruct (prefix_shape _ _
              (substring_prefix 50 (strip_trailing_dash (strip_leading_dash collapsed))))
    as (S1 & S2 & S3).
  split; [apply substring_length |].
  split; [by apply S1, T1 |].
  split; [by apply S3, T3 | by apply S2, T2].
Qed.

(** ** From the nested view back to the graph *)

Section FoldInsertRebuild.
Context {A V : Type} (key : A -> string) (val : A -> V).
Context (f : gmap string V -> A -> gmap string V).
Hypothesis f_insert : forall acc x, f acc x = <[key x := val x]> acc.

Lemma foldl_insert_consistent l m x :
  (forall y, y ∈ l -> key y = key x -> val y = val x) ->
  x ∈ l -> foldl f m l !! key x = Some (val x).
Proof.
  revert m x. induction l as [|y l IH]; intros m x Hc Hx;
    [by apply elem_of_nil in Hx |].
  simpl. destruct (decide (key x ∈ key <$> l)) as [Hin|Hnot].
  - apply list_elem_of_fmap in Hin as (z & Hk & Hz).
    rewrite Hk, <- (Hc z (list_elem_of_further _ _ _ Hz) (eq_sym Hk)).
    apply IH; [| done]. intros w Hw E.
    rewrite (Hc w (list_elem_of_further _ _ _ Hw)) by congruence.
    symmetry. apply Hc; [by apply list_elem_of_further | done].
  - rewrite (foldl_insert_other key val f f_insert) by done.
    apply elem_of_cons in Hx as [->|Hx].
    + rewrite f_insert. by rewrite lookup_insert_eq.
    + destruct Hnot. by apply list_elem_of_fmap_2.
Qed.

Lemma foldl_insert_rebuilds l (m0 : gmap string V) :
  (forall x, x ∈ l -> m0 !! key x = Some (val x)) ->
  (forall k, is_Some (m0 !! k) -> exists x, x ∈ l /\ key x = k) ->
  foldl f ∅ l = m0.
Proof.
  intros Hin Hall. apply map_eq. intros k.
  destruct (m0 !! k) as [v|] eqn:E.
  - destruct (Hall k (mk_is_Some _ _ E)) as (x & Hx & <-).
    rewrite (Hin x Hx) in E. injection E as <-.
    apply foldl_insert_consistent; [| done].
    intros y Hy Hk. pose proof (Hin y Hy) as Ey. rewrite Hk, (Hin x Hx) in Ey.
    congruence.
  - destruct (foldl f ∅ l !! k) as [v|] eqn:F; [| done].
    apply (foldl_insert_Some key val f f_insert) in F as [(x & Hx & <- & _)|F]; [| done].
    rewrite (Hin x Hx) in E. done.
Qed.
End FoldInsertRebuild.

Lemma Forall2_omap_imap {A B} (R : A -> B -> Prop) (F : nat -> A -> option B) l :
  (forall i v, l !! i = Some v -> exists y, F i v = Some y /\ R v y) ->
  Forall2 R l (omap id (imap F l)).
Proof.
  revert F. induction l as [|v l IH]; intros F H; [constructor |].
  simpl. destruct (H 0%nat v eq_refl) as (y & -> & Hy). simpl.
  constructor; [done |]. apply IH. intros i w Hw. apply (H (S i) w Hw).
Qed.

Lemma Forall2_omap {A B} (R : A -> B -> Prop) (F : A -> option B) l :
  (forall v, v ∈ l -> exists y, F v = Some y /\ R v y) ->
  Forall2 R l (omap F l).
Proof.
  induction l as [|v l IH]; intros H; [constructor |].
  simpl. destruct (H v (list_elem_of_here _ _)) as (y & -> & Hy).
  constructor; [done |]. apply IH. intros w Hw. apply H. by apply list_elem_of_further.
Qed.

Lemma Forall2_fmap_eq {A B} (R : A -> B -> Prop) (h : B -> A) l ys :
  Forall2 R l ys -> (forall v y, R v y -> v = h y) -> h <$> ys = l.
Proof.
  intros H Hh. induction H as [|v y l ys Hvy _ IH]; [done |].
  rewrite fmap_cons, IH. by rewrite <- (Hh v y Hvy).
Qed.

Lemma Forall2_Forall_r {A B} (R : A -> B -> Prop) (P : B -> Prop) l ys :
  Forall2 R l ys -> (forall v y, R v y -> P y) -> Forall P ys.
Proof.
  intros H Hp. induction H as [|v y l ys Hvy _ IH]; constructor; [| done].
  by apply (Hp v y).
Qed.

Lemma Forall2_elem_l {A B} (R : A -> B -> Prop) l ys v :
  Forall2 R l ys -> v ∈ l -> exists y, y ∈ ys /\ R v y.
Proof.
  intros H Hv. induction H as [|w y l ys Hwy _ IH]; [by apply elem_of_nil in Hv |].
  apply elem_of_cons in Hv as [->|Hv].
  - exists y. split; [apply list_elem_of_here | done].
  - destruct (IH Hv) as (y' & Hy' & Hr). exists y'.
    split; [by apply list_elem_of_further | done].
Qed.

Section Rebuild.
Variable s : Store.
Hypothesis Hwf : well_formed (data s).
Hypothesis Hids : entity_ids_agree (data s).

Lemma denormalize_questions_nests k e :
  subTopicsById (data s) !! k = Some e ->
  Forall2 (nests_question (data s)) (questionIds e)
    (denormalize_questions (questionsById (data s)) (questionIds e)).
Proof.
  intros He. apply Forall2_omap_imap. intros i v Hv.
  destruct Hwf as (_ & _ & H3 & _).
  destruct (H3 k e v He (list_elem_of_lookup_2 _ _ _ Hv)) as (q & -> & [qe Hq]).
  simpl. rewrite Hq. simpl. eexists. split; [done |].
  destruct Hids as (_ & _ & Hq_id). pose proof (Hq_id q qe Hq) as Eid. simpl in Eid.
  unfold nests_question, stored_question. simpl. rewrite Eid.
  split; [done |]. rewrite Hq. destruct qe. simpl in *. by subst.
Qed.

Lemma denormalize_subTopic_nests t topic v :
  topicsById (data s) !! t = Some topic ->
  v ∈ subTopicIds topic ->
  exists st,
    (denormalize_subTopic (questionsById (data s)) (indexOf (subTopicIds topic) v)
       <$> subTopicsById (data s) !! key_of v) = Some st
    /\ nests_subTopic (data s) t v st.
Proof.
  intros Ht Hv.
  destruct Hwf as (_ & H2 & _).
  destruct (H2 t topic v Ht Hv) as (k & e & -> & He & Etopic).
  simpl. rewrite He. simpl. eexists. split; [done |].
  pose proof (denormalize_questions_nests k e He) as Hq.
  destruct Hids as (_ & Hs_id & _). pose proof (Hs_id k e He) as Eid. simpl in Eid.
  unfold nests_subTopic, denormalize_subTopic, stored_subTopic. simpl.
  rewrite Eid. split; [done |]. split.
  - rewrite He. f_equal. destruct e as [i n tid qs]. simpl in *. subst.
    f_equal. symmetry.
    apply (Forall2_fmap_eq (nests_question (data s))
             (fun q => IdStr (nested_question_id q)) _ _ Hq).
    by intros v y [-> _].
  - apply (Forall2_Forall_r (nests_question (data s)) _ _ _ Hq). by intros v y [_ ?].
Qed.

Lemma denormalizeTopic_nests v :
  v ∈ topicOrder (data s) ->
  exists t,
    denormalizeTopic v (topicsById (data s)) (subTopicsById (data s))
      (questionsById (data s)) = Some t
    /\ forall i, nests_topic (data s) v (with_order i t).
Proof.
  intros Hv. destruct Hwf as (H1 & _).
  destruct (H1 v Hv) as (k & -> & [topic Ht]).
  unfold denormalizeTopic. simpl. rewrite Ht. eexists. split; [done |].
  intros i.
  assert (Forall2 (nests_subTopic (data s) k) (subTopicIds topic)
            (omap (fun stId =>
                     denormalize_subTopic (questionsById (data s))
                       (indexOf (subTopicIds topic) stId)
                       <$> subTopicsById (data s) !! key_of stId)
               (subTopicIds topic))) as Hsubs.
  { apply Forall2_omap. intros w Hw. by apply (denormalize_subTopic_nests k topic w). }
  destruct Hids as (Ht_id & _). pose proof (Ht_id k topic Ht) as Eid. simpl in Eid.
  unfold nests_topic, with_order, stored_topic. simpl. rewrite Eid.
  split; [done |]. split.
  - rewrite Ht. f_equal. destruct topic as [tid n ids]. simpl in *. subst.
    f_equal. symmetry.
    apply (Forall2_fmap_eq (nests_subTopic (data s) k)
             (fun st => IdStr (nested_subTopic_id st)) _ _ Hsubs).
    by intros w y [-> _].
  - apply (Forall2_Forall_r (nests_subTopic (data s) k) _ _ _ Hsubs).
    by intros w y (_ & ? & ?).
Qed.

Lemma getTopics_nests :
  Forall2 (nests_topic (data s)) (topicOrder (data s)) (getTopics s).
Proof.
  unfold getTopics. cbv zeta. apply Forall2_omap_imap. intros i v Hv.
  destruct (denormalizeTopic_nests v (list_elem_of_lookup_2 _ _ _ Hv)) as (t & -> & Ht).
  simpl. eexists. split; [done |]. apply Ht.
Qed.

End Rebuild.

(** X16: [getTopics] then [normalizeData] gives the graph back.  When the
    graph is well formed and every entity is stored under its own id, the
    nested view holds every topic, sub-topic and question, and normalizing it
    builds the same three entity maps and the same [topicOrder]: nothing is
    lost in the view the components get.  (The expanded flags are all set by
    [normalizeData].) *)
Theorem getTopics_then_normalize s :
  well_formed (data s) ->
  entity_ids_agree (data s) ->
  same_entities (data s) (normalizeData (getTopics s)).
Proof.
  intros Hwf Hids. pose proof (getTopics_nests s Hwf Hids) as Hn.
  set (ts := getTopics s) in *. set (d := data s) in *.
  assert (forall t, t ∈ ts -> nests_topic d (IdStr (nested_topic_id t)) t) as Hts.
  { apply Forall_forall.
    apply (Forall2_Forall_r (nests_topic d) _ _ _ Hn). by intros v t (-> & ? & ?). }
  assert (forall k topic, topicsById d !! k = Some topic ->
            exists t, t ∈ ts /\ nested_topic_id t = k /\ stored_topic t = topic) as Htopic.
  { intros k topic Hk. destruct Hwf as (_ & _ & _ & _ & H5 & _).
    destruct (Forall2_elem_l _ _ _ _ Hn (H5 k (mk_is_Some _ _ Hk)))
      as (t & Ht & [= ->] & E & _).
    exists t. split; [done |]. split; [done |]. congruence. }
  assert (forall k e, subTopicsById d !! k = Some e ->
            exists t st, t ∈ ts /\ st ∈ subTopics t /\ nested_subTopic_id st = k
                         /\ stored_subTopic (nested_topic_id t) st = e) as Hsub.
  { intros k e Hk. destruct Hwf as (_ & _ & _ & _ & _ & H6 & _).
    destruct (H6 k e Hk) as (topic & Htopic' & Hin).
    destruct (Htopic _ _ Htopic') as (t & Ht & Eid & <-). simpl in Hin.
    apply list_elem_of_fmap in Hin as (st & [= ->] & Hst).
    exists t, st. split; [done |]. split; [done |]. split; [done |].
    destruct (Hts t Ht) as (_ & _ & Hall). rewrite Forall_forall in Hall.
    destruct (Hall st Hst) as [E _]. congruence. }
  unfold normalizeData.
  destruct (normalize_topics_fields empty_data ts) as (Eo & Et & Es & Eq).
  unfold same_entities. rewrite Eo, Et, Es, Eq. clear Eo Et Es Eq. simpl.
  split; [| split; [| split]].
  - apply (foldl_insert_rebuilds nested_topic_id stored_topic); [done | |].
    + intros t Ht. by destruct (Hts t Ht) as (_ & ? & _).
    + intros k [topic Hk]. destruct (Htopic k topic Hk) as (t & ? & ? & _). by exists t.
  - apply (foldl_insert_rebuilds (fun p => nested_subTopic_id p.2)
             (fun p => stored_subTopic p.1 p.2)); [done | |].
    + intros [tid st] Hin. simpl.
      apply elem_of_owned_subTopics in Hin as (t & Ht & -> & Hst).
      destruct (Hts t Ht) as (_ & _ & Hall). rewrite Forall_forall in Hall.
      by destruct (Hall st Hst).
    + intros k [e Hk]. destruct (Hsub k e Hk) as (t & st & Ht & Hst & Ek & _).
      exists (nested_topic_id t, st). split; [| done].
      apply elem_of_owned_subTopics. by exists t.
  - apply (foldl_insert_rebuilds nested_question_id stored_question); [done | |].
    + intros q Hq. apply elem_of_all_questions in Hq as (t & st & Ht & Hst & Hq).
      destruct (Hts t Ht) as (_ & _ & Hall). rewrite Forall_forall in Hall.
      destruct (Hall st Hst) as [_ Hqs]. rewrite Forall_forall in Hqs. by apply Hqs.
    + intros k Hk. destruct Hwf as (_ & _ & _ & _ & _ & _ & H7).
      destruct (H7 k Hk) as (s0 & e & He & Hin).
      destruct (Hsub s0 e He) as (t & st & Ht & Hst & _ & <-). simpl in Hin.
      apply list_elem_of_fmap in Hin as (q & [= ->] & Hq).
      exists q. split; [| done]. apply elem_of_all_questions. by exists t, st.
  - apply (Forall2_fmap_eq (nests_topic d) (fun t => IdStr (nested_topic_id t)) _ _ Hn).
    by intros v t [-> _].
Qed.

Lemma getTopics_then_normalize_witness :
  well_formed (data sample_store)
  /\ entity_ids_agree (data sample_store)
  /\ same_entities (data sample_store) (normalizeData (getTopics sample_store)).
Proof.
  assert (well_formed (data sample_store)) as Hwf.
  { apply well_formed_entries_sound. apply (bool_decide_unpack _). vm_compute. exact I. }
  assert (entity_ids_agree (data sample_store)) as Hids.
  { apply (bool_decide_unpack _). vm_compute. exact I. }
  split; [exact Hwf |]. split; [exact Hids |].
  exact (getTopics_then_normalize sample_store Hwf Hids).
Defined.

(** ** Entities stay under their ids *)

Ltac ids_step :=
  match goal with
  | |- map_Forall _ (<[_ := _]> _) => apply map_Forall_insert_2
  | |- map_Forall _ (delete _ _) => apply map_Forall_delete
  | |- map_Forall _ (delete_all _ _) => apply map_Forall_delete_all
  | |- map_Forall _ (_ <$> _) => apply map_Forall_fmap
  | H : map_Forall ?P ?m |- map_Forall ?P ?m => exact H
  | H : map_Forall _ ?m, L : ?m !! ?k = Some ?x |- _ = ?k => exact (H k x L)
  | |- ?x = ?x => reflexivity
  end.

Lemma apply_ids_agree newURL m s s' r :
  entity_ids_agree (data s) ->
  apply newURL m s = Normal (s', r) ->
  entity_ids_agree (data s').
Proof.
  intros (Ht & Hs & Hq) Happ.
  destruct m; cbn [apply] in Happ; revert Happ; unfold_operation;
    repeat case_match; intros Happ; inversion Happ; subst; clear Happ;
    rewrite ?data_recordHistory; try done;
    (split; [| split]); simpl; repeat (ids_step; simpl).
Qed.

Lemma ids_agree_json d :
  entity_ids_agree d ->
  map_Forall (fun k t => topic_id t = k) (json_topic <$> topicsById d)
  /\ map_Forall (fun k st => subTopic_id st = k) (json_subTopic <$> subTopicsById d)
  /\ map_Forall (fun k q => question_id q = k) (json_question <$> questionsById d).
Proof.
  intros (Ht & Hs & Hq). split; [| split]; apply map_Forall_fmap; done.
Qed.

Lemma ids_agree_createSnapshot s :
  entity_ids_agree (data s) -> entity_ids_agree (createSnapshot s).
Proof. apply ids_agree_json. Qed.

Lemma ids_agree_applySnapshot h :
  entity_ids_agree h -> entity_ids_agree (applySnapshot h).
Proof. apply ids_agree_json. Qed.

(** X17: Entities stay under their ids.  When every topic, sub-topic and
    question is stored under the id it holds, in the store and in every
    snapshot of the history, this still holds after any call of the write
    contract, after [undo] and after [redo]. *)
Theorem session_keeps_entity_ids newURL s :
  store_ids_agree s ->
  (forall m s' r, apply newURL m s = Normal (s', r) -> store_ids_agree s')
  /\ store_ids_agree (undo s)
  /\ store_ids_agree (redo s).
Proof.
  intros [Hd Hh]. split; [| split].
  - intros m s' r Happ. split.
    + by apply (apply_ids_agree newURL m s s' r).
    + by apply (committed_keeps entity_ids_agree ids_agree_createSnapshot
                  newURL m s s' r).
  - by apply (undo_keeps entity_ids_agree ids_agree_createSnapshot
                ids_agree_applySnapshot).
  - by apply (redo_keeps entity_ids_agree ids_agree_applySnapshot).
Qed.

Lemma session_keeps_entity_ids_witness :
  store_ids_agree two_edits_store
  /\ (forall m s' r,
        apply scheme_only_URL m two_edits_store = Normal (s', r) ->
        store_ids_agree s')
  /\ store_ids_agree (undo two_edits_store)
  /\ store_ids_agree (redo two_edits_store).
Proof.
  assert (store_ids_agree two_edits_store) as Hs.
  { apply (bool_decide_unpack _). vm_compute. exact I. }
  split; [exact Hs |].
  exact (session_keeps_entity_ids scheme_only_URL two_edits_store Hs).
Defined.

(** ** The selectors agree *)

Lemma indexOf_from_elem l (x : jsid) i : x ∈ l -> i <= indexOf_from l x i.
Proof.
  revert i. induction l as [|y l IH]; intros i Hx; [by apply elem_of_nil in Hx |].
  simpl. case_decide as E; [lia |].
  apply elem_of_cons in Hx as [->|Hx]; [done |].
  specialize (IH (i + 1) Hx). lia.
Qed.

Lemma indexOf_elem l (x : jsid) : x ∈ l -> indexOf l x <> -1.
Proof.
  intros Hx. pose proof (indexOf_from_elem l x 0 Hx) as H. unfold indexOf. lia.
Qed.

Lemma indexOf_from_first l (x : jsid) i (j : nat) :
  0 <= i -> i + Z.of_nat j < indexOf_from l x i -> l !! j <> Some x.
Proof.
  revert i j. induction l as [|y l IH]; intros i j Hi Hj; [done |].
  simpl in Hj. case_decide as E; [lia |].
  destruct j as [|j]; simpl.
  - congruence.
  - apply (IH (i + 1)); lia.
Qed.

Lemma indexOf_first_position l x : x ∈ l -> first_position l x (indexOf l x).
Proof.
  intros Hx. destruct (indexOf_found l x (indexOf_elem l x Hx)) as [Hr Hat].
  split; [lia |]. split; [done |].
  intros j Hj. unfold JsArray.at_index.
  destruct (Z.ltb_spec j 0); [lia |].
  apply (indexOf_from_first l x 0); [lia |]. unfold indexOf in Hj. lia.
Qed.

Lemma elem_of_omap_imap {A B} (F : nat -> A -> option B) l y :
  y ∈ omap id (imap F l) <-> exists i v, l !! i = Some v /\ F i v = Some y.
Proof.
  revert F. induction l as [|w l IH]; intros F; simpl.
  - split; [by intros H%elem_of_nil | by intros (i & v & H & _)].
  - assert (y ∈ omap id (imap (F ∘ S) l)
            <-> exists i v, l !! i = Some v /\ F (S i) v = Some y) as IH'
      by apply (IH (F ∘ S)).
    split.
    + intros H.
      assert (F 0%nat w = Some y \/ y ∈ omap id (imap (F ∘ S) l)) as [E|Hy].
      { destruct (F 0%nat w) as [b|]; simpl in H; [| by right].
        apply elem_of_cons in H as [->|H]; [by left | by right]. }
      * by exists 0%nat, w.
      * apply IH' in Hy as (i & v & Hv & E). by exists (S i), v.
    + intros (i & v & Hv & E). destruct i as [|i]; simpl in Hv.
      * simplify_eq. rewrite E. simpl. apply list_elem_of_here.
      * assert (y ∈ omap id (imap (F ∘ S) l)) as Hy by (apply IH'; eauto).
        destruct (F 0%nat w); simpl; [by apply list_elem_of_further | done].
Qed.

Lemma denormalizeTopic_key v topics subs qs :
  denormalizeTopic (IdStr (key_of v)) topics subs qs = denormalizeTopic v topics subs qs.
Proof. done. Qed.

Lemma with_order_with_order i j t : with_order i (with_order j t) = with_order i t.
Proof. done. Qed.

(** The topics of the nested view, through [getTopic]: each is the topic
    [getTopic] gives for the element of [topicOrder] at some position, with
    that position as its [order]. *)
Lemma getTopics_elem s t' :
  t' ∈ getTopics s
  <-> exists (i : nat) v t,
        topicOrder (data s) !! i = Some v
        /\ getTopic s (key_of v) = Some t
        /\ t' = with_order (Z.of_nat i) t.
Proof.
  unfold getTopics, getTopic. cbv zeta. rewrite elem_of_omap_imap.
  setoid_rewrite denormalizeTopic_key. split.
  - intros (i & v & Hv & E). exists i, v.
    destruct (denormalizeTopic v _ _ _) as [t0|]; [| done].
    simpl in E. injection E as <-. eexists. split; [done |]. by split.
  - intros (i & v & t & Hv & E & ->). exists i, v. split; [done |].
    destruct (denormalizeTopic v _ _ _) as [t0|]; [| done].
    simpl in E. injection E as <-. done.
Qed.

Lemma getTopic_listed s id t :
  getTopic s id = Some t ->
  IdStr id ∈ topicOrder (data s) ->
  t ∈ getTopics s.
Proof.
  intros Ht Hin. apply getTopics_elem.
  destruct (indexOf_first_position _ _ Hin) as (Hr & Hat & _).
  exists (Z.to_nat (indexOf (topicOrder (data s)) (IdStr id))), (IdStr id), t.
  split; [by rewrite <- at_index_nat, Z2Nat.id by lia |].
  split; [done |].
  unfold getTopic in Ht. cbv zeta in Ht.
  destruct (denormalizeTopic _ _ _ _) as [t0|]; [| done].
  injection Ht as <-. by rewrite Z2Nat.id by lia.
Qed.

(** X18: The selectors agree.  [getTopic] answers for the ids [topicsById]
    has.  Its topic has the first position of the id in [topicOrder] as
    [order] and is the topic [getTopics] has for that position, or has [-1]
    and is not among the topics of [getTopics] when the id is not in
    [topicOrder].  The topics of [getTopics] are those [getTopic] gives for
    the elements of [topicOrder], each with its position as [order].
    [getSubTopic] answers for every pair of a topic and a sub-topic the maps
    have, whether or not the topic lists the sub-topic: when it does, the
    answer is among the sub-topics of [getTopic] for that topic, with the
    first position of the id in [subTopicIds] as [order]; when it does not,
    the [order] is [-1]. *)
Theorem selectors_agree s id :
  (getTopic s id = None <-> topicsById (data s) !! id = None)
  /\ (forall t,
        getTopic s id = Some t ->
        (IdStr id ∈ topicOrder (data s) ->
           t ∈ getTopics s
           /\ first_position (topicOrder (data s)) (IdStr id) (topic_order t))
        /\ (IdStr id ∉ topicOrder (data s) ->
              topic_order t = -1 /\ t ∉ getTopics s))
  /\ (forall t',
        t' ∈ getTopics s
        <-> exists (i : nat) v t,
              topicOrder (data s) !! i = Some v
              /\ getTopic s (key_of v) = Some t
              /\ t' = with_order (Z.of_nat i) t)
  /\ (forall subTopicId,
        getSubTopic s id subTopicId = None
        <-> topicsById (data s) !! id = None
            \/ subTopicsById (data s) !! subTopicId = None)
  /\ (forall subTopicId st topic,
        getSubTopic s id subTopicId = Some st ->
        topicsById (data s) !! id = Some topic ->
        (IdStr subTopicId ∈ subTopicIds topic ->
           (exists t, getTopic s id = Some t /\ st ∈ subTopics t)
           /\ first_position (subTopicIds topic) (IdStr subTopicId) (subTopic_order st))
        /\ (IdStr subTopicId ∉ subTopicIds topic -> subTopic_order st = -1)).
Proof.
  split.
  { unfold getTopic, denormalizeTopic. simpl.
    by destruct (topicsById (data s) !! id). }
  split.
  { intros t Ht. split.
    - intros Hin. split; [by apply (getTopic_listed s id) |].
      unfold getTopic in Ht. cbv zeta in Ht.
      destruct (denormalizeTopic _ _ _ _) as [t0|]; [| done].
      injection Ht as <-. simpl. by apply indexOf_first_position.
    - intros Hout.
      assert (topic_order t = -1) as Ho.
      { unfold getTopic in Ht. cbv zeta in Ht.
        destruct (denormalizeTopic _ _ _ _) as [t0|]; [| done].
        injection Ht as <-. simpl. unfold indexOf. by apply indexOf_from_fresh. }
      split; [done |]. intros (i & v & t0 & _ & _ & ->)%getTopics_elem.
      simpl in Ho. lia. }
  split; [apply getTopics_elem |].
  split.
  { intros subTopicId. unfold getSubTopic. cbv zeta.
    destruct (topicsById (data s) !! id), (subTopicsById (data s) !! subTopicId);
      split; intros H; try done; try tauto; by destruct H. }
  intros subTopicId st topic Hst Htopic.
  unfold getSubTopic in Hst. cbv zeta in Hst. rewrite Htopic in Hst.
  destruct (subTopicsById (data s) !! subTopicId) as [sub|] eqn:Es; [| done].
  injection Hst as <-. split.
  - intros Hin. split; [| by apply indexOf_first_position].
    unfold getTopic, denormalizeTopic. cbv zeta. simpl. rewrite Htopic. simpl.
    eexists. split; [reflexivity |]. simpl.
    apply list_elem_of_omap. exists (IdStr subTopicId). split; [done |].
    simpl. by rewrite Es.
  - intros Hout. simpl. unfold indexOf. by apply indexOf_from_fresh.
Qed.

Lemma selectors_agree_witness :
  getTopic sample_store "t1" = Some sample_topic_view
  /\ sample_topic_view ∈ getTopics sample_store
  /\ first_position (topicOrder (data sample_store)) (IdStr "t1")
       (topic_order sample_topic_view)
  /\ getSubTopic sample_store "t1" "b" = Some sample_subTopic_view
  /\ (exists t, getTopic sample_store "t1" = Some t /\ sample_subTopic_view ∈ subTopics t)
  /\ first_position [IdStr "a"; IdStr "b"] (IdStr "b")
       (subTopic_order sample_subTopic_view).
Proof.
  assert (getTopic sample_store "t1" = Some sample_topic_view) as H1.
  { vm_compute. reflexivity. }
  assert (getSubTopic sample_store "t1" "b" = Some sample_subTopic_view) as H2.
  { vm_compute. reflexivity. }
  destruct (selectors_agree sample_store "t1") as (_ & Ht & _ & _ & Hst).
  destruct (Ht _ H1) as [Hin _].
  destruct (Hst "b" _ (mkTopic "t1" "Arrays" [IdStr "a"; IdStr "b"]) H2) as [Hl _].
  { vm_compute. reflexivity. }
  assert (IdStr "t1" ∈ topicOrder (data sample_store)) as Ho.
  { apply (bool_decide_unpack _). vm_compute. exact I. }
  assert (IdStr "b" ∈ [IdStr "a"; IdStr "b"]) as Hb.
  { apply (bool_decide_unpack _). vm_compute. exact I. }
  destruct (Hin Ho) as [Hg Hf]. destruct (Hl Hb) as [He Hp].
  split; [exact H1 |]. split; [exact Hg |]. split; [exact Hf |].
  split; [exact H2 |]. split; [exact He | exact Hp].
Defined.

(** ** The filtered view *)

Lemma filter_bind {A B} (P : B -> Prop) `{forall x, Decision (P x)}
    (f : A -> list B) (l : list A) :
  filter P (l ≫= f) = l ≫= (fun x => filter P (f x)).
Proof.
  induction l as [|x l IH]; [done |].
  by rewrite !bind_cons, filter_app, IH.
Qed.

Lemma bind_filter_nonempty {A B} (g : A -> list B) (P : A -> Prop)
    `{forall x, Decision (P x)} (l : list A) :
  (forall x, ~ P x -> g x = []) ->
  filter P l ≫= g = l ≫= g.
Proof.
  intros Hg. induction l as [|x l IH]; [done |].
  rewrite bind_cons. destruct (decide (P x)) as [Hp|Hp].
  - rewrite filter_cons_True by done. by rewrite bind_cons, IH.
  - rewrite filter_cons_False by done. by rewrite IH, (Hg x Hp).
Qed.

Lemma bind_fmap {A B C} (h : A -> B) (g : B -> list C) (l : list A) :
  (h <$> l) ≫= g = l ≫= (fun x => g (h x)).
Proof. induction l as [|x l IH]; [done |]. by rewrite fmap_cons, !bind_cons, IH. Qed.

Lemma bind_ext_elem {A B} (f g : A -> list B) (l : list A) :
  (forall x, x ∈ l -> f x = g x) -> l ≫= f = l ≫= g.
Proof.
  induction l as [|x l IH]; intros H; [done |].
  rewrite !bind_cons, (H x (list_elem_of_here _ _)), IH; [done |].
  intros y Hy. apply H. by apply list_elem_of_further.
Qed.

Lemma bind_one {A B} (f : A -> list B) (x : A) : [x] ≫= f = f x.
Proof. simpl. by rewrite app_nil_r. Qed.

Lemma length_zero_nil {A} (l : list A) : ~ (0 < length l)%nat -> l = [].
Proof. destruct l; simpl; [done | lia]. Qed.

Lemma entries_filtered_topic query f t :
  entries [filtered_topic query f t]
  = filter (fun e => matches_filter query f e.2 = true) (entries [t]).
Proof.
  unfold entries. rewrite !bind_one. simpl.
  rewrite (bind_filter_nonempty
             (fun st => (fun q => (nested_topic_id t, nested_subTopic_id st, q))
                          <$> questions st)).
  - rewrite bind_fmap, filter_bind. apply bind_ext_elem. intros st _. simpl.
    generalize (questions st). intros l.
    induction l as [|q l IH]; [done |]. simpl.
    destruct (decide (matches_filter query f q = true)) as [E|E].
    + rewrite !filter_cons_True by done. by rewrite fmap_cons, IH.
    + rewrite !filter_cons_False by done. done.
  - intros st Hst. by rewrite (length_zero_nil _ Hst).
Qed.

Lemma entries_cons t ts : entries (t :: ts) = entries [t] ++ entries ts.
Proof. unfold entries. by rewrite bind_cons, bind_one. Qed.

(** X19: What the search shows.  Without a search text and with the
    difficulty [All] the view is the nested list itself.  With a filter, the
    questions of the view are exactly the questions of the list that match,
    under the same topic and sub-topic and in the same order, and the view
    holds no topic without sub-topics and no sub-topic without questions. *)
Theorem filteredTopics_shows_matches topics searchQuery difficultyFilter :
  (hasFilter searchQuery difficultyFilter = false ->
     filteredTopics topics searchQuery difficultyFilter = topics)
  /\ (hasFilter searchQuery difficultyFilter = true ->
        entries (filteredTopics topics searchQuery difficultyFilter)
        = filter (fun e =>
                    matches_filter (JsString.trim (JsString.toLowerCase searchQuery))
                      difficultyFilter e.2 = true)
            (entries topics)
        /\ Forall (fun t =>
             subTopics t <> []
             /\ Forall (fun st => questions st <> []) (subTopics t))
             (filteredTopics topics searchQuery difficultyFilter)).
Proof.
  unfold filteredTopics. cbv zeta.
  set (query := JsString.trim (JsString.toLowerCase searchQuery)).
  split; intros Hf; rewrite Hf; simpl; [done |]. split.
  - induction topics as [|t ts IH]; [done |].
    rewrite fmap_cons, (entries_cons t ts), filter_app, <- IH.
    rewrite <- entries_filtered_topic.
    destruct (decide (0 < length (subTopics (filtered_topic query difficultyFilter t)))%nat)
      as [Hp|Hp].
    + rewrite filter_cons_True by done. by rewrite entries_cons.
    + rewrite filter_cons_False by done.
      unfold entries at 2. rewrite bind_one.
      by rewrite (length_zero_nil _ Hp).
  - apply Forall_forall. intros t Ht.
    apply list_elem_of_filter in Ht as [Hlen Ht].
    apply list_elem_of_fmap in Ht as (t0 & -> & _).
    split.
    + intros E. rewrite E in Hlen. simpl in Hlen. lia.
    + apply Forall_forall. intros st Hst. simpl in Hst.
      apply list_elem_of_filter in Hst as [Hq _].
      intros E. rewrite E in Hq. simpl in Hq. lia.
Qed.

Lemma filteredTopics_shows_matches_witness :
  hasFilter " SUM" "Easy" = true
  /\ entries (filteredTopics sample_topics " SUM" "Easy")
     = filter (fun e =>
                 matches_filter (JsString.trim (JsString.toLowerCase " SUM"))
                   "Easy" e.2 = true)
         (entries sample_topics)
  /\ Forall (fun t =>
       subTopics t <> []
       /\ Forall (fun st => questions st <> []) (subTopics t))
       (filteredTopics sample_topics " SUM" "Easy").
Proof.
  assert (hasFilter " SUM" "Easy" = true) as H by reflexivity.
  split; [exact H |].
  exact (proj2 (filteredTopics_shows_matches sample_topics " SUM" "Easy") H).
Defined.

(** *** The calls of the cards *)

Lemma filteredTopics_sub_view topics searchQuery difficultyFilter t' :
  t' ∈ filteredTopics topics searchQuery difficultyFilter ->
  exists t,
    t ∈ topics /\ nested_topic_id t' = nested_topic_id t
    /\ forall st', st' ∈ subTopics t' ->
         exists st, st ∈ subTopics t
                    /\ nested_subTopic_id st' = nested_subTopic_id st
                    /\ forall q, q ∈ questions st' -> q ∈ questions st.
Proof.
  unfold filteredTopics. cbv zeta.
  destruct (hasFilter searchQuery difficultyFilter); simpl.
  - intros Ht. apply list_elem_of_filter in Ht as [_ Ht].
    apply list_elem_of_fmap in Ht as (t & -> & Ht).
    exists t. split; [done |]. split; [done |]. simpl. intros st' Hst.
    apply list_elem_of_filter in Hst as [_ Hst].
    apply list_elem_of_fmap in Hst as (st & -> & Hst).
    exists st. split; [done |]. split; [done |]. simpl. intros q Hq.
    by apply list_elem_of_filter in Hq as [_ Hq].
  - intros Ht. exists t'. split; [done |]. split; [done |].
    intros st' Hst. by exists st'.
Qed.

(** X20: The delete buttons respect the store.  When the graph is well
    formed and every entity is stored under its own id, every delete call of
    a card rendered from the nested view, filtered or not, names the container
    that holds what it deletes: it respects [valid_call], and the graph is
    well formed after it. *)
Theorem card_deletes_valid s searchQuery difficultyFilter m :
  well_formed (data s) ->
  entity_ids_agree (data s) ->
  m ∈ card_deletes (filteredTopics (getTopics s) searchQuery difficultyFilter) ->
  valid_call m s
  /\ (forall newURL s' r,
        apply newURL m s = Normal (s', r) -> well_formed (data s')).
Proof.
  intros Hwf Hids Hm.
  assert (valid_call m s) as Hv.
  { pose proof (getTopics_nests s Hwf Hids) as Hn.
    assert (forall t, t ∈ getTopics s ->
              nests_topic (data s) (IdStr (nested_topic_id t)) t) as Hts.
    { apply Forall_forall.
      apply (Forall2_Forall_r (nests_topic (data s)) _ _ _ Hn).
      by intros v t (-> & ? & ?). }
    unfold card_deletes in Hm.
    apply list_elem_of_bind in Hm as (t' & Hm & Ht').
    apply filteredTopics_sub_view in Ht' as (t & Ht & Eid & Hsub).
    destruct (Hts t Ht) as (_ & _ & Hall). rewrite Forall_forall in Hall.
    apply elem_of_cons in Hm as [->|Hm]; [done |].
    apply list_elem_of_bind in Hm as (st' & Hm & Hst').
    destruct (Hsub st' Hst') as (st & Hst & Est & Hqs).
    destruct (Hall st Hst) as [Hstored _].
    apply elem_of_cons in Hm as [->|Hm].
    - rewrite Eid, Est. simpl. intros sub Hsub'. rewrite Hstored in Hsub'.
      by injection Hsub' as <-.
    - apply list_elem_of_fmap in Hm as (q & -> & Hq). rewrite Eid, Est. simpl.
      intros sub Hsub'. rewrite Hstored in Hsub'. injection Hsub' as <-. simpl.
      apply (list_elem_of_fmap_2 (fun q => IdStr (nested_question_id q))).
      by apply Hqs. }
  split; [done |].
  intros newURL s' r Happ. by apply (apply_well_formed newURL m s s' r).
Qed.

Lemma card_deletes_valid_witness :
  well_formed (data sample_store)
  /\ entity_ids_agree (data sample_store)
  /\ DeleteQuestion "t1" "b" "q4"
     ∈ card_deletes (filteredTopics (getTopics sample_store) "" "Easy")
  /\ valid_call (DeleteQuestion "t1" "b" "q4") sample_store
  /\ (forall newURL s' r,
        apply newURL (DeleteQuestion "t1" "b" "q4") sample_store = Normal (s', r) ->
        well_formed (data s')).
Proof.
  assert (well_formed (data sample_store)) as Hwf.
  { apply well_formed_entries_sound. apply (bool_decide_unpack _). vm_compute. exact I. }
  assert (entity_ids_agree (data sample_store)) as Hids.
  { apply (bool_decide_unpack _). vm_compute. exact I. }
  assert (DeleteQuestion "t1" "b" "q4"
          ∈ card_deletes (filteredTopics (getTopics sample_store) "" "Easy")) as Hm.
  { vm_compute. repeat (apply list_elem_of_here || apply list_elem_of_further). }
  split; [exact Hwf |]. split; [exact Hids |]. split; [exact Hm |].
  exact (card_deletes_valid sample_store "" "Easy" _ Hwf Hids Hm).
Defined.

(** ** No id is listed twice *)

Lemma reorder_Permutation (l : list jsid) i j :
  (JsArray.relative_index (length l) i < length l)%nat ->
  reorder l i j ≡ₚ l.
Proof.
  intros Hi. unfold reorder, JsArray.splice_out, JsArray.splice_in. cbv zeta.
  destruct (lookup_lt_is_Some_2 l _ Hi) as [x Hx]. rewrite Hx. simpl.
  rewrite <- Permutation_middle, take_drop. symmetry. by apply delete_Permutation.
Qed.

Lemma NoDup_reorder (l : list jsid) i j :
  (JsArray.relative_index (length l) i < length l)%nat ->
  NoDup l -> NoDup (reorder l i j).
Proof. intros Hi Hl. by rewrite (reorder_Permutation l i j Hi). Qed.

Lemma NoDup_splice_in (l : list jsid) i x :
  x ∉ l -> NoDup l -> NoDup (JsArray.splice_in l i x).
Proof.
  intros Hx Hl. unfold JsArray.splice_in.
  rewrite <- Permutation_middle, take_drop. by apply NoDup_cons.
Qed.

Lemma NoDup_append (l : list jsid) x : x ∉ l -> NoDup l -> NoDup (l ++ [x]).
Proof.
  intros Hx Hl. rewrite <- Permutation_cons_append. by apply NoDup_cons.
Qed.

Ltac nd_step :=
  match goal with
  | |- NoDup [] => constructor
  | |- NoDup (filter _ _) => apply NoDup_filter
  | |- NoDup (reorder _ _ _) => apply NoDup_reorder; [wf_range |]
  | |- map_Forall _ (<[_ := _]> _) => apply map_Forall_insert_2
  | |- map_Forall _ (delete _ _) => apply map_Forall_delete
  | |- map_Forall _ (delete_all _ _) => apply map_Forall_delete_all
  | H : map_Forall ?P ?m |- map_Forall ?P ?m => exact H
  | H : map_Forall _ ?m, L : ?m !! ?k = Some ?x |- NoDup (_ ?x) => exact (H k x L)
  | H : NoDup ?l |- NoDup ?l => exact H
  end.

Lemma apply_no_duplicates newURL m s s' r :
  well_formed (data s) ->
  no_duplicates (data s) ->
  valid_call m s ->
  ~ self_move m ->
  apply newURL m s = Normal (s', r) ->
  no_duplicates (data s').
Proof.
  intros Hwf (No & Nt & Ns) Hvalid Hself Happ.
  destruct Hwf as (W1 & W2 & W3 & W4 & W5 & W6 & W7).
  destruct m; cbn [apply] in Happ; simpl in Hvalid, Hself; op_cases Happ;
    rewrite ?data_recordHistory; try done;
    (split; [| split]); simpl; repeat (nd_step; simpl).
  - (* addTopic *)
    apply NoDup_append; [| done]. intros Hin.
    destruct (W1 _ Hin) as (k & [= <-] & [t Ht]). congruence.
  - (* addSubTopic *)
    apply NoDup_append; [| by nd_step]. intros Hin.
    match goal with
    | L : topicsById (data s) !! ?k = Some ?t |- _ =>
        destruct (W2 k t _ L Hin) as (g & st & [= <-] & Hst & _)
    end.
    congruence.
  - (* moveSubTopicToTopic *)
    apply NoDup_splice_in; [| by nd_step]. intros Hin.
    match goal with
    | L : topicsById (data s) !! toTopicId = Some ?t |- _ =>
        destruct (W2 toTopicId t _ L Hin) as (g & st & [= <-] & Hst & Eto)
    end.
    by simplify_eq.
  - (* addQuestion *)
    apply NoDup_append; [| by nd_step]. intros Hin.
    match goal with
    | L : subTopicsById (data s) !! ?k = Some ?t |- _ =>
        destruct (W3 k t _ L Hin) as (g & [= <-] & [q Hq])
    end.
    congruence.
  - (* moveQuestionToSubTopic *)
    apply NoDup_splice_in; [| by nd_step]. intros Hin.
    match goal with
    | Lf : subTopicsById (data s) !! fromSubTopicId = Some ?f,
      Lt : subTopicsById (data s) !! toSubTopicId = Some ?t,
      I : IdStr questionId ∈ questionIds ?f |- _ =>
        by destruct (Hself (W4 _ _ _ _ _ Lf Lt I Hin))
    end.
Qed.

Lemma graph_sound_createSnapshot s :
  graph_sound (data s) -> graph_sound (createSnapshot s).
Proof. intros [Hw Hn]. by rewrite createSnapshot_well_formed. Qed.

Lemma graph_sound_applySnapshot h : graph_sound h -> graph_sound (applySnapshot h).
Proof. intros [Hw Hn]. by rewrite applySnapshot_well_formed. Qed.

Lemma normalizeData_no_duplicates ts :
  distinct_ids ts -> no_duplicates (normalizeData ts).
Proof.
  intros Hd. split; [| split].
  - rewrite normalizeData_topicOrder. apply NoDup_ids, Hd.
  - intros k e He. apply normalizeData_topic_inv in He as (t & Ht & -> & ->).
    simpl. apply NoDup_ids.
    apply (NoDup_bind_elem subTopics nested_subTopic_id ts t); [apply Hd | done].
  - intros k e He.
    apply normalizeData_subTopic_inv in He as (t & st & Ht & Hst & -> & ->).
    simpl. apply NoDup_ids.
    apply (NoDup_bind_elem questions nested_question_id (all_subTopics ts) st);
      [apply Hd |].
    apply elem_of_all_subTopics. by exists t.
Qed.

(** X21: No id is listed twice.  When the graph is well formed and no id
    array holds an id twice, in the store and in every snapshot of the
    history, this still holds after any call of the write contract that
    respects [valid_call] and is not a move of an entity into the container it
    is in, after [undo] and after [redo]; the graph [normalizeData] builds
    from a list without repeated ids starts that way.  (A move into the same
    container is the one call that lists an id twice, and the drop handler
    never makes it.) *)
Theorem session_keeps_no_duplicates newURL s :
  store_sound s ->
  (forall m s' r,
     valid_call m s -> ~ self_move m ->
     apply newURL m s = Normal (s', r) -> store_sound s')
  /\ store_sound (undo s)
  /\ store_sound (redo s)
  /\ (forall ts, distinct_ids ts -> graph_sound (normalizeData ts)).
Proof.
  intros [[Hw Hn] Hh]. split; [| split; [| split]].
  - intros m s' r Hvalid Hself Happ. split; [split |].
    + by apply (apply_well_formed newURL m s s' r).
    + by apply (apply_no_duplicates newURL m s s' r).
    + by apply (committed_keeps graph_sound graph_sound_createSnapshot
                  newURL m s s' r).
  - by apply (undo_keeps graph_sound graph_sound_createSnapshot
                graph_sound_applySnapshot).
  - by apply (redo_keeps graph_sound graph_sound_applySnapshot).
  - intros ts Hd. split; [| by apply normalizeData_no_duplicates].
    by apply normalizeData_resolves.
Qed.

Lemma graph_sound_entries_sound d : graph_sound_entries d -> graph_sound d.
Proof. intros [Hw Hn]. split; [by apply well_formed_entries_sound | done]. Qed.

Lemma session_keeps_no_duplicates_witness :
  store_sound moved_store
  /\ valid_call (MoveQuestionToSubTopic "q4" "b" "a" 1) moved_store
  /\ ~ self_move (MoveQuestionToSubTopic "q4" "b" "a" 1)
  /\ store_sound (after (MoveQuestionToSubTopic "q4" "b" "a" 1) moved_store)
  /\ store_sound (undo moved_store)
  /\ store_sound (redo moved_store)
  /\ (forall ts, distinct_ids ts -> graph_sound (normalizeData ts)).
Proof.
  assert (store_sound moved_store) as Hs.
  { split.
    - apply graph_sound_entries_sound. apply (bool_decide_unpack _).
      vm_compute. exact I.
    - apply (Forall_impl graph_sound_entries); [| exact graph_sound_entries_sound].
      apply (bool_decide_unpack _). vm_compute. exact I. }
  assert (~ self_move (MoveQuestionToSubTopic "q4" "b" "a" 1)) as Hn.
  { simpl. discriminate. }
  destruct (session_keeps_no_duplicates scheme_only_URL moved_store Hs)
    as (Ha & Hu & Hr & Hnorm).
  split; [exact Hs |]. split; [exact I |]. split; [exact Hn |].
  split; [| split; [exact Hu | split; [exact Hr | exact Hnorm]]].
  apply (Ha (MoveQuestionToSubTopic "q4" "b" "a" 1) _ None I Hn).
  vm_compute. reflexivity.
Defined.
